(** * appcrianca: generation services (AI content, text-to-speech)

    A shallow embedding of the service layer of the repository
    ([backend/app/services/ai_service.py], [edge_tts_service.py],
    [piper_tts_service.py], [brazilian_tts_service.py]) and the properties
    its design document states about it.

    Conventions of the embedding.
    - A Python [str] is a list of Unicode code points ([list N]); the
      literals of the source are written [u "..."], decoded from UTF-8.
    - Case mapping and case-insensitive comparison are those of Python on
      the Basic Latin and Latin-1 Supplement blocks (the alphabet of the
      Portuguese and English texts handled); other code points are caseless
      in the model. The statements on case name the strings they are about.
    - Where a string is encoded for a digest, a lone surrogate makes
      [str.encode()] raise: [encodable] tells the strings that have none.
    - The generative backend, the speech engines, the clock and the file
      system are the environment: their replies are inputs of the embedded
      functions, their effects are written on an explicit world. *)

From Stdlib Require Import NArith ZArith List Ascii String Bool Lia Floats Uint63.
From stdpp Require Import base option list gmap.

Local Open Scope N_scope.

(* ===================================================================== *)
(** ** Python strings *)
(* ===================================================================== *)

Module PyStr.

Abbreviation char := N (only parsing).
Abbreviation str := (list N) (only parsing).

(** UTF-8 decoding of a source literal into code points. *)
Fixpoint utf8_decode (bs : list N) : list N :=
  match bs with
  | [] => []
  | b :: r1 =>
    if b <? 128 then b :: utf8_decode r1
    else match r1 with
    | [] => [b]
    | b2 :: r2 =>
      if b <? 224 then ((b - 192) * 64 + (b2 - 128)) :: utf8_decode r2
      else match r2 with
      | [] => [b; b2]
      | b3 :: r3 =>
        if b <? 240
        then ((b - 224) * 4096 + (b2 - 128) * 64 + (b3 - 128)) :: utf8_decode r3
        else match r3 with
        | [] => [b; b2; b3]
        | b4 :: r4 =>
          ((b - 240) * 262144 + (b2 - 128) * 4096 + (b3 - 128) * 64 + (b4 - 128))
            :: utf8_decode r4
        end
      end
    end
  end.

Definition u (s : string) : list N :=
  utf8_decode (List.map N_of_ascii (list_ascii_of_string s)).
Arguments u : simpl never.

(** [str.encode()]: UTF-8 encoding. A lone surrogate (U+D800 to U+DFFF) has
    none, and on a string that holds one [str.encode()] raises
    [UnicodeEncodeError]: [encode s] is what [s.encode()] returns for an
    [encodable] string [s]. *)
Definition encodable (s : list N) : bool :=
  forallb (fun c => (c <? 55296) || (57343 <? c)) s.

Definition encode_char (c : N) : list N :=
  if c <? 128 then [c]
  else if c <? 2048 then [192 + c / 64; 128 + c mod 64]
  else if c <? 65536 then [224 + c / 4096; 128 + (c / 64) mod 64; 128 + c mod 64]
  else [240 + c / 262144; 128 + (c / 4096) mod 64; 128 + (c / 64) mod 64; 128 + c mod 64].

Definition encode (s : list N) : list N := List.concat (List.map encode_char s).

(** [str.isspace()] of one code point, which is also the class [\s] of
    [re] on [str] patterns and what [str.strip()] removes. *)
Definition isspace (c : N) : bool :=
  ((9 <=? c) && (c <=? 13)) || ((28 <=? c) && (c <=? 32))
  || (c =? 133) || (c =? 160) || (c =? 5760)
  || ((8192 <=? c) && (c <=? 8202))
  || (c =? 8232) || (c =? 8233) || (c =? 8239) || (c =? 8287) || (c =? 12288).

Fixpoint lstrip (s : list N) : list N :=
  match s with
  | [] => []
  | c :: r => if isspace c then lstrip r else s
  end.

Definition rstrip (s : list N) : list N := rev (lstrip (rev s)).

Definition strip (s : list N) : list N := rstrip (lstrip s).

Fixpoint startswith (s p : list N) {struct p} : bool :=
  match p, s with
  | [], _ => true
  | _ :: _, [] => false
  | a :: p', b :: s' => (a =? b) && startswith s' p'
  end.

Definition endswith (s p : list N) : bool := startswith (rev s) (rev p).

(** [s[n:]] and [s[:-n]] for a literal [n >= 1]. *)
Definition slice_from (n : nat) (s : list N) : list N := drop n s.
Definition slice_to_minus (n : nat) (s : list N) : list N :=
  take (length s - n)%nat s.

(** [s[:n]] for an integer [n] that may be negative. *)
Definition slice_to {A} (n : Z) (l : list A) : list A :=
  if (0 <=? n)%Z then take (Z.to_nat n) l
  else take (length l - Z.to_nat (- n))%nat l.

Definition lower_char (c : N) : N :=
  if ((65 <=? c) && (c <=? 90)) then c + 32
  else if ((192 <=? c) && (c <=? 222) && negb (c =? 215)) then c + 32
  else c.

Definition upper_char (c : N) : list N :=
  if ((97 <=? c) && (c <=? 122)) then [c - 32]
  else if ((224 <=? c) && (c <=? 254) && negb (c =? 247)) then [c - 32]
  else if c =? 223 then [83; 83]
  else if c =? 255 then [376]
  else if c =? 181 then [924]
  else [c].

Definition lower (s : list N) : list N := List.map lower_char s.
Definition upper (s : list N) : list N := List.concat (List.map upper_char s).

(** Equality of strings as a boolean ([==]). *)
Fixpoint str_eqb (a b : list N) : bool :=
  match a, b with
  | [], [] => true
  | x :: a', y :: b' => (x =? y) && str_eqb a' b'
  | _, _ => false
  end.

(** [needle in s]. *)
Fixpoint contains (s needle : list N) : bool :=
  startswith s needle ||
  match s with
  | [] => false
  | _ :: r => contains r needle
  end.

(** The strings of the modelled blocks (code points below 256). *)
Definition latin1 (s : list N) : bool := forallb (fun c => c <? 256) s.

End PyStr.

Import PyStr.

(* ===================================================================== *)
(** ** [hashlib.md5(...).hexdigest()] *)
(* ===================================================================== *)

Module MD5.

Definition mask32 : N := 4294967295.
Definition add32 (a b : N) : N := N.land (a + b) mask32.
Definition not32 (a : N) : N := N.lxor a mask32.
Definition rotl32 (x s : N) : N :=
  N.land (N.lor (N.shiftl x s) (N.shiftr x (32 - s))) mask32.

Definition K : list N :=
  [3614090360; 3905402710; 606105819; 3250441966; 4118548399; 1200080426;
   2821735955; 4249261313; 1770035416; 2336552879; 4294925233; 2304563134;
   1804603682; 4254626195; 2792965006; 1236535329; 4129170786; 3225465664;
   643717713; 3921069994; 3593408605; 38016083; 3634488961; 3889429448;
   568446438; 3275163606; 4107603335; 1163531501; 2850285829; 4243563512;
   1735328473; 2368359562; 4294588738; 2272392833; 1839030562; 4259657740;
   2763975236; 1272893353; 4139469664; 3200236656; 681279174; 3936430074;
   3572445317; 76029189; 3654602809; 3873151461; 530742520; 3299628645;
   4096336452; 1126891415; 2878612391; 4237533241; 1700485571; 2399980690;
   4293915773; 2240044497; 1873313359; 4264355552; 2734768916; 1309151649;
   4149444226; 3174756917; 718787259; 3951481745].

Definition shifts : list N :=
  [7; 12; 17; 22; 7; 12; 17; 22; 7; 12; 17; 22; 7; 12; 17; 22;
   5; 9; 14; 20; 5; 9; 14; 20; 5; 9; 14; 20; 5; 9; 14; 20;
   4; 11; 16; 23; 4; 11; 16; 23; 4; 11; 16; 23; 4; 11; 16; 23;
   6; 10; 15; 21; 6; 10; 15; 21; 6; 10; 15; 21; 6; 10; 15; 21].

Record state := { sa : N; sb : N; sc : N; sd : N }.

Definition init : state :=
  {| sa := 1732584193; sb := 4023233417; sc := 2562383102; sd := 271733878 |}.

Definition pad (msg : list N) : list N :=
  let len := N.of_nat (length msg) in
  let zeros := (120 - (len + 1) mod 64) mod 64 in
  let bits := len * 8 in
  msg ++ [128] ++ repeat 0 (N.to_nat zeros)
      ++ List.map (fun i => N.land (N.shiftr bits (8 * N.of_nat i)) 255) (seq 0 8).

Fixpoint words (bs : list N) : list N :=
  match bs with
  | b0 :: b1 :: b2 :: b3 :: r =>
      (b0 + 256 * b1 + 65536 * b2 + 16777216 * b3) :: words r
  | _ => []
  end.

Definition step (M : list N) (st : state) (i : nat) : state :=
  let A := sa st in let B := sb st in let C := sc st in let D := sd st in
  let '(F, g) :=
    if (i <? 16)%nat then (N.lor (N.land B C) (N.land (not32 B) D), i)
    else if (i <? 32)%nat then
      (N.lor (N.land D B) (N.land (not32 D) C), ((5 * i + 1) mod 16)%nat)
    else if (i <? 48)%nat then (N.lxor B (N.lxor C D), ((3 * i + 5) mod 16)%nat)
    else (N.lxor C (N.lor B (not32 D)), ((7 * i) mod 16)%nat) in
  let F' := add32 (add32 (add32 F A) (nth i K 0)) (nth g M 0) in
  {| sa := D; sd := C; sc := B; sb := add32 B (rotl32 F' (nth i shifts 0)) |}.

Definition block (st : state) (M : list N) : state :=
  let st' := fold_left (step M) (seq 0 64) st in
  {| sa := add32 (sa st) (sa st'); sb := add32 (sb st) (sb st');
     sc := add32 (sc st) (sc st'); sd := add32 (sd st) (sd st') |}.

Fixpoint blocks (n : nat) (ws : list N) (st : state) : state :=
  match n with
  | O => st
  | S n' => blocks n' (drop 16 ws) (block st (take 16 ws))
  end.

Definition hex_digit (d : N) : N := if d <? 10 then 48 + d else 87 + d.

Definition le_hex (w : N) : list N :=
  List.concat (List.map (fun i =>
    let b := N.land (N.shiftr w (8 * N.of_nat i)) 255 in
    [hex_digit (b / 16); hex_digit (b mod 16)]) (seq 0 4)).

(** The 32 lower-case hexadecimal digits of the digest of a byte string. *)
Definition hexdigest (msg : list N) : list N :=
  let ws := words (pad msg) in
  let st := blocks (length ws / 16) ws init in
  le_hex (sa st) ++ le_hex (sb st) ++ le_hex (sc st) ++ le_hex (sd st).
Arguments hexdigest : simpl never.

End MD5.

(* ===================================================================== *)
(** ** JSON values and [json.loads] *)
(* ===================================================================== *)

Module Json.

(** The values [json.loads] builds, which are also the dictionaries and
    lists the services return. A [dict] keeps its keys in insertion order;
    a float is kept as the text it was read from. *)
#[warnings="-register-all"]
Inductive json :=
| JNull
| JBool (b : bool)
| JInt (z : Z)
| JFloat (lexeme : list N)
| JStr (s : list N)
| JArr (items : list json)
| JObj (members : list (list N * json)).

(** [d[k] = v] on a [dict]. *)
Fixpoint dict_set (k : list N) (v : json) (d : list (list N * json)) : list (list N * json) :=
  match d with
  | [] => [(k, v)]
  | (k', v') :: r => if str_eqb k k' then (k', v) :: r else (k', v') :: dict_set k v r
  end.

(** [d.get(k)]. *)
Fixpoint dict_get (k : list N) (d : list (list N * json)) : option json :=
  match d with
  | [] => None
  | (k', v') :: r => if str_eqb k k' then Some v' else dict_get k r
  end.

Definition is_ws (c : N) : bool := (c =? 32) || (c =? 9) || (c =? 10) || (c =? 13).

Fixpoint skip_ws (s : list N) : list N :=
  match s with
  | c :: r => if is_ws c then skip_ws r else s
  | [] => []
  end.

Definition is_digit (c : N) : bool := (48 <=? c) && (c <=? 57).

Fixpoint span_digits (s : list N) : list N * list N :=
  match s with
  | c :: r => if is_digit c then let '(d, t) := span_digits r in (c :: d, t) else ([], s)
  | [] => ([], [])
  end.

Definition digits_value (d : list N) : Z :=
  fold_left (fun acc c => (acc * 10 + Z.of_N (c - 48))%Z) d 0%Z.

Definition hex_value (c : N) : option N :=
  if is_digit c then Some (c - 48)
  else if (97 <=? c) && (c <=? 102) then Some (c - 87)
  else if (65 <=? c) && (c <=? 70) then Some (c - 55)
  else None.

Definition hex4 (a b c d : N) : option N :=
  match hex_value a, hex_value b, hex_value c, hex_value d with
  | Some x, Some y, Some z, Some w => Some (x * 4096 + y * 256 + z * 16 + w)
  | _, _, _, _ => None
  end.

Definition is_high (c : N) : bool := (55296 <=? c) && (c <=? 56319).
Definition is_low (c : N) : bool := (56320 <=? c) && (c <=? 57343).

Definition flush (pending : option N) (acc : list N) : list N :=
  match pending with Some hi => hi :: acc | None => acc end.

(** The body of a string after its opening quote (strict mode): the
    decoded text and what follows the closing quote. [pending] is a high
    surrogate read from a [\uXXXX] escape and not yet paired; [acc] is the
    text read so far, reversed. *)
Fixpoint scanstring (pending : option N) (acc : list N) (s : list N) : option (list N * list N) :=
  match s with
  | [] => None
  | 34 :: r => Some (rev (flush pending acc), r)
  | 92 :: r =>
    match r with
    | [] => None
    | 117 :: h1 :: h2 :: h3 :: h4 :: r' =>
      match hex4 h1 h2 h3 h4 with
      | None => None
      | Some c =>
        match pending with
        | Some hi =>
          if is_low c
          then scanstring None ((65536 + (hi - 55296) * 1024 + (c - 56320)) :: acc) r'
          else if is_high c then scanstring (Some c) (hi :: acc) r'
          else scanstring None (c :: hi :: acc) r'
        | None =>
          if is_high c then scanstring (Some c) acc r'
          else scanstring None (c :: acc) r'
        end
      end
    | e :: r' =>
      let esc := match e with
                 | 34 => Some 34 | 92 => Some 92 | 47 => Some 47
                 | 98 => Some 8 | 102 => Some 12 | 110 => Some 10
                 | 114 => Some 13 | 116 => Some 9
                 | _ => None
                 end in
      match esc with
      | Some c => scanstring None (c :: flush pending acc) r'
      | None => None
      end
    end
  | c :: r => if c <? 32 then None else scanstring None (c :: flush pending acc) r
  end.

(** A number at the head of [s]: an optional minus sign and either a lone
    zero or a digit string without leading zero; then, each optional, a dot
    with at least one digit, and an exponent mark with an optional sign and
    at least one digit. *)
Definition int_part (s : list N) : option (list N * list N) :=
  let '(sign, t) := match s with 45 :: t => ([45], t) | _ => ([], s) end in
  match t with
  | 48 :: t' => Some (sign ++ [48], t')
  | c :: _ => if is_digit c then let '(d, t') := span_digits t in Some (sign ++ d, t') else None
  | [] => None
  end.

Definition frac_part (s : list N) : list N * list N :=
  match s with
  | 46 :: t =>
    match span_digits t with
    | ([], _) => ([], s)
    | (d, t') => (46 :: d, t')
    end
  | _ => ([], s)
  end.

Definition exp_part (s : list N) : list N * list N :=
  match s with
  | e :: t =>
    if (e =? 101) || (e =? 69) then
      let '(sign, t1) := match t with
                         | 45 :: t1 => ([45], t1)
                         | 43 :: t1 => ([43], t1)
                         | _ => ([], t)
                         end in
      match span_digits t1 with
      | ([], _) => ([], s)
      | (d, t') => (e :: sign ++ d, t')
      end
    else ([], s)
  | [] => ([], s)
  end.

Definition scan_number (s : list N) : option (json * list N) :=
  match int_part s with
  | None => None
  | Some (i, t) =>
    let '(f, t1) := frac_part t in
    let '(e, t2) := exp_part t1 in
    match f, e with
    | [], [] =>
      Some (JInt (match i with
                  | 45 :: d => (- digits_value d)%Z
                  | d => digits_value d
                  end), t2)
    | _, _ => Some (JFloat (i ++ f ++ e), t2)
    end
  end.

Definition scan_constant (s : list N) : option (json * list N) :=
  if startswith s (u "null") then Some (JNull, drop 4 s)
  else if startswith s (u "true") then Some (JBool true, drop 4 s)
  else if startswith s (u "false") then Some (JBool false, drop 5 s)
  else match scan_number s with
  | Some r => Some r
  | None =>
    if startswith s (u "NaN") then Some (JFloat (u "NaN"), drop 3 s)
    else if startswith s (u "Infinity") then Some (JFloat (u "Infinity"), drop 8 s)
    else if startswith s (u "-Infinity") then Some (JFloat (u "-Infinity"), drop 9 s)
    else None
  end.

(** [scan_once] with the array and object loops of the decoder. The
    recursion is on [fuel]; [loads] supplies more than a text can use. *)
Fixpoint scan_once (fuel : nat) (s : list N) {struct fuel} : option (json * list N) :=
  match fuel with
  | O => None
  | S f =>
    match s with
    | 34 :: r =>
      match scanstring None [] r with
      | Some (t, r') => Some (JStr t, r')
      | None => None
      end
    | 91 :: r =>
      match skip_ws r with
      | 93 :: r' => Some (JArr [], r')
      | r' => parse_array f [] r'
      end
    | 123 :: r =>
      match skip_ws r with
      | 125 :: r' => Some (JObj [], r')
      | r' => parse_object f [] r'
      end
    | _ => scan_constant s
    end
  end
with parse_array (fuel : nat) (acc : list json) (s : list N) {struct fuel} : option (json * list N) :=
  match fuel with
  | O => None
  | S f =>
    match scan_once f s with
    | None => None
    | Some (v, r) =>
      match skip_ws r with
      | 93 :: r' => Some (JArr (rev (v :: acc)), r')
      | 44 :: r' => parse_array f (v :: acc) (skip_ws r')
      | _ => None
      end
    end
  end
with parse_object (fuel : nat) (acc : list (list N * json)) (s : list N) {struct fuel} : option (json * list N) :=
  match fuel with
  | O => None
  | S f =>
    match s with
    | 34 :: r =>
      match scanstring None [] r with
      | None => None
      | Some (k, r1) =>
        match skip_ws r1 with
        | 58 :: r2 =>
          match scan_once f (skip_ws r2) with
          | None => None
          | Some (v, r3) =>
            match skip_ws r3 with
            | 125 :: r4 => Some (JObj (dict_set k v acc), r4)
            | 44 :: r4 => parse_object f (dict_set k v acc) (skip_ws r4)
            | _ => None
            end
          end
        | _ => None
        end
      end
    | _ => None
    end
  end.

(** [json.loads(s)]: [None] is [JSONDecodeError]. (The limits of the
    interpreter, on the digits of an integer and on the depth of nesting,
    are not modelled: beyond them [json.loads] raises an exception of another
    class, on which every caller below returns the same fallback.) *)
Definition loads (s : list N) : option json :=
  if startswith s [65279] then None
  else match scan_once (2 * length s + 2) (skip_ws s) with
  | Some (v, r) => match skip_ws r with [] => Some v | _ => None end
  | None => None
  end.

End Json.

Import Json.

(** JSON text of the examples, written with ' for the double quote. *)
Definition jq (s : string) : list N :=
  List.map (fun c => if c =? 39 then 34 else c) (u s).

(* ===================================================================== *)
(** ** Results and exceptions *)
(* ===================================================================== *)

Module Py.

(** The exceptions that leave the embedded functions. *)
Inductive exn := KeyError | IndexError | OSError | UnicodeEncodeError | UnboundLocalError.

Inductive outcome (A : Type) :=
| Return (a : A)
| Raise (e : exn).
Arguments Return {A} a.
Arguments Raise {A} e.

#[export] Instance outcome_ret : MRet outcome := fun A a => Return a.
#[export] Instance outcome_bind : MBind outcome := fun A B k m =>
  match m with
  | Return a => k a
  | Raise e => Raise e
  end.

(** [l[0]] and [l[-1]]. *)
Definition first {A} (l : list A) : outcome A :=
  match l with
  | x :: _ => Return x
  | [] => Raise IndexError
  end.

Definition last_item {A} (l : list A) : outcome A := first (rev l).

(** [d[k]] on a dictionary of strings. *)
Fixpoint getitem (d : list (list N * list N)) (k : list N) : outcome (list N) :=
  match d with
  | [] => Raise KeyError
  | (k', v) :: r => if str_eqb k k' then Return v else getitem r k
  end.

End Py.

Import Py.

(* ===================================================================== *)
(** ** The fragment of [re] the grammar rules use *)
(* ===================================================================== *)

Module Re.

(** Patterns: a literal character, the class [\s], sequence, ordered
    alternation, greedy [?] and greedy [+]. *)
Inductive regex :=
| Eps
| Chr (c : N)
| Space
| Seq (a b : regex)
| Alt (a b : regex)
| Opt (a : regex)
| Plus (a : regex).

(** Case folding of [re.IGNORECASE], for the characters of a pattern that
    are in Latin-1 or the upper-cased form of one, on a text that
    [folds_exactly] (below) is true of. *)
Definition fold_case (c : N) : N :=
  if c =? 376 then 255
  else if (c =? 924) || (c =? 181) then 956
  else lower_char c.

Definition ieq (c d : N) : bool := fold_case c =? fold_case d.

(** [re.escape(s)] (and a literal without metacharacters): the pattern that
    matches [s] itself. *)
Fixpoint lit (s : list N) : regex :=
  match s with
  | [] => Eps
  | c :: r => Seq (Chr c) (lit r)
  end.

(** Greedy repetition of [step], at most [fuel] more times; an iteration
    that consumes nothing ends the loop. *)
Fixpoint star (fuel : nat)
    (step : list N -> (list N -> option (list N)) -> option (list N))
    (s : list N) (k : list N -> option (list N)) : option (list N) :=
  match fuel with
  | O => k s
  | S f =>
    match step s (fun s' => if (length s' <? length s)%nat then star f step s' k else None) with
    | Some r => Some r
    | None => k s
    end
  end.

(** Backtracking match of [r] at the head of [s], case-insensitive; [k] is
    the rest of the pattern. The result is the text left after the match, for
    the first way of matching in the order a backtracking engine tries them. *)
Fixpoint mtch (r : regex) (s : list N) (k : list N -> option (list N)) : option (list N) :=
  match r with
  | Eps => k s
  | Chr c => match s with d :: s' => if ieq c d then k s' else None | [] => None end
  | Space => match s with d :: s' => if isspace d then k s' else None | [] => None end
  | Seq a b => mtch a s (fun s' => mtch b s' k)
  | Alt a b => match mtch a s k with Some x => Some x | None => mtch b s k end
  | Opt a => match mtch a s k with Some x => Some x | None => k s end
  | Plus a => mtch a s (fun s' => star (length s') (mtch a) s' k)
  end.

(** Length of the match of [r] at the head of [s]. *)
Definition match_at (r : regex) (s : list N) : option nat :=
  match mtch r s Some with
  | Some rest => Some (length s - length rest)%nat
  | None => None
  end.

(** [re.sub(r, repl, s, flags=re.IGNORECASE)] for a pattern that cannot
    match the empty string and a replacement without backslash (taken
    literally): leftmost matches, not overlapping, are replaced. [skip]
    counts the characters still covered by the last match. *)
Fixpoint sub_go (r : regex) (repl : list N) (s : list N) (skip : nat) : list N :=
  match s with
  | [] => []
  | c :: s' =>
    match skip with
    | S n => sub_go r repl s' n
    | O =>
      match match_at r s with
      | Some (S n) => repl ++ sub_go r repl s' n
      | _ => c :: sub_go r repl s' 0
      end
    end
  end.

Definition sub (r : regex) (repl : list N) (s : list N) : list N := sub_go r repl s 0.

(** [re.search(r, s)] finds nothing. *)
Fixpoint no_match (r : regex) (s : list N) : bool :=
  match s with
  | [] => true
  | _ :: s' => match match_at r s with Some (S _) => false | _ => no_match r s' end
  end.

End Re.

(* ===================================================================== *)
(** ** [AIService] ([backend/app/services/ai_service.py]) *)
(* ===================================================================== *)

Module AIService.

Import Re.

(** What [self.gemini_client.generate_response(...)] did inside a [try]:
    it returned a text, or an exception left the call. The handlers tell a
    [json.JSONDecodeError] ([FailedJSONDecode]) from the other exceptions
    ([Failed]: unavailable backend, timeout, anything else that is an
    [Exception]). *)
Inductive reply :=
| Reply (response : list N)
| Failed
| FailedJSONDecode.

(** *** [_fix_portuguese_grammar] *)

Definition seqs (l : list regex) : regex := fold_right Seq Eps l.

(** The rule table for [word]. Each pattern is the one [re] compiles from
    the source's text: the demonstratives and the article are literals,
    [\s+] is [Plus Space], [uma?] is [um] and an optional [a],
    [(Essa|Esse)] an alternation, the escaped upper-cased word a literal. *)
Definition patterns_to_fix (word : list N) : list (regex * list N) :=
  let word_lower := lower word in
  let is_feminine := endswith word_lower (u "a") in
  let correct_article := if is_feminine then u "a" else u "o" in
  let correct_demonstrative := if is_feminine then u "Essa é" else u "Esse é" in
  let wrong_demonstrative := if is_feminine then u "Esse é" else u "Essa é" in
  let ws := Plus Space in
  let uma := Seq (lit (u "um")) (Opt (Chr 97)) in
  let essa_esse := Alt (lit (u "Essa")) (lit (u "Esse")) in
  let replacement :=
    correct_demonstrative ++ u " " ++ correct_article ++ u " " ++ upper word in
  [ (seqs [lit wrong_demonstrative; ws; lit correct_article; ws; lit (upper word)],
     replacement);
    (seqs [lit wrong_demonstrative; ws; uma; ws; lit (upper word)], replacement);
    (seqs [essa_esse; ws; lit (u "é"); ws; uma; ws; lit (upper word)], replacement);
    (seqs [lit wrong_demonstrative; ws; lit (upper word)], replacement);
    (seqs [essa_esse; ws; lit (u "é"); ws; lit (upper word)], replacement) ].

(** The substitutions are applied in the order of the table, each on the
    result of the one before. (The log lines of the source do not change
    the result.) The replacement is written as it is: with a backslash in
    the word [re.sub] would reject it as a template, and the function
    raise. *)
Definition _fix_portuguese_grammar (text word : list N) : list N :=
  fold_left (fun corrected_text rule => sub (fst rule) (snd rule) corrected_text)
            (patterns_to_fix word) text.

(** No rule of the table for [word] matches anywhere in [text]. *)
Definition rule_free (text word : list N) : bool :=
  forallb (fun rule => no_match (fst rule) text) (patterns_to_fix word).

(** *** [_clean_json_response] *)

Definition fence : list N := u "```".
Definition fence_json : list N := u "```json".

Definition _clean_json_response (response : list N) : list N :=
  let response := strip response in
  let response :=
    if startswith response fence_json then slice_from 7 response
    else if startswith response fence then slice_from 3 response
    else response in
  let response :=
    if endswith response fence then slice_to_minus 3 response else response in
  strip response.

(** *** The fallback generators *)

Definition key_time : list N := u "generation_time_ms".

(** The [except] block of [generate_intro]. *)
Definition intro_fallback (translation room : list N) (elapsed : Z) : json :=
  let article := if endswith (lower translation) (u "a") then u "a" else u "o" in
  let demonstrative := if str_eqb article (u "a") then u "Essa é" else u "Esse é" in
  JObj [ (u "intro_text",
          JStr (u "Olá! 📚 " ++ demonstrative ++ u " " ++ article ++ u " "
                ++ upper translation ++ u "! "
                ++ u "Usamos no nosso dia a dia aqui na " ++ room ++ u ". "
                ++ u "Quer aprender como falar isso em inglês? 🇺🇸"));
         (key_time, JInt elapsed) ].

Definition fallback_phrases (word translation : list N) (difficulty : Z) : list json :=
  [ JObj [ (u "situation", JStr (u "asking_permission"));
           (u "situation_pt", JStr (u "Pedindo Permissão"));
           (u "phrase_pt", JStr (u "Posso usar o " ++ translation ++ u "?"));
           (u "phrase_en", JStr (u "Can I use the " ++ word ++ u "?"));
           (u "difficulty", JInt difficulty) ];
    JObj [ (u "situation", JStr (u "describing_action"));
           (u "situation_pt", JStr (u "Descrevendo Ação"));
           (u "phrase_pt", JStr (u "Eu estou usando o " ++ translation));
           (u "phrase_en", JStr (u "I am using the " ++ word));
           (u "difficulty", JInt difficulty) ];
    JObj [ (u "situation", JStr (u "talking_routine"));
           (u "situation_pt", JStr (u "Falando sobre Rotina"));
           (u "phrase_pt", JStr (u "Eu uso o " ++ translation ++ u " todo dia"));
           (u "phrase_en", JStr (u "I use the " ++ word ++ u " every day"));
           (u "difficulty", JInt difficulty) ] ].

Definition _get_fallback_phrases (word translation : list N) (difficulty num : Z) : json :=
  JObj [ (u "phrases", JArr (slice_to num (fallback_phrases word translation difficulty)));
         (key_time, JInt 0) ].

(** The [except] block of [generate_word_breakdown]. *)
Definition word_breakdown_fallback (word : list N) : json :=
  JObj [ (u "word", JStr word);
         (u "ipa", JStr (u "/" ++ word ++ u "/"));
         (u "syllables",
          JArr [ JObj [ (u "text", JStr word);
                        (u "ipa", JStr (u "/" ++ word ++ u "/"));
                        (u "explanation_pt",
                         JStr (u "Pronuncie como está escrito: " ++ word)) ] ]) ].

(** The [except] block of [generate_fun_facts]. *)
Definition fun_facts_fallback (word translation : list N) : json :=
  JObj [ (u "fun_facts",
          JArr [ JStr (u "📚 '" ++ word ++ u "' é uma palavra comum em inglês.");
                 JStr (u "🌍 Pessoas em todo mundo usam '" ++ translation ++ u "'.");
                 JStr (u "🎓 Aprender '" ++ word ++ u "' ajuda no seu inglês!") ]);
         (key_time, JInt 0) ].

(** The [except] block of [generate_quiz]. *)
Definition quiz_fallback (word translation : list N) (difficulty : Z) : json :=
  JObj [ (u "title", JStr (u "Quiz sobre " ++ translation));
         (u "description", JStr (u "Teste seus conhecimentos sobre '" ++ word ++ u "'!"));
         (u "difficulty", JInt difficulty);
         (u "questions",
          JArr [ JObj [ (u "question_type", JStr (u "multiple_choice"));
                        (u "question_text_pt",
                         JStr (u "Como se diz '" ++ translation ++ u "' em inglês?"));
                        (u "options",
                         JArr [JStr word; JStr (u "outro1"); JStr (u "outro2"); JStr (u "outro3")]);
                        (u "correct_answer", JStr word);
                        (u "explanation", JStr (u "A resposta correta é '" ++ word ++ u "'!"));
                        (u "points", JInt 10) ] ]) ].

Definition any_in (msg : list N) (keywords : list (list N)) : bool :=
  existsb (contains msg) keywords.

Definition _get_fallback_chat_response (user_message word translation : list N) : json :=
  let msg_lower := lower user_message in
  if any_in msg_lower [u "frase"; u "exemplo"; u "usar"] then
    JObj [ (u "bot_response",
            JStr (u "Ótima pergunta! Aqui estão alguns exemplos de como usar '"
                  ++ translation ++ u "' em frases:"));
           (u "examples",
            JArr [ JObj [ (u "phrase_pt", JStr (u "Eu uso o " ++ translation));
                          (u "phrase_en", JStr (u "I use the " ++ word)) ];
                   JObj [ (u "phrase_pt", JStr (u "O " ++ translation ++ u " é útil"));
                          (u "phrase_en", JStr (u "The " ++ word ++ u " is useful")) ] ]);
           (u "suggestions",
            JArr [ JStr (u "Como pronunciar essa palavra?");
                   JStr (u "Me conte uma curiosidade!");
                   JStr (u "Tem outras palavras parecidas?") ]);
           (key_time, JInt 0) ]
  else if any_in msg_lower [u "pronuncia"; u "como fala"; u "pronúncia"] then
    JObj [ (u "bot_response",
            JStr (u "'" ++ word ++ u "' se pronuncia de forma bem parecida com está escrito! Clique no botão de áudio para ouvir a pronúncia correta. 🔊"));
           (u "examples", JArr []);
           (u "suggestions",
            JArr [ JStr (u "Como usar em uma frase?");
                   JStr (u "Qual a diferença entre palavras similares?");
                   JStr (u "Me conte uma curiosidade!") ]);
           (key_time, JInt 0) ]
  else
    JObj [ (u "bot_response",
            JStr (u "Interessante! '" ++ word ++ u "' (" ++ translation
                  ++ u ") é uma palavra muito útil em inglês. O que mais você gostaria de saber sobre ela?"));
           (u "examples", JArr []);
           (u "suggestions",
            JArr [ JStr (u "Como usar em uma frase?");
                   JStr (u "Como se pronuncia?");
                   JStr (u "Me conte uma curiosidade!") ]);
           (key_time, JInt 0) ].

Definition vocab (en pt : string) : list (list N * list N) :=
  [(u "en", u en); (u "pt", u pt)].

Definition related_vocab : list (list N * list (list (list N * list N))) :=
  [ (u "sofa", [vocab "cushion" "almofada"; vocab "armrest" "braço"; vocab "fabric" "tecido"]);
    (u "table", [vocab "chair" "cadeira"; vocab "tablecloth" "toalha de mesa";
                 vocab "surface" "superfície"]);
    (u "tv", [vocab "remote" "controle"; vocab "screen" "tela"; vocab "button" "botão"]) ].

(** [d.get(k, default)]. *)
Fixpoint get_default {V} (d : list (list N * V)) (k : list N) (default : V) : V :=
  match d with
  | [] => default
  | (k', v) :: r => if str_eqb k k' then v else get_default r k default
  end.

(** [_get_fallback_game]. Indexing a list or a string and looking a key up
    are the operations of the body that can raise; they are kept as such. *)
Definition _get_fallback_game (game_type word translation : list N) : outcome json :=
  let related_words :=
    get_default related_vocab (lower word)
      [vocab "part" "parte"; vocab "use" "usar"; vocab "object" "objeto"] in
  related_word ← first related_words;
  if str_eqb game_type (u "guess_word") then
    en ← getitem related_word (u "en");
    pt ← getitem related_word (u "pt");
    pt' ← getitem related_word (u "pt");
    mret (JObj [ (u "game_type", JStr (u "guess_word"));
                 (u "word_to_guess", JStr en);
                 (u "translation", JStr pt);
                 (u "hints",
                  JArr [ JStr (u "É algo relacionado ao " ++ translation);
                         JStr (u "Você encontra perto ou em um " ++ translation);
                         JStr (u "Em português chamamos de " ++ pt') ]);
                 (u "max_attempts", JInt 3);
                 (u "category", JStr (u "Relacionado a " ++ translation));
                 (u "difficulty", JStr (u "easy"));
                 (key_time, JInt 0) ])
  else if str_eqb game_type (u "anagram") then
    en ← getitem related_word (u "en");
    pt ← getitem related_word (u "pt");
    en' ← getitem related_word (u "en");
    mret (JObj [ (u "game_type", JStr (u "anagram"));
                 (u "word", JStr en);
                 (u "translation", JStr pt);
                 (u "scrambled", JStr (rev en'));
                 (u "hint", JStr (u "Relacionado ao " ++ translation));
                 (u "category", JStr (u "Relacionado a " ++ translation));
                 (u "difficulty", JStr (u "easy"));
                 (key_time, JInt 0) ])
  else if str_eqb game_type (u "quick_quiz") then
    mret (JObj [ (u "game_type", JStr (u "quick_quiz"));
                 (u "questions",
                  JArr [ JObj [ (u "question",
                                 JStr (u "Como se diz " ++ translation ++ u " em inglês?"));
                                (u "options",
                                 JArr [JStr word; JStr (u "other1"); JStr (u "other2");
                                       JStr (u "other3")]);
                                (u "correct_answer", JStr word);
                                (u "translation", JStr translation) ] ]);
                 (u "time_per_question", JInt 10);
                 (u "category", JStr (u "Vocabulário de " ++ translation));
                 (u "difficulty", JStr (u "easy"));
                 (key_time, JInt 0) ])
  else if str_eqb game_type (u "missing_letters") then
    en ← getitem related_word (u "en");
    pt ← getitem related_word (u "pt");
    en1 ← getitem related_word (u "en");
    c0 ← first en1;
    en2 ← getitem related_word (u "en");
    en3 ← getitem related_word (u "en");
    cl ← last_item en3;
    en4 ← getitem related_word (u "en");
    mret (JObj [ (u "game_type", JStr (u "missing_letters"));
                 (u "word", JStr en);
                 (u "translation", JStr pt);
                 (u "pattern", JStr ([c0] ++ repeat 95 (length en2 - 2) ++ [cl]));
                 (u "hint", JStr (u "Relacionado ao " ++ translation));
                 (u "missing_letters",
                  JArr (List.map (fun c => JStr [c]) (take (length en4 - 2) (drop 1 en4))));
                 (u "category", JStr (u "Relacionado a " ++ translation));
                 (u "difficulty", JStr (u "easy"));
                 (key_time, JInt 0) ])
  else
    mret (JObj [ (u "game_type", JStr game_type);
                 (u "error", JStr (u "Game type not supported"));
                 (key_time, JInt 0) ]).

(** *** The generation entry points

    Each takes, besides the arguments of the source, the [reply] of the
    backend to its prompt and [elapsed], the milliseconds read off the clock
    for [generation_time_ms]. The prompt only reaches the backend; of its
    construction the model keeps what can raise. *)

Definition generate_intro (word translation room environment : list N)
    (user_age : option Z) (r : reply) (elapsed : Z) : json :=
  match r with
  | Reply response =>
    let intro_text := strip response in
    let intro_text := _fix_portuguese_grammar intro_text translation in
    JObj [ (u "intro_text", JStr intro_text); (key_time, JInt elapsed) ]
  | Failed | FailedJSONDecode => intro_fallback translation room elapsed
  end.

(** [complexity_guide[difficulty]], evaluated while the prompt is built,
    before the [try]. *)
Definition complexity_guide (difficulty : Z) : outcome (list N) :=
  if (difficulty =? 1)%Z then
    Return (u "Frases simples e curtas (5-7 palavras). Use: 'I', 'you', present simple")
  else if (difficulty =? 2)%Z then
    Return (u "Frases médias (8-12 palavras). Use: present continuous, 'can', 'have to'")
  else if (difficulty =? 3)%Z then
    Return (u "Frases completas (13-18 palavras). Use: present perfect, conditionals, relative clauses")
  else Raise KeyError.

Definition generate_contextual_phrases (word translation : list N)
    (difficulty num_phrases : Z) (r : reply) (elapsed : Z) : outcome json :=
  _ ← complexity_guide difficulty;
  match r with
  | Reply response =>
    match loads (strip response) with
    | Some phrases => Return (JObj [ (u "phrases", phrases); (key_time, JInt elapsed) ])
    | None => Return (_get_fallback_phrases word translation difficulty num_phrases)
    end
  | Failed | FailedJSONDecode =>
    Return (_get_fallback_phrases word translation difficulty num_phrases)
  end.

Definition generate_word_breakdown (word : list N) (r : reply) : json :=
  match r with
  | Reply response =>
    match loads (strip response) with
    | Some result => result
    | None => word_breakdown_fallback word
    end
  | Failed | FailedJSONDecode => word_breakdown_fallback word
  end.

(** [s.split('\n')]. *)
Fixpoint split_lines (s : list N) : list (list N) :=
  match s with
  | [] => [[]]
  | c :: r =>
    if c =? 10 then [] :: split_lines r
    else match split_lines r with
         | l :: ls => (c :: l) :: ls
         | [] => [[c]]
         end
  end.

Definition generate_fun_facts (word translation : list N) (num_facts : Z)
    (r : reply) (elapsed : Z) : json :=
  match r with
  | Reply response =>
    let facts :=
      List.map strip
        (List.filter
           (fun line => negb (str_eqb (strip line) []) && negb (startswith (strip line) (u "#")))
           (split_lines (strip response))) in
    JObj [ (u "fun_facts", JArr (List.map JStr (slice_to num_facts facts)));
           (key_time, JInt elapsed) ]
  | Failed | FailedJSONDecode => fun_facts_fallback word translation
  end.

Definition generate_quiz (word translation : list N) (difficulty : Z) (r : reply) : json :=
  match r with
  | Reply response =>
    match loads (strip response) with
    | Some quiz => quiz
    | None => quiz_fallback word translation difficulty
    end
  | Failed | FailedJSONDecode => quiz_fallback word translation difficulty
  end.

(** [result[k] = v] on what [json.loads] returned: only a [dict] accepts
    it; on any other value the assignment raises [TypeError]. *)
Definition setitem (result : json) (k : list N) (v : json) : option json :=
  match result with
  | JObj d => Some (JObj (dict_set k v d))
  | _ => None
  end.

(** [chat_with_object]. Its handler of [json.JSONDecodeError] logs the raw
    [response]: when it was the call to the backend that raised this
    exception, [response] was never assigned, reading it raises
    [UnboundLocalError], and no handler of the same [try] catches what a
    handler raises. *)
Definition chat_with_object (word translation user_message : list N)
    (r : reply) (elapsed : Z) : outcome json :=
  match r with
  | Reply response =>
    let clean_response := _clean_json_response response in
    match loads clean_response with
    | Some result =>
      match setitem result key_time (JInt elapsed) with
      | Some result => Return result
      | None => Return (_get_fallback_chat_response user_message word translation)
      end
    | None => Return (_get_fallback_chat_response user_message word translation)
    end
  | Failed => Return (_get_fallback_chat_response user_message word translation)
  | FailedJSONDecode => Raise UnboundLocalError
  end.

Definition known_game_type (game_type : list N) : bool :=
  str_eqb game_type (u "guess_word") || str_eqb game_type (u "anagram")
  || str_eqb game_type (u "quick_quiz") || str_eqb game_type (u "missing_letters").

Definition generate_game (game_type word translation difficulty : list N)
    (r : reply) (elapsed : Z) : outcome json :=
  if negb (known_game_type game_type) then _get_fallback_game game_type word translation
  else
    match r with
    | Reply response =>
      let clean_response := _clean_json_response response in
      match loads clean_response with
      | Some result =>
        match setitem result (u "game_type") (JStr game_type) with
        | Some result =>
          match setitem result (u "difficulty") (JStr difficulty) with
          | Some result =>
            match setitem result key_time (JInt elapsed) with
            | Some result => Return result
            | None => _get_fallback_game game_type word translation
            end
          | None => _get_fallback_game game_type word translation
          end
        | None => _get_fallback_game game_type word translation
        end
      | None => _get_fallback_game game_type word translation
      end
    | Failed | FailedJSONDecode => _get_fallback_game game_type word translation
    end.

End AIService.

Import AIService.

(* ===================================================================== *)
(** ** The audio cache on disk *)
(* ===================================================================== *)

Module Disk.

(** A [Path] built as [cache_dir / name]: the directory as it was given and
    the file name. *)
Definition path : Type := list N * list N.

Definition name (p : path) : list N := snd p.

(** The world the speech services act on: the files (their bytes) and the
    number of times a speech engine was run. *)
Record world := {
  files : gmap (list N * list N) (list N);
  invocations : nat
}.

(** [cache_path.exists() and cache_path.stat().st_size > 0]. *)
Definition _is_cached (w : world) (cache_path : path) : bool :=
  match files w !! cache_path with
  | Some bytes => (0 <? length bytes)%nat
  | None => false
  end.

(** [cache_path.stat().st_size]; [None] when the file does not exist
    ([FileNotFoundError]). *)
Definition st_size (w : world) (cache_path : path) : option nat :=
  length <$> files w !! cache_path.

(** One run of a speech engine told to write its audio to a file: what it
    left in that file, if it created or rewrote it, and how it ended. *)
Inductive ending :=
| Completed            (* returned; for a subprocess, return code 0 *)
| ExitFailure          (* subprocess: non-zero return code *)
| TimedOut             (* subprocess: [TimeoutExpired] *)
| Crashed.             (* any other exception *)

Record engine_run := {
  written : option (list N);
  how : ending
}.

Definition run_engine (run : engine_run) (output_path : path) (w : world) : world :=
  {| files := match written run with
              | Some bytes => <[output_path := bytes]> (files w)
              | None => files w
              end;
     invocations := S (invocations w) |}.

(** A file name matches the pattern [prefix*suffix] (one [*]; names are
    compared as they are, as on a POSIX file system). *)
Definition glob_match (prefix suffix name : list N) : bool :=
  startswith name prefix && endswith name suffix
  && (length prefix + length suffix <=? length name)%nat.

(** [directory.glob("prefix*suffix")]: the files of [directory] whose name
    matches the pattern. *)
Definition glob (w : world) (directory prefix suffix : list N)
    : gmap (list N * list N) (list N) :=
  filter (fun entry => fst (fst entry) = directory
                       /\ glob_match prefix suffix (snd (fst entry)) = true)
         (files w).

(** [sum(f.stat().st_size for f in files)]. *)
Definition sum_sizes (listed : gmap (list N * list N) (list N)) : nat :=
  map_fold (fun _ bytes total => (length bytes + total)%nat) 0%nat listed.

(** [file.unlink()] for each of the files listed. *)
Definition unlink_all (listed : gmap (list N * list N) (list N)) (w : world) : world :=
  {| files := files w ∖ listed; invocations := invocations w |}.

(** [round(total_size / (1024 * 1024), 2)]. The quotient of a size (below
    2^53) by 2^20 is exact in binary floating point; [round] then takes the
    nearest decimal of two places, the even one at a tie, and returns the
    float nearest to it. [hundredths_mb] is that decimal, in hundredths. *)
Definition hundredths_mb (total_size : nat) : Z :=
  let n := (Z.of_nat total_size * 100)%Z in
  let q := (n / 1048576)%Z in
  let r := (n mod 1048576)%Z in
  if (r <? 524288)%Z then q
  else if (524288 <? r)%Z then (q + 1)%Z
  else if Z.even q then q else (q + 1)%Z.

Definition round_mb (total_size : nat) : float :=
  (PrimFloat.of_uint63 (Uint63.of_Z (hundredths_mb total_size)) / 100)%float.

(** [total_size / (1024 * 1024)], not rounded. *)
Definition exact_mb (total_size : nat) : float :=
  (PrimFloat.of_uint63 (Uint63.of_Z (Z.of_nat total_size)) / 0x1p+20)%float.

End Disk.

Import Disk.

(* ===================================================================== *)
(** ** [EdgeTTSService] ([backend/app/services/edge_tts_service.py]) *)
(* ===================================================================== *)

Module EdgeTTS.

Record EdgeTTSService := {
  cache_dir : list N;
  default_voices : list (list N * list N)
}.

(** [EdgeTTSService(cache_dir)]; [mkdir_ok] tells whether
    [self.cache_dir.mkdir(parents=True, exist_ok=True)] returned. *)
Definition __init__ (cache_dir : list N) (mkdir_ok : bool) : outcome EdgeTTSService :=
  if mkdir_ok then
    Return {| cache_dir := cache_dir;
              default_voices :=
                [ (u "pt-BR", u "pt-BR-FranciscaNeural");
                  (u "en-US", u "en-US-AvaNeural");
                  (u "en-GB", u "en-GB-SoniaNeural");
                  (u "es-ES", u "es-ES-ElviraNeural") ] |}
  else Raise OSError.

(** The text whose digest names the cache file: [f"{text}_{voice}_{rate}"]. *)
Definition key_text (text voice rate : list N) : list N :=
  text ++ u "_" ++ voice ++ u "_" ++ rate.

Definition _get_cache_path (self : EdgeTTSService) (text voice rate : list N) : path :=
  let text_hash := MD5.hexdigest (encode (key_text text voice rate)) in
  (cache_dir self, u "edge_" ++ text_hash ++ u ".mp3").

(** [_generate_async]: the engine writes to [output_path]; the result tells
    whether a non-empty file is there, [False] when the engine raised. *)
Definition _generate_async (run : engine_run) (output_path : path) (w : world) : bool * world :=
  let w' := run_engine run output_path w in
  match how run with
  | Completed => (_is_cached w' output_path, w')
  | _ => (false, w')
  end.

Record speech := {
  audio_path : path;
  audio_url : list N;
  text : list N;
  voice : list N;
  language : list N;
  cached : bool;
  generation_time_ms : Z;
  file_size : nat;
  model : list N
}.

Definition rate_map : list (list N * list N) :=
  [ (u "slow", u "-20%"); (u "normal", u "+0%"); (u "fast", u "+20%") ].

Definition resolve_voice (self : EdgeTTSService) (language : list N) (voice : option (list N)) : list N :=
  match voice with
  | None => get_default (default_voices self) language (u "pt-BR-FranciscaNeural")
  | Some v => v
  end.

Definition resolve_rate (speed : list N) : list N := get_default rate_map speed (u "+0%").

(** [generate_speech]. [available] is the module constant
    [EDGE_TTS_AVAILABLE]; [run] is what the engine does if it is started;
    [elapsed] the milliseconds read off the clock. The result [None] is
    the [None] of the source. This is the body for a key text that
    [str.encode()] accepts; [generate_speech_call] below adds the exception
    of the other texts. *)
Definition generate_speech (available : bool) (self : EdgeTTSService)
    (text language : list N) (voice : option (list N)) (speed : list N)
    (use_cache : bool) (run : engine_run) (elapsed : Z) (w : world)
    : option speech * world :=
  if negb available then (None, w)
  else
    let voice := resolve_voice self language voice in
    let rate := resolve_rate speed in
    let cache_path := _get_cache_path self text voice rate in
    let result (cached : bool) (w : world) : option speech :=
      size ← st_size w cache_path;
      Some {| audio_path := cache_path;
              audio_url := u "/audio_cache_pt/" ++ name cache_path;
              text := text; voice := voice; language := language;
              cached := cached; generation_time_ms := elapsed;
              file_size := size; model := u "edge-tts-azure-neural" |} in
    if use_cache && _is_cached w cache_path then (result true w, w)
    else
      let '(success, w') := _generate_async run cache_path w in
      if negb success || negb (_is_cached w' cache_path) then (None, w')
      else (result false w', w').

(** A call of [generate_speech] as its caller sees it. [_get_cache_path]
    runs before the [try] (and after the test of [EDGE_TTS_AVAILABLE]) and
    encodes the key text: when that holds a lone surrogate, in the text or
    in the voice, [UnicodeEncodeError] leaves the call, nothing being
    looked up or run. *)
Definition generate_speech_call (available : bool) (self : EdgeTTSService)
    (text language : list N) (voice : option (list N)) (speed : list N)
    (use_cache : bool) (run : engine_run) (elapsed : Z) (w : world)
    : outcome (option speech) * world :=
  if negb available then (Return None, w)
  else if encodable (key_text text (resolve_voice self language voice) (resolve_rate speed))
  then
    let '(result, w') :=
      generate_speech available self text language voice speed use_cache run elapsed w in
    (Return result, w')
  else (Raise UnicodeEncodeError, w).

(** The module global [_edge_tts_instance] and the objects it may refer
    to: a reference is the position of the object among those created. *)
Record globals := {
  objects : list EdgeTTSService;
  _edge_tts_instance : option nat
}.

Definition get_edge_tts (cache_dir : list N) (mkdir_ok : bool) (g : globals)
    : outcome nat * globals :=
  match _edge_tts_instance g with
  | None =>
    match __init__ cache_dir mkdir_ok with
    | Return service =>
      let ref := length (objects g) in
      (Return ref, {| objects := objects g ++ [service]; _edge_tts_instance := Some ref |})
    | Raise e => (Raise e, g)
    end
  | Some ref => (Return ref, g)
  end.

(** [clear_cache]: the dictionary it returns and the world it leaves. (In
    this world listing, [stat] and [unlink] do not fail, so the [except]
    branch is not taken.) *)
Record cleared := {
  files_deleted : nat;
  space_freed_mb : float
}.

Definition clear_cache (self : EdgeTTSService) (w : world) : cleared * world :=
  let listed := glob w (cache_dir self) (u "edge_") (u ".mp3") in
  let total_size := sum_sizes listed in
  ({| files_deleted := size listed; space_freed_mb := round_mb total_size |},
   unlink_all listed w).

(** [get_cache_stats]; the key [cache_dir] is [stats_cache_dir] here, the
    key [model] is [stats_model]. *)
Record stats := {
  stats_cache_dir : list N;
  total_files : nat;
  total_size_mb : float;
  stats_model : list N;
  tts_available : bool
}.

Definition get_cache_stats (available : bool) (self : EdgeTTSService) (w : world) : stats :=
  let listed := glob w (cache_dir self) (u "edge_") (u ".mp3") in
  let total_size := sum_sizes listed in
  {| stats_cache_dir := cache_dir self;
     total_files := size listed;
     total_size_mb := round_mb total_size;
     stats_model := u "edge-tts-azure-neural";
     tts_available := available |}.

(** [list_voices]. [catalogue] is what [edge_tts.list_voices()] returned
    ([None] when it raised): a list of dictionaries from strings to
    strings. A key that is missing raises [KeyError], which the [except]
    turns into the empty list. *)
Fixpoint select_voices (language : list N) (voices : list (list (list N * list N)))
    : outcome (list (list (list N * list N))) :=
  match voices with
  | [] => Return []
  | v :: rest =>
    locale ← getitem v (u "Locale");
    rest ← select_voices language rest;
    mret (if startswith locale language then v :: rest else rest)
  end.

Definition describe_voice (v : list (list N * list N)) : outcome (list (list N * list N)) :=
  name ← getitem v (u "ShortName");
  gender ← getitem v (u "Gender");
  locale ← getitem v (u "Locale");
  default ← getitem v (u "ShortName");
  mret [ (u "name", name); (u "gender", gender); (u "locale", locale);
         (u "description", get_default v (u "FriendlyName") default) ].

Fixpoint describe_voices (voices : list (list (list N * list N)))
    : outcome (list (list (list N * list N))) :=
  match voices with
  | [] => Return []
  | v :: rest =>
    d ← describe_voice v;
    rest ← describe_voices rest;
    mret (d :: rest)
  end.

Definition list_voices (available : bool)
    (catalogue : option (list (list (list N * list N)))) (language : option (list N))
    : list (list (list N * list N)) :=
  if negb available then []
  else
    match catalogue with
    | None => []
    | Some voices =>
      match (voices ← match language with
                      | Some (c :: l) => select_voices (c :: l) voices
                      | _ => Return voices
                      end;
             describe_voices voices) with
      | Return result => result
      | Raise _ => []
      end
    end.

(** [speak_portuguese]: the singleton, asked for with the default
    directory, generates the speech in Brazilian Portuguese. An exception of
    [get_edge_tts] leaves the call. (A reference denotes an object: the case
    of a reference without one does not arise. The text is one that can be
    encoded, as for [generate_speech].) *)
Definition speak_portuguese (available : bool) (text speed : list N) (mkdir_ok : bool)
    (run : engine_run) (elapsed : Z) (g : globals) (w : world)
    : outcome (option speech) * globals * world :=
  match get_edge_tts (u "./audio_cache_pt") mkdir_ok g with
  | (Return ref, g') =>
    match objects g' !! ref with
    | Some tts =>
      let '(result, w') :=
        generate_speech available tts text (u "pt-BR") None speed true run elapsed w in
      (Return result, g', w')
    | None => (Return None, g', w)
    end
  | (Raise e, g') => (Raise e, g', w)
  end.

End EdgeTTS.

(* ===================================================================== *)
(** ** [PiperTTSService] ([backend/app/services/piper_tts_service.py]) *)
(* ===================================================================== *)

Module PiperTTS.

(** The fields [generate_speech] reads. ([config_path] is set next to
    [model_path] and never read.) *)
Record PiperTTSService := {
  cache_dir : list N;
  piper_executable : option (list N);
  model_path : option (list N);
  model_name : list N
}.

(** [download_model]: [models] is what
    [models_dir.glob("pt_BR-*.onnx")] lists. *)
Definition download_model (self : PiperTTSService) (models : list (list N))
    : bool * PiperTTSService :=
  match models with
  | m :: _ =>
    (true, {| cache_dir := cache_dir self; piper_executable := piper_executable self;
              model_path := Some m; model_name := model_name self |})
  | [] => (false, self)
  end.

(** [speed] is a float, of which the key uses the text Python prints for
    it ([speed_text]). *)
Definition _get_cache_path (self : PiperTTSService) (text speed_text : list N) : path :=
  let text_hash := MD5.hexdigest (encode (text ++ u "_" ++ speed_text)) in
  (cache_dir self, u "piper_pt_" ++ text_hash ++ u ".wav").

Record speech := {
  audio_path : path;
  audio_url : list N;
  text : list N;
  cached : bool;
  generation_time_ms : Z;
  model : list N;
  file_size : option nat
}.

(** [generate_speech], for a speed other than zero and a text that can be
    encoded. (With a speed of zero [1.0 / speed] raises inside the [try] on a
    cache miss, and [None] is returned without a run; on a text with a lone
    surrogate [_get_cache_path] raises before the [try].) *)
Definition generate_speech (self : PiperTTSService) (text speed_text : list N)
    (use_cache : bool) (models : list (list N)) (run : engine_run) (elapsed : Z)
    (w : world) : option speech * PiperTTSService * world :=
  match piper_executable self with
  | None => (None, self, w)
  | Some _ =>
    let '(ready, self) :=
      match model_path self with
      | None => download_model self models
      | Some _ => (true, self)
      end in
    if negb ready then (None, self, w)
    else
      let cache_path := _get_cache_path self text speed_text in
      let result (cached : bool) (size : option nat) : speech :=
        {| audio_path := cache_path;
           audio_url := u "/audio_cache_pt/" ++ name cache_path;
           text := text; cached := cached; generation_time_ms := elapsed;
           model := model_name self; file_size := size |} in
      if use_cache && _is_cached w cache_path then (Some (result true None), self, w)
      else
        let w' := run_engine run cache_path w in
        match how run with
        | Completed =>
          match st_size w' cache_path with
          | Some size => (Some (result false (Some size)), self, w')
          | None => (None, self, w')
          end
        | _ => (None, self, w')
        end
  end.

(** [_find_piper_executable]. [exists_] tells which paths exist;
    [version] is what running [piper --version] did. *)
Inductive version_call :=
| NotFound                 (* [FileNotFoundError] *)
| Exited (returncode : Z)
| OtherError.              (* any other exception, which leaves the call *)

Definition possible_paths : list (list N) :=
  [ u "./piper/piper.exe"; u "./piper/piper"; u "C:/piper/piper.exe";
    u "/usr/local/bin/piper" ].

Definition _find_piper_executable (exists_ : list N -> bool) (version : version_call)
    : outcome (option (list N)) :=
  match List.find exists_ possible_paths with
  | Some p => Return (Some p)
  | None =>
    match version with
    | Exited returncode => Return (if (returncode =? 0)%Z then Some (u "piper") else None)
    | NotFound => Return None
    | OtherError => Raise OSError
    end
  end.

Definition __init__ (cache_dir : list N) (mkdir_ok : bool) (exists_ : list N -> bool)
    (version : version_call) : outcome PiperTTSService :=
  if mkdir_ok then
    executable ← _find_piper_executable exists_ version;
    mret {| cache_dir := cache_dir; piper_executable := executable;
            model_path := None; model_name := u "pt_BR-faber-medium" |}
  else Raise OSError.

(** [clear_cache] and [get_cache_stats], as for the Edge service; the
    pattern is [*.wav], and the space freed is not rounded. *)
Record cleared := {
  files_deleted : nat;
  space_freed_mb : float
}.

Definition clear_cache (self : PiperTTSService) (w : world) : cleared * world :=
  let listed := glob w (cache_dir self) [] (u ".wav") in
  let total_size := sum_sizes listed in
  ({| files_deleted := size listed; space_freed_mb := exact_mb total_size |},
   unlink_all listed w).

Record stats := {
  stats_cache_dir : list N;
  total_files : nat;
  total_size_mb : float;
  stats_model : list N;
  piper_available : bool;
  model_available : bool
}.

Definition get_cache_stats (self : PiperTTSService) (w : world) : stats :=
  let listed := glob w (cache_dir self) [] (u ".wav") in
  let total_size := sum_sizes listed in
  {| stats_cache_dir := cache_dir self;
     total_files := size listed;
     total_size_mb := round_mb total_size;
     stats_model := model_name self;
     piper_available := bool_decide (piper_executable self <> None);
     model_available := bool_decide (model_path self <> None) |}.

End PiperTTS.

(* ===================================================================== *)
(** ** [BrazilianTTSService] ([backend/app/services/brazilian_tts_service.py]) *)
(* ===================================================================== *)

Module BrazilianTTS.

Record BrazilianTTSService := {
  cache_dir : list N;
  tts : option nat;
  model_name : list N
}.

(** [_initialize_tts]: the Edge service is asked for with this service's
    own cache directory; an exception leaves [tts] at [None]. *)
Definition _initialize_tts (self : BrazilianTTSService) (edge_mkdir_ok : bool)
    (g : EdgeTTS.globals) : BrazilianTTSService * EdgeTTS.globals :=
  match EdgeTTS.get_edge_tts (cache_dir self) edge_mkdir_ok g with
  | (Return ref, g') =>
    ({| cache_dir := cache_dir self; tts := Some ref; model_name := model_name self |}, g')
  | (Raise _, g') =>
    ({| cache_dir := cache_dir self; tts := None; model_name := model_name self |}, g')
  end.

Definition __init__ (available : bool) (cache_dir : list N) (mkdir_ok edge_mkdir_ok : bool)
    (g : EdgeTTS.globals) : outcome BrazilianTTSService * EdgeTTS.globals :=
  if mkdir_ok then
    let self := {| cache_dir := cache_dir; tts := None;
                   model_name := u "edge-tts-azure-neural" |} in
    if available then
      let '(self, g') := _initialize_tts self edge_mkdir_ok g in (Return self, g')
    else (Return self, g)
  else (Raise OSError, g).

(** The name of the speed the Edge service is called with. *)
Definition speed_name (speed : float) : list N :=
  if (speed <=? 0x1.b333333333333p-1)%float then u "slow"
  else if (0x1.2666666666666p+0 <=? speed)%float then u "fast"
  else u "normal".

(** [generate_speech]: the call is passed on to the Edge service [tts]
    refers to, among the objects of [g]. (A reference denotes an object: the
    case of a reference without one does not arise. The text is one that can
    be encoded, as for [generate_speech] of the Edge service.) *)
Definition generate_speech (available : bool) (self : BrazilianTTSService)
    (text : list N) (speed : float) (use_cache : bool) (g : EdgeTTS.globals)
    (run : engine_run) (elapsed : Z) (w : world) : option EdgeTTS.speech * world :=
  if negb available then (None, w)
  else
    match tts self with
    | None => (None, w)
    | Some ref =>
      match EdgeTTS.objects g !! ref with
      | Some edge =>
        EdgeTTS.generate_speech available edge text (u "pt-BR")
          (Some (u "pt-BR-FranciscaNeural")) (speed_name speed) use_cache run elapsed w
      | None => (None, w)
      end
    end.

(** [clear_cache] and [get_cache_stats]: those of the Edge service when
    there is one, else the same listing over this service's own directory. *)
Definition clear_cache (self : BrazilianTTSService) (g : EdgeTTS.globals) (w : world)
    : EdgeTTS.cleared * world :=
  match tts self ≫= (fun ref => EdgeTTS.objects g !! ref) with
  | Some edge => EdgeTTS.clear_cache edge w
  | None =>
    let listed := glob w (cache_dir self) (u "edge_") (u ".mp3") in
    let total_size := sum_sizes listed in
    ({| EdgeTTS.files_deleted := size listed;
        EdgeTTS.space_freed_mb := round_mb total_size |},
     unlink_all listed w)
  end.

Definition get_cache_stats (available : bool) (self : BrazilianTTSService)
    (g : EdgeTTS.globals) (w : world) : EdgeTTS.stats :=
  match tts self ≫= (fun ref => EdgeTTS.objects g !! ref) with
  | Some edge => EdgeTTS.get_cache_stats available edge w
  | None =>
    let listed := glob w (cache_dir self) (u "edge_") (u ".mp3") in
    let total_size := sum_sizes listed in
    {| EdgeTTS.stats_cache_dir := cache_dir self;
       EdgeTTS.total_files := size listed;
       EdgeTTS.total_size_mb := round_mb total_size;
       EdgeTTS.stats_model := model_name self;
       EdgeTTS.tts_available := bool_decide (tts self <> None) |}
  end.

End BrazilianTTS.

(* ===================================================================== *)
(** ** Definitions used in the statements *)
(* ===================================================================== *)

(** A string that does not begin with white space. *)
Definition lclean (s : list N) : Prop :=
  match s with
  | [] => True
  | c :: _ => isspace c = false
  end.

(** A string [strip] leaves as it is. *)
Definition stripped (s : list N) : Prop := lstrip s = s /\ rstrip s = s.

(** The two removals between the trimmings. *)
Definition unfence (y : list N) : list N :=
  let y1 := if startswith y fence_json then slice_from 7 y
            else if startswith y fence then slice_from 3 y
            else y in
  if endswith y1 fence then slice_to_minus 3 y1 else y1.

(** The words whose upper-cased form is taken literally as the replacement
    (no backslash, which [re] would read as an escape). *)
Definition plain_word (word : list N) : bool :=
  latin1 word && forallb (fun c => negb (c =? 92)) word.

(** The texts on which [fold_case] is the case folding of [re] for the
    patterns of a [plain_word]: all but those with one of the six code
    points above Latin-1 that [re.IGNORECASE] relates to a Latin-1 letter
    (U+0130 and U+0131 to [i], U+017F to [s], U+1E9E to [ß], U+212A to [k],
    U+212B to [å]). Any other character, be it a letter of another
    alphabet, white space or an emoji, is in. *)
Definition folds_exactly (text : list N) : bool :=
  forallb (fun c => negb ((c =? 304) || (c =? 305) || (c =? 383)
                          || (c =? 7838) || (c =? 8490) || (c =? 8491)))
          text.

(** *** Grammar correction: patterns, matches, safe words *)

Import Re.

(** The texts a pattern matches, whatever the case of their letters. *)
Inductive lang : regex -> list N -> Prop :=
| lang_eps : lang Eps []
| lang_chr c d : ieq c d = true -> lang (Chr c) [d]
| lang_space d : isspace d = true -> lang Space [d]
| lang_seq a b m1 m2 : lang a m1 -> lang b m2 -> lang (Seq a b) (m1 ++ m2)
| lang_alt_l a b m : lang a m -> lang (Alt a b) m
| lang_alt_r a b m : lang b m -> lang (Alt a b) m
| lang_opt_none a : lang (Opt a) []
| lang_opt_some a m : lang a m -> lang (Opt a) m
| lang_plus_one a m : lang a m -> lang (Plus a) m
| lang_plus_more a m1 m2 :
    lang a m1 -> m1 <> [] -> lang (Plus a) m2 -> lang (Plus a) (m1 ++ m2).

(** A pattern that cannot match the empty text. *)
Fixpoint nonnull (r : regex) : bool :=
  match r with
  | Eps => false
  | Chr _ => true
  | Space => true
  | Seq a b => nonnull a || nonnull b
  | Alt a b => nonnull a && nonnull b
  | Opt _ => false
  | Plus a => nonnull a
  end.

(** A continuation of the matcher that returns a suffix of what it is
    given, shorter by [d] at least. *)
Definition shrinking (d : nat) (k : list N -> option (list N)) : Prop :=
  forall s x, k s = Some x -> (length x + d <= length s)%nat.

(** A continuation of the matcher that accepts [s]. *)
Definition accepts (k : list N -> option (list N)) (s : list N) : Prop :=
  exists x, k s = Some x.

(** A match of [r] starts at the head of [s]. *)
Definition hit (r : regex) (s : list N) : Prop := exists n, match_at r s = Some (S n).

(** No match of [r] starts anywhere in [x]. *)
Definition unhit (r : regex) (x : list N) : Prop :=
  forall x1 x2, x = x1 ++ x2 -> ~ hit r x2.

(** The characters a pattern's [E] and [S] match. *)
Definition elike (c : N) : bool := ieq 69 c.
Definition slike (c : N) : bool := ieq 115 c.

(** No [E] of [W] can begin [ESS]: none is last, or followed by a last
    [S], or followed by [SS]. *)
Fixpoint no_ess (W : list N) : bool :=
  match W with
  | [] => true
  | c :: r =>
    (negb (elike c)
     || match r with
        | [] => false
        | c2 :: r2 =>
          negb (slike c2) || match r2 with [] => false | c3 :: _ => negb (slike c3) end
        end)
    && no_ess r
  end.

(** [correct_article], as a character. *)
Definition article (fem : bool) : N := if fem then 97 else 111.

(** The words for which correction is shown idempotent on every text: the
    upper-cased word is not empty, does not begin with the letter of
    [correct_article], and none of its [E]s can begin [ESS] (the start of
    both demonstratives). *)
Definition safe_word (word : list N) : bool :=
  match upper word with
  | [] => false
  | c :: _ => negb (ieq c (article (endswith (lower word) (u "a"))))
  end
  && no_ess (upper word).

(** The five patterns of [patterns_to_fix] and their common replacement, as
    functions of [is_feminine] and of the upper-cased word. *)
Definition rule_patterns (fem : bool) (W : list N) : list regex :=
  let correct_article := if fem then u "a" else u "o" in
  let wrong_demonstrative := if fem then u "Esse é" else u "Essa é" in
  let ws := Plus Space in
  let uma := Seq (lit (u "um")) (Opt (Chr 97)) in
  let essa_esse := Alt (lit (u "Essa")) (lit (u "Esse")) in
  [ seqs [lit wrong_demonstrative; ws; lit correct_article; ws; lit W];
    seqs [lit wrong_demonstrative; ws; uma; ws; lit W];
    seqs [essa_esse; ws; lit (u "é"); ws; uma; ws; lit W];
    seqs [lit wrong_demonstrative; ws; lit W];
    seqs [essa_esse; ws; lit (u "é"); ws; lit W] ].

Definition rule_replacement (fem : bool) (W : list N) : list N :=
  (if fem then u "Essa é" else u "Esse é") ++ u " " ++ (if fem then u "a" else u "o")
  ++ u " " ++ W.

(** The part of a match before the word: it begins like [Ess], its fifth
    character is white space, and after it nothing is like [E]. *)
Definition head_shape (h : list N) : Prop :=
  exists c0 c1 c2 c3 c4 t,
    h = c0 :: c1 :: c2 :: c3 :: c4 :: t
    /\ elike c0 = true /\ slike c1 = true /\ slike c2 = true
    /\ isspace c4 = true /\ Forall (fun c => elike c = false) t.

(** The texts the rules of the table match. *)
Definition rule_match (fem : bool) (W M : list N) : Prop :=
  exists p, In p (rule_patterns fem W) /\ lang p M.

Import EdgeTTS.

(** The cache path [generate_speech] derives from a request. *)
Definition request_key (self : EdgeTTSService) (text language : list N)
    (voice : option (list N)) (speed : list N) : path :=
  _get_cache_path self text (resolve_voice self language voice) (resolve_rate speed).

(** The service as [EdgeTTSService()] builds it. *)
Definition edge_default : EdgeTTSService :=
  {| cache_dir := u "./audio_cache_pt";
     default_voices :=
       [ (u "pt-BR", u "pt-BR-FranciscaNeural");
         (u "en-US", u "en-US-AvaNeural");
         (u "en-GB", u "en-GB-SoniaNeural");
         (u "es-ES", u "es-ES-ElviraNeural") ] |}.

(** The scenario of the design document: [Hello], voice [V1], normal speed,
    on an empty cache, the engine writing three bytes. *)
Definition empty_world : world := {| files := ∅; invocations := 0 |}.
Definition three_bytes : engine_run := {| written := Some [73; 68; 51]; how := Completed |}.
Definition hello_key : path :=
  request_key edge_default (u "Hello") (u "pt-BR") (Some (u "V1")) (u "normal").
Definition hello_speech : speech :=
  {| audio_path := hello_key;
     audio_url := u "/audio_cache_pt/edge_dda67584b726f573683592c2237a4c73.mp3";
     text := u "Hello"; voice := u "V1"; language := u "pt-BR";
     cached := false; generation_time_ms := 120; file_size := 3;
     model := u "edge-tts-azure-neural" |}.

(** The Piper service with its executable and model found. *)
Definition piper_ready : PiperTTS.PiperTTSService :=
  {| PiperTTS.cache_dir := u "./audio_cache_pt";
     PiperTTS.piper_executable := Some (u "./piper/piper");
     PiperTTS.model_path := Some (u "piper_models/pt_BR-faber-medium.onnx");
     PiperTTS.model_name := u "pt_BR-faber-medium" |}.

(** A sequence of calls of [get_edge_tts], each with its argument and the
    fate of its [mkdir]: the results, and the globals at the end. *)
Fixpoint get_edge_tts_calls (calls : list (list N * bool)) (g : globals)
    : list (outcome nat) * globals :=
  match calls with
  | [] => ([], g)
  | (cache_dir, mkdir_ok) :: rest =>
    let '(r, g') := get_edge_tts cache_dir mkdir_ok g in
    let '(rs, g'') := get_edge_tts_calls rest g' in
    (r :: rs, g'')
  end.

Definition no_globals : globals := {| objects := []; _edge_tts_instance := None |}.

(** A payload inside a fenced block marked [json]. *)
Definition fenced (payload : list N) : list N :=
  fence_json ++ [10] ++ payload ++ [10] ++ fence.

(** The reply of the scenario: a fenced block whose body is not JSON. *)
Definition fenced_invalid : list N := fenced (u "[invalid").



(** *** Definitions for the further properties *)

(** ['\n'.join(lines)]. *)
Fixpoint join_lines (lines : list (list N)) : list N :=
  match lines with
  | [] => []
  | l :: rest =>
    match rest with
    | [] => l
    | _ :: _ => l ++ 10 :: join_lines rest
    end
  end.

(** [rest] begins with two characters a pattern's [S] matches. *)
Definition starts_ss (rest : list N) : bool :=
  match rest with
  | c1 :: c2 :: _ => slike c1 && slike c2
  | _ => false
  end.

(** [Ess] occurs in [text], in whatever case: the three characters every
    match of a rule begins with. *)
Fixpoint has_ess (text : list N) : bool :=
  match text with
  | [] => false
  | c0 :: rest => (elike c0 && starts_ss rest) || has_ess rest
  end.

(** The least length of a text of a pattern. *)
Fixpoint min_len (r : regex) : nat :=
  match r with
  | Eps => 0
  | Chr _ => 1
  | Space => 1
  | Seq a b => min_len a + min_len b
  | Alt a b => Nat.min (min_len a) (min_len b)
  | Opt _ => 0
  | Plus a => min_len a
  end.

(** [Essa é] or [Esse é]. *)
Definition demonstrative (fem : bool) : list N := if fem then u "Essa é" else u "Esse é".

(** [um] or [uma]. *)
Definition indefinite (a : bool) : list N := if a then u "uma" else u "um".

(** [b] is [a], but for the case of its letters. *)
Fixpoint ieq_str (a b : list N) : bool :=
  match a, b with
  | [], [] => true
  | c :: a', d :: b' => ieq c d && ieq_str a' b'
  | _, _ => false
  end.

(** A payload inside a fenced block without a language mark. *)
Definition fenced_bare (payload : list N) : list N :=
  fence ++ [10] ++ payload ++ [10] ++ fence.

(** The singleton in place, built with the default directory. *)
Definition edge_singleton : globals :=
  {| objects := [edge_default]; _edge_tts_instance := Some 0%nat |}.

(** A Brazilian service with a directory of its own, referring to the
    singleton. *)
Definition brazilian_example : BrazilianTTS.BrazilianTTSService :=
  {| BrazilianTTS.cache_dir := u "./other_cache";
     BrazilianTTS.tts := Some 0%nat;
     BrazilianTTS.model_name := u "edge-tts-azure-neural" |}.

Definition ola_key : path :=
  request_key edge_default (u "Olá") (u "pt-BR") None (u "normal").

Definition ola_speech : speech :=
  {| audio_path := ola_key;
     audio_url := u "/audio_cache_pt/edge_0cbe473ad0bdb15fb80e301ffb2f37ba.mp3";
     text := u "Olá"; voice := u "pt-BR-FranciscaNeural"; language := u "pt-BR";
     cached := false; generation_time_ms := 5; file_size := 3;
     model := u "edge-tts-azure-neural" |}.

Definition piper_ola_key : path := PiperTTS._get_cache_path piper_ready (u "Olá") (u "1.0").

Definition piper_ola_speech : PiperTTS.speech :=
  {| PiperTTS.audio_path := piper_ola_key;
     PiperTTS.audio_url := u "/audio_cache_pt/piper_pt_fb9124db002b2b35b4a09a4dba9c1d97.wav";
     PiperTTS.text := u "Olá"; PiperTTS.cached := false;
     PiperTTS.generation_time_ms := 5; PiperTTS.model := u "pt_BR-faber-medium";
     PiperTTS.file_size := Some 3%nat |}.

(** A Piper service built where no executable was found. *)
Definition piper_absent : PiperTTS.PiperTTSService :=
  {| PiperTTS.cache_dir := u "./audio_cache_pt";
     PiperTTS.piper_executable := None;
     PiperTTS.model_path := None;
     PiperTTS.model_name := u "pt_BR-faber-medium" |}.

(* ===================================================================== *)
(** * Properties *)
(* ===================================================================== *)

(** ** Examples: the definitions at work *)

Example u_ascii : u "abc" = [97; 98; 99].
Proof. reflexivity. Qed.

Example u_latin : u "Essa é" = [69; 115; 115; 97; 32; 233].
Proof. reflexivity. Qed.

Example u_emoji : u "📚" = [128218].
Proof. reflexivity. Qed.

Example encode_roundtrip : encode (u "é 📚 €") = List.map N_of_ascii (list_ascii_of_string "é 📚 €").
Proof. reflexivity. Qed.

Example strip_example : strip (u "  a b
 ") = u "a b".
Proof. reflexivity. Qed.

Example upper_example : upper (u "sofá") = u "SOFÁ".
Proof. reflexivity. Qed.

Example md5_empty : MD5.hexdigest [] = u "d41d8cd98f00b204e9800998ecf8427e".
Proof. vm_compute. reflexivity. Qed.

Example md5_key : MD5.hexdigest (encode (u "Hello_V1_+0%")) = u "dda67584b726f573683592c2237a4c73".
Proof. vm_compute. reflexivity. Qed.

Example md5_two_blocks :
  MD5.hexdigest (encode (List.concat (repeat (u "é") 70))) = u "1a4882ce74b2b88990002d004b290b13".
Proof. vm_compute. reflexivity. Qed.

Example loads_object :
  loads (jq "{'a': [1, -2.5e3, true, null], 'b': {'c': 'é\n'}, 'a': 'x'}")
  = Some (JObj [(u "a", JStr (u "x"));
                (u "b", JObj [(u "c", JStr [233; 10])])]).
Proof. vm_compute. reflexivity. Qed.

Example loads_rejects :
  List.map loads [jq "[1,]"; jq "{'a' 1}"; jq "01"; jq "'a"; jq ""; jq "[1] x"; jq "`"]
  = [None; None; None; None; None; None; None].
Proof. vm_compute. reflexivity. Qed.

Example loads_scalars :
  List.map loads [jq " 42 "; jq "-0"; jq "'\ud83d\udcda'"; jq "NaN"; jq "[]"; jq "{ }"]
  = [Some (JInt 42); Some (JInt 0); Some (JStr [128218]); Some (JFloat (u "NaN"));
     Some (JArr []); Some (JObj [])].
Proof. vm_compute. reflexivity. Qed.

Example re_sub_example :
  Re.sub (Re.Seq (Re.lit (u "ab")) (Re.Seq (Re.Plus Re.Space) (Re.Opt (Re.Chr 99))))
         (u "X") (u "zAB   cab c ab") = u "zXX ab".
Proof. vm_compute. reflexivity. Qed.

Example fix_scenario :
  _fix_portuguese_grammar (u "Olá! Esse é a MESA, um móvel.") (u "mesa")
  = u "Olá! Essa é a MESA, um móvel.".
Proof. vm_compute. reflexivity. Qed.

Example fix_examples :
  List.map (fun t => _fix_portuguese_grammar t (u "sofá"))
    [u "essa  é   uma sofá grande"; u "Esse é SOFÁ"; u "Esse é o SOFÁ"; u "ESSA É SOFÁS e Essa é um sofá"]
  = [u "Esse é o SOFÁ grande"; u "Esse é o SOFÁ"; u "Esse é o SOFÁ"; u "Esse é o SOFÁS e Esse é o SOFÁ"].
Proof. vm_compute. reflexivity. Qed.

Example clean_examples :
  List.map _clean_json_response
    [jq "```json
{'a': 1}
```"; jq " ``` [1] ``` "; jq "{}"; jq "``````x"]
  = [jq "{'a': 1}"; jq "[1]"; jq "{}"; jq "```x"].
Proof. vm_compute. reflexivity. Qed.

(** ** Strings *)

Section StripFacts.

Implicit Types s p : list N.

Lemma lstrip_length s : (length (lstrip s) <= length s)%nat.
Proof.
  induction s as [|c r IH]; simpl; [lia|].
  destruct (isspace c); simpl; lia.
Qed.

Lemma lstrip_idem s : lstrip (lstrip s) = lstrip s.
Proof.
  induction s as [|c r IH]; simpl; [reflexivity|].
  destruct (isspace c) eqn:E; [exact IH|].
  simpl. rewrite E. reflexivity.
Qed.

Lemma lstrip_lclean s : lclean (lstrip s).
Proof.
  induction s as [|c r IH]; simpl; [exact I|].
  destruct (isspace c) eqn:E; [exact IH|]. exact E.
Qed.

Lemma lclean_lstrip s : lclean s -> lstrip s = s.
Proof.
  destruct s as [|c r]; simpl; [reflexivity|].
  intros ->. reflexivity.
Qed.

Lemma lstrip_snoc s c : isspace c = false -> exists l, lstrip (s ++ [c]) = l ++ [c].
Proof.
  intros Hc. induction s as [|d r [l IH]]; simpl.
  - rewrite Hc. exists []. reflexivity.
  - destruct (isspace d).
    + exists l. exact IH.
    + exists (d :: r). reflexivity.
Qed.

Lemma rstrip_length s : (length (rstrip s) <= length s)%nat.
Proof.
  unfold rstrip. rewrite length_rev.
  pose proof (lstrip_length (rev s)) as H. rewrite length_rev in H. exact H.
Qed.

Lemma rstrip_idem s : rstrip (rstrip s) = rstrip s.
Proof. unfold rstrip. rewrite rev_involutive, lstrip_idem. reflexivity. Qed.

Lemma rstrip_lclean s : lclean s -> lclean (rstrip s).
Proof.
  destruct s as [|c r]; [intros _; exact I|].
  simpl. intros Hc. unfold rstrip. simpl.
  destruct (lstrip_snoc (rev r) c Hc) as [l ->].
  rewrite rev_app_distr. simpl. exact Hc.
Qed.

Lemma strip_length s : (length (strip s) <= length s)%nat.
Proof.
  unfold strip. pose proof (rstrip_length (lstrip s)). pose proof (lstrip_length s). lia.
Qed.

Lemma strip_stripped s : stripped (strip s).
Proof.
  unfold stripped, strip. split.
  - apply lclean_lstrip, rstrip_lclean, lstrip_lclean.
  - apply rstrip_idem.
Qed.

Lemma stripped_strip s : stripped s -> strip s = s.
Proof. intros [Hl Hr]. unfold strip. rewrite Hl. exact Hr. Qed.

Lemma strip_idem s : strip (strip s) = strip s.
Proof. apply stripped_strip, strip_stripped. Qed.

Lemma startswith_length s p : startswith s p = true -> (length p <= length s)%nat.
Proof.
  revert s. induction p as [|a p IH]; intros s H; simpl; [lia|].
  destruct s as [|b s]; simpl in H; [discriminate|].
  apply andb_true_iff in H as [_ H]. apply IH in H. simpl. lia.
Qed.

Lemma startswith_app s p q : startswith s (p ++ q) = true -> startswith s p = true.
Proof.
  revert s. induction p as [|a p IH]; intros s H; [reflexivity|].
  destruct s as [|b s]; simpl in *; [discriminate|].
  apply andb_true_iff in H as [H1 H2]. rewrite H1. simpl. apply IH. exact H2.
Qed.

Lemma endswith_length s p : endswith s p = true -> (length p <= length s)%nat.
Proof.
  unfold endswith. intros H. apply startswith_length in H.
  rewrite !length_rev in H. exact H.
Qed.

End StripFacts.

(** ** Envelope stripping *)

Section CleanFacts.

Implicit Types x y : list N.

Lemma clean_stripped x : stripped (_clean_json_response x).
Proof. unfold _clean_json_response. apply strip_stripped. Qed.

Lemma fence_json_fence y : startswith y fence_json = true -> startswith y fence = true.
Proof.
  change fence_json with (fence ++ u "json"). apply startswith_app.
Qed.

(** Without a fence at either end, cleaning is [strip]. *)
Lemma clean_no_fence x :
  startswith (strip x) fence = false -> endswith (strip x) fence = false ->
  _clean_json_response x = strip x.
Proof.
  intros Hs He. unfold _clean_json_response.
  destruct (startswith (strip x) fence_json) eqn:Hj.
  - apply fence_json_fence in Hj. congruence.
  - rewrite Hs, He. apply strip_idem.
Qed.

Lemma clean_unfence x : _clean_json_response x = strip (unfence (strip x)).
Proof. reflexivity. Qed.

Lemma slice_to_minus_length y n : (length (slice_to_minus n y) = length y - n)%nat.
Proof. unfold slice_to_minus. rewrite length_take. lia. Qed.

Lemma slice_from_length y n : (length (slice_from n y) = length y - n)%nat.
Proof. unfold slice_from. apply length_drop. Qed.

(** A fence at either end makes the result strictly shorter. *)
Lemma unfence_shorter y :
  startswith y fence = true \/ endswith y fence = true ->
  (length (unfence y) < length y)%nat.
Proof.
  intros H. unfold unfence.
  destruct (startswith y fence_json) eqn:Hj.
  - apply startswith_length in Hj. change (length fence_json) with 7%nat in Hj.
    destruct (endswith (slice_from 7 y) fence);
      rewrite ?slice_to_minus_length, ?slice_from_length; lia.
  - destruct (startswith y fence) eqn:Hf.
    + apply startswith_length in Hf. change (length fence) with 3%nat in Hf.
      destruct (endswith (slice_from 3 y) fence);
        rewrite ?slice_to_minus_length, ?slice_from_length; lia.
    + destruct H as [H|H]; [discriminate|]. rewrite H.
      apply endswith_length in H. change (length fence) with 3%nat in H.
      rewrite slice_to_minus_length. lia.
Qed.

Lemma clean_shorter y :
  stripped y ->
  startswith y fence = true \/ endswith y fence = true ->
  (length (_clean_json_response y) < length y)%nat.
Proof.
  intros Hy H. rewrite clean_unfence, (stripped_strip y Hy).
  pose proof (strip_length (unfence y)). pose proof (unfence_shorter y H). lia.
Qed.

End CleanFacts.

(** C4 (as amended). Envelope stripping removes one fence at each end, so a
    second application changes the result exactly when the first result
    still begins or ends with a fence; in particular an input without a
    fence at either end (after trimming) is only trimmed, and stripping it
    again changes nothing. *)
Theorem clean_json_response_idempotent_iff (x : list N) :
  (_clean_json_response (_clean_json_response x) = _clean_json_response x
   <-> startswith (_clean_json_response x) fence = false
       /\ endswith (_clean_json_response x) fence = false)
  /\ (startswith (strip x) fence = false -> endswith (strip x) fence = false ->
      _clean_json_response x = strip x
      /\ _clean_json_response (_clean_json_response x) = _clean_json_response x).
Proof.
  assert (Hfix : forall y, stripped y ->
            startswith y fence = false -> endswith y fence = false ->
            _clean_json_response y = y).
  { intros y Hy Hs He. rewrite clean_no_fence; rewrite (stripped_strip y Hy); auto. }
  split.
  - split.
    + intros Heq.
      destruct (startswith (_clean_json_response x) fence) eqn:Hs;
        destruct (endswith (_clean_json_response x) fence) eqn:He; auto;
        exfalso;
        (assert (Hlt : (length (_clean_json_response (_clean_json_response x))
                       < length (_clean_json_response x))%nat)
           by (apply clean_shorter; [apply clean_stripped | auto]));
        rewrite Heq in Hlt; lia.
    + intros [Hs He]. apply Hfix; auto. apply clean_stripped.
  - intros Hs He. pose proof (clean_no_fence x Hs He) as Hc. split; [exact Hc|].
    rewrite Hc. apply Hfix; auto. apply strip_stripped.
Qed.

(** C4, witness: a payload without fences. *)
Lemma clean_json_response_idempotent_witness :
  _clean_json_response (jq " {'a': 1} ") = strip (jq " {'a': 1} ")
  /\ _clean_json_response (_clean_json_response (jq " {'a': 1} "))
     = _clean_json_response (jq " {'a': 1} ").
Proof.
  apply (proj2 (clean_json_response_idempotent_iff (jq " {'a': 1} "))); reflexivity.
Defined.

(** C4, counterexample: two fences in front. The first application removes
    one, the second removes the other. *)
Lemma clean_json_response_not_idempotent :
  _clean_json_response (u "``````x") = u "```x"
  /\ _clean_json_response (_clean_json_response (u "``````x")) = u "x"
  /\ _clean_json_response (_clean_json_response (u "``````x"))
     <> _clean_json_response (u "``````x").
Proof. vm_compute. repeat split; discriminate. Qed.

(** ** Grammar correction *)

Section GrammarFacts.

Implicit Types (r : Re.regex) (s repl text word : list N).

(** A substitution that finds no match returns its text. *)
Lemma sub_no_match r repl s : Re.no_match r s = true -> Re.sub r repl s = s.
Proof.
  unfold Re.sub. induction s as [|c s IH]; simpl; [reflexivity|].
  destruct (Re.match_at r (c :: s)) as [[|n]|]; intros H.
  - rewrite IH; auto.
  - discriminate.
  - rewrite IH; auto.
Qed.

Lemma fold_sub_no_match (rules : list (Re.regex * list N)) text :
  forallb (fun rule => Re.no_match (fst rule) text) rules = true ->
  fold_left (fun t rule => Re.sub (fst rule) (snd rule) t) rules text = text.
Proof.
  induction rules as [|[r repl] rules IH]; simpl; [reflexivity|].
  intros H. apply andb_true_iff in H as [H1 H2].
  rewrite sub_no_match; auto.
Qed.

Lemma fix_rule_free text word :
  rule_free text word = true -> _fix_portuguese_grammar text word = text.
Proof. apply fold_sub_no_match. Qed.

End GrammarFacts.

(** *** The matcher and the texts of a pattern *)

Section MatcherFacts.

Implicit Types (r a b : regex) (s m : list N) (k : list N -> option (list N)).


Lemma shrinking_Some : shrinking 0 Some.
Proof. intros s x [= ->]. lia. Qed.

Lemma shrinking_weaken d k : shrinking d k -> shrinking 0 k.
Proof. intros H s x Hk. apply H in Hk. lia. Qed.

Lemma star_shrinking d fuel step s k x :
  (forall s' k' x', shrinking d k' -> step s' k' = Some x' -> (length x' + d <= length s')%nat) ->
  shrinking d k -> star fuel step s k = Some x -> (length x + d <= length s)%nat.
Proof.
  intros Hstep Hk. revert s x. induction fuel as [|f IH]; intros s x; simpl.
  - apply Hk.
  - destruct (step s _) as [y|] eqn:Hy.
    + intros [= <-]. eapply Hstep; [|exact Hy].
      intros s' x'. destruct (length s' <? length s)%nat; [|discriminate]. apply IH.
    + apply Hk.
Qed.

Lemma mtch_shrinking d r s k x :
  shrinking d k -> mtch r s k = Some x -> (length x + d <= length s)%nat.
Proof.
  revert s k x. induction r as [|c| |a IHa b IHb|a IHa b IHb|a IHa|a IHa];
    intros s k x Hk; simpl.
  - apply Hk.
  - destruct s as [|e s]; [discriminate|]. destruct (ieq c e); [|discriminate].
    intros H. apply Hk in H. simpl. lia.
  - destruct s as [|e s]; [discriminate|]. destruct (isspace e); [|discriminate].
    intros H. apply Hk in H. simpl. lia.
  - apply IHa. intros s' x'. apply IHb. exact Hk.
  - destruct (mtch a s k) as [y|] eqn:Hy.
    + intros [= <-]. eapply IHa; eauto.
    + apply IHb. exact Hk.
  - destruct (mtch a s k) as [y|] eqn:Hy.
    + intros [= <-]. eapply IHa; eauto.
    + apply Hk.
  - apply IHa. intros s' x'. apply star_shrinking; [|exact Hk].
    intros s'' k' x'' Hk'. apply IHa. exact Hk'.
Qed.

Lemma mtch_nonnull r s k x :
  nonnull r = true -> shrinking 0 k -> mtch r s k = Some x -> (length x < length s)%nat.
Proof.
  revert s k x. induction r as [|c| |a IHa b IHb|a IHa b IHb|a IHa|a IHa];
    intros s k x Hn Hk; simpl in *; try discriminate.
  - destruct s as [|e s]; [discriminate|]. destruct (ieq c e); [|discriminate].
    intros H. apply Hk in H. simpl. lia.
  - destruct s as [|e s]; [discriminate|]. destruct (isspace e); [|discriminate].
    intros H. apply Hk in H. simpl. lia.
  - destruct (nonnull a) eqn:Ha.
    + apply IHa; [reflexivity|]. intros s' x'. apply (mtch_shrinking 0). exact Hk.
    + simpl in Hn. intros H.
      apply (mtch_shrinking 1) in H; [lia|].
      intros s' x' Hb. apply IHb in Hb; auto. lia.
  - apply andb_true_iff in Hn as [Ha Hb].
    destruct (mtch a s k) as [y|] eqn:Hy.
    + intros [= <-]. eapply IHa; eauto.
    + apply IHb; auto.
  - apply IHa; [exact Hn|]. intros s' x'. apply (star_shrinking 0); [|exact Hk].
    intros s'' k' x'' Hk'. apply (mtch_shrinking 0). exact Hk'.
Qed.

(** Soundness: what the matcher consumes is a text of the pattern. *)
Lemma star_sound a fuel :
  (forall s k x, mtch a s k = Some x ->
     exists m s', s = m ++ s' /\ lang a m /\ k s' = Some x) ->
  forall s k x, star fuel (mtch a) s k = Some x ->
    exists m s', s = m ++ s' /\ (m = [] \/ lang (Plus a) m) /\ k s' = Some x.
Proof.
  intros Ha. induction fuel as [|f IH]; intros s k x; simpl.
  - intros H. exists [], s. auto.
  - destruct (mtch a s _) as [y|] eqn:Hy.
    + intros [= <-]. apply Ha in Hy as (m1 & s1 & -> & Hm1 & Hk1).
      destruct (length s1 <? length (m1 ++ s1))%nat; [|discriminate].
      apply IH in Hk1 as (m2 & s2 & -> & Hm2 & Hk2).
      exists (m1 ++ m2), s2. split; [rewrite app_assoc; reflexivity|]. split; [|exact Hk2].
      right. destruct Hm2 as [-> | Hm2].
      * rewrite app_nil_r. apply lang_plus_one. exact Hm1.
      * destruct m1 as [|c m1]; [exact Hm2|].
        apply lang_plus_more; [exact Hm1 | discriminate | exact Hm2].
    + intros H. exists [], s. auto.
Qed.

Lemma mtch_sound r s k x :
  mtch r s k = Some x -> exists m s', s = m ++ s' /\ lang r m /\ k s' = Some x.
Proof.
  revert s k x. induction r as [|c| |a IHa b IHb|a IHa b IHb|a IHa|a IHa];
    intros s k x; simpl.
  - intros H. exists [], s. repeat split; [constructor | exact H].
  - destruct s as [|e s]; [discriminate|]. destruct (ieq c e) eqn:E; [|discriminate].
    intros H. exists [e], s. repeat split; [constructor; exact E | exact H].
  - destruct s as [|e s]; [discriminate|]. destruct (isspace e) eqn:E; [|discriminate].
    intros H. exists [e], s. repeat split; [constructor; exact E | exact H].
  - intros H. apply IHa in H as (m1 & s1 & -> & Hm1 & H).
    apply IHb in H as (m2 & s2 & -> & Hm2 & H).
    exists (m1 ++ m2), s2. rewrite app_assoc. repeat split; [constructor; assumption | exact H].
  - destruct (mtch a s k) as [y|] eqn:Hy.
    + intros [= <-]. apply IHa in Hy as (m & s' & -> & Hm & H).
      exists m, s'. repeat split; [apply lang_alt_l; exact Hm | exact H].
    + intros H. apply IHb in H as (m & s' & -> & Hm & H).
      exists m, s'. repeat split; [apply lang_alt_r; exact Hm | exact H].
  - destruct (mtch a s k) as [y|] eqn:Hy.
    + intros [= <-]. apply IHa in Hy as (m & s' & -> & Hm & H).
      exists m, s'. repeat split; [apply lang_opt_some; exact Hm | exact H].
    + intros H. exists [], s. repeat split; [constructor | exact H].
  - intros H. apply IHa in H as (m1 & s1 & -> & Hm1 & H).
    apply (star_sound a _ IHa) in H as (m2 & s2 & -> & Hm2 & H).
    exists (m1 ++ m2), s2. rewrite app_assoc. repeat split; [|exact H].
    destruct Hm2 as [-> | Hm2].
    + rewrite app_nil_r. apply lang_plus_one. exact Hm1.
    + destruct m1 as [|c m1]; [exact Hm2|].
      apply lang_plus_more; [exact Hm1 | discriminate | exact Hm2].
Qed.

(** Completeness: where a text of the pattern is followed by something the
    continuation accepts, the matcher finds a match. *)
Lemma star_base fuel step s k : accepts k s -> exists y, star fuel step s k = Some y.
Proof.
  intros [x Hx]. destruct fuel as [|f]; simpl; [eauto|].
  destruct (step s _); eauto.
Qed.

Lemma star_complete a :
  (forall m, lang a m -> forall s k, accepts k s -> exists y, mtch a (m ++ s) k = Some y) ->
  forall m, lang (Plus a) m -> forall fuel s k,
    (length (m ++ s) <= fuel)%nat -> accepts k s ->
    exists y, star fuel (mtch a) (m ++ s) k = Some y.
Proof.
  intros Ha m Hm. remember (Plus a) as r eqn:Hr. revert Hr.
  induction Hm as [| | | | | | | |a' m Hm _|a' m1 m2 Hm1 _ Hne Hm2 IH];
    intros Hr; try discriminate; injection Hr as ->; intros fuel s k Hfuel Hk.
  - destruct fuel as [|f]; simpl.
    + destruct m; [|simpl in Hfuel; lia]. destruct s; [|simpl in Hfuel; lia]. exact Hk.
    + destruct m as [|c m].
      * destruct (mtch a ([] ++ s) _); [eauto | exact Hk].
      * destruct (Ha _ Hm s
          (fun s' => if (length s' <? length ((c :: m) ++ s))%nat
                     then star f (mtch a) s' k else None)) as [y Hy].
        { unfold accepts. cbv beta.
          destruct (Nat.ltb_spec (length s) (length ((c :: m) ++ s))) as [_|Hge].
          - apply star_base. exact Hk.
          - rewrite length_app in Hge. simpl in Hge. lia. }
        rewrite Hy. eauto.
  - destruct fuel as [|f]; simpl.
    + destruct m1; [congruence|]. simpl in Hfuel. lia.
    + rewrite <- app_assoc.
      destruct (Ha _ Hm1 (m2 ++ s)
          (fun s' => if (length s' <? length (m1 ++ m2 ++ s))%nat
                     then star f (mtch a) s' k else None)) as [y Hy].
      { unfold accepts. cbv beta.
        destruct (Nat.ltb_spec (length (m2 ++ s)) (length (m1 ++ m2 ++ s))) as [_|Hge].
        - apply IH; [reflexivity | | exact Hk].
          rewrite <- app_assoc, length_app in Hfuel. destruct m1; [congruence|].
          simpl in Hfuel. lia.
        - rewrite length_app in Hge. destruct m1; [congruence|]. simpl in Hge. lia. }
      rewrite Hy. eauto.
Qed.

Lemma mtch_complete r m :
  lang r m -> forall s k, accepts k s -> exists y, mtch r (m ++ s) k = Some y.
Proof.
  revert m. induction r as [|c| |a IHa b IHb|a IHa b IHb|a IHa|a IHa];
    intros m Hm s k Hk; inversion Hm; subst; simpl.
  - exact Hk.
  - match goal with H : ieq _ _ = true |- _ => rewrite H end. exact Hk.
  - match goal with H : isspace _ = true |- _ => rewrite H end. exact Hk.
  - rewrite <- app_assoc. apply IHa; [assumption|]. apply IHb; assumption.
  - destruct (IHa _ ltac:(eassumption) s k Hk) as [y ->]. eauto.
  - destruct (mtch a (m ++ s) k); [eauto|]. apply IHb; assumption.
  - destruct (mtch a s k); [eauto | exact Hk].
  - destruct (IHa _ ltac:(eassumption) s k Hk) as [y ->]. eauto.
  - apply IHa; [assumption|]. apply star_base. exact Hk.
  - rewrite <- app_assoc. apply IHa; [assumption|].
    apply (star_complete a IHa); [assumption | lia | exact Hk].
Qed.

End MatcherFacts.

(** *** Substitution *)

Section SubFacts.

Implicit Types (r : regex) (s m x y R : list N).

Lemma lang_hit r m post : nonnull r = true -> lang r m -> hit r (m ++ post).
Proof.
  intros Hn Hm. unfold hit, match_at.
  destruct (mtch_complete r m Hm post Some) as [y Hy]; [exists post; reflexivity|].
  rewrite Hy. pose proof (mtch_nonnull r _ _ _ Hn shrinking_Some Hy) as Hlt.
  exists (length (m ++ post) - length y - 1)%nat. f_equal. lia.
Qed.

Lemma hit_lang r s : hit r s -> exists m post, s = m ++ post /\ lang r m /\ m <> [].
Proof.
  intros [n Hn]. unfold match_at in Hn.
  destruct (mtch r s Some) as [rest|] eqn:Hr; [|discriminate].
  apply mtch_sound in Hr as (m & s' & -> & Hm & [= <-]).
  exists m, s'. repeat split; auto. intros ->. simpl in Hn.
  injection Hn as Hn. lia.
Qed.

Lemma not_hit_nil r : ~ hit r [].
Proof.
  intros [n Hn]. unfold match_at in Hn. destruct (mtch r [] Some); [|discriminate].
  simpl in Hn. discriminate.
Qed.

Lemma unhit_no_match r x : unhit r x -> no_match r x = true.
Proof.
  induction x as [|c x IH]; intros H; simpl; [reflexivity|].
  destruct (match_at r (c :: x)) as [[|n]|] eqn:E.
  - apply IH. intros x1 x2 ->. apply (H (c :: x1)). reflexivity.
  - exfalso. apply (H [] (c :: x)); [reflexivity|]. exists n. exact E.
  - apply IH. intros x1 x2 ->. apply (H (c :: x1)). reflexivity.
Qed.

Lemma sub_go_skip r R s n : sub_go r R s n = sub_go r R (drop n s) 0.
Proof.
  revert n. induction s as [|c s IH]; intros n.
  - destruct n; reflexivity.
  - destruct n as [|n]; [reflexivity|]. simpl. apply IH.
Qed.

(** The first step of a substitution: either nothing matches and the text
    is returned, or the text is an untouched piece, the first match and a
    rest, and the result is the piece, the replacement and the substitution
    of the rest. *)
Lemma sub_first r R x :
  (sub r R x = x /\ unhit r x)
  \/ (exists y m x2,
        x = y ++ m ++ x2 /\ m <> [] /\ sub r R x = y ++ R ++ sub r R x2
        /\ forall y1 y2, y = y1 ++ y2 -> y2 <> [] -> ~ hit r (y2 ++ m ++ x2)).
Proof.
  unfold sub. induction x as [|c x IH].
  - left. split; [reflexivity|]. intros x1 x2 Hx.
    symmetry in Hx. apply app_eq_nil in Hx as [_ ->]. apply not_hit_nil.
  - simpl. destruct (match_at r (c :: x)) as [[|n]|] eqn:E.
    + destruct IH as [[Hs Hu] | (y & m & x2 & -> & Hm & Hs & Hy)].
      * left. split; [rewrite Hs; reflexivity|].
        intros [|d x1] x2 Hx; simpl in Hx.
        -- subst x2. intros [k Hk]. congruence.
        -- injection Hx as <- ->. apply (Hu x1). reflexivity.
      * right. exists (c :: y), m, x2. repeat split; auto.
        -- rewrite Hs. reflexivity.
        -- intros [|d y1] y2 Hy12 Hne; simpl in Hy12.
           ++ subst y2. intros [k Hk]. simpl in Hk. congruence.
           ++ injection Hy12 as <- ->. apply (Hy y1); auto.
    + right. exists [], (c :: take n x), (drop n x). repeat split.
      * simpl. rewrite take_drop. reflexivity.
      * discriminate.
      * simpl. rewrite sub_go_skip. reflexivity.
      * intros y1 y2 Hy Hne. symmetry in Hy. apply app_eq_nil in Hy as [_ ->]. congruence.
    + destruct IH as [[Hs Hu] | (y & m & x2 & -> & Hm & Hs & Hy)].
      * left. split; [rewrite Hs; reflexivity|].
        intros [|d x1] x2 Hx; simpl in Hx.
        -- subst x2. intros [k Hk]. congruence.
        -- injection Hx as <- ->. apply (Hu x1). reflexivity.
      * right. exists (c :: y), m, x2. repeat split; auto.
        -- rewrite Hs. reflexivity.
        -- intros [|d y1] y2 Hy12 Hne; simpl in Hy12.
           ++ subst y2. intros [k Hk]. simpl in Hk. congruence.
           ++ injection Hy12 as <- ->. apply (Hy y1); auto.
Qed.

End SubFacts.

(** Where the matches of a family [Q] of texts can lie in the result of a
    substitution, when none of them can begin in the replacement or run
    into it. *)
Section Occurrences.

Variables (r : regex) (R : list N) (Q : list N -> Prop).

Hypothesis Q_nonempty : forall M, Q M -> M <> [].
Hypothesis at_start : forall M z post, Q M -> R ++ z = M ++ post -> False.
Hypothesis inside :
  forall l1 l2 M z post, Q M -> R = l1 ++ l2 -> l1 <> [] -> l2 <> [] ->
    l2 ++ z = M ++ post -> False.
Hypothesis running_in :
  forall y M z post, Q M -> y <> [] -> y ++ R ++ z = M ++ post -> exists y', y = M ++ y'.

Lemma sub_occurrence_bounded n :
  forall x, (length x <= n)%nat ->
  forall pre M post, Q M -> sub r R x = pre ++ M ++ post ->
  exists pre' post', x = pre' ++ M ++ post' /\ ~ hit r (M ++ post').
Proof.
  induction n as [|n IH]; intros x Hlen pre M post HQ Hsub.
  - destruct x; [|simpl in Hlen; lia]. exfalso.
    change (sub r R []) with (@nil N) in Hsub.
    symmetry in Hsub. apply app_eq_nil in Hsub as [_ Hsub].
    apply app_eq_nil in Hsub as [-> _]. exact (Q_nonempty [] HQ eq_refl).
  - destruct (sub_first r R x) as [[Hs Hu] | (y & m & x2 & -> & Hm & Hs & Hy)].
    + rewrite Hs in Hsub. subst x. exists pre, post. split; [reflexivity|].
      apply (Hu pre). reflexivity.
    + assert (Hx2 : (length x2 <= n)%nat).
      { rewrite !length_app in Hlen. destruct m; [congruence|]. simpl in Hlen. lia. }
      rewrite Hs in Hsub.
      apply List.app_eq_app in Hsub as [l [[-> Hl] | [-> Hl]]].
      * destruct l as [|c l].
        -- exfalso. simpl in Hl. symmetry in Hl. eapply at_start; eauto.
        -- destruct (running_in (c :: l) M (sub r R x2) post HQ ltac:(discriminate)
                       (eq_sym Hl)) as [y' Hy'].
           rewrite Hy'. exists pre, (y' ++ m ++ x2). split.
           ++ rewrite <- !app_assoc. reflexivity.
           ++ rewrite app_assoc. apply (Hy pre); [rewrite Hy'; reflexivity|].
              intros H. apply app_eq_nil in H as [-> _]. exact (Q_nonempty [] HQ eq_refl).
      * apply List.app_eq_app in Hl as [l' [[HR Hl] | [-> Hl]]].
        -- destruct l as [|c l].
           ++ exfalso. simpl in HR. subst l'. symmetry in Hl.
              eapply (at_start M (sub r R x2) post HQ). exact Hl.
           ++ destruct l' as [|c' l'].
              ** simpl in Hl.
                 destruct (IH x2 Hx2 [] M post HQ (eq_sym Hl)) as (pre' & post' & -> & Hh).
                 exists (y ++ m ++ pre'), post'. split; [|exact Hh].
                 rewrite <- !app_assoc. reflexivity.
              ** exfalso. eapply (inside (c :: l) (c' :: l') M (sub r R x2) post HQ);
                   [exact HR | discriminate | discriminate | symmetry; exact Hl].
        -- destruct (IH x2 Hx2 l' M post HQ Hl) as (pre' & post' & -> & Hh).
           exists (y ++ m ++ pre'), post'. split; [|exact Hh].
           rewrite <- !app_assoc. reflexivity.
Qed.

Lemma sub_occurrence x pre M post :
  Q M -> sub r R x = pre ++ M ++ post ->
  exists pre' post', x = pre' ++ M ++ post' /\ ~ hit r (M ++ post').
Proof. apply (sub_occurrence_bounded (length x)). lia. Qed.

End Occurrences.

(** *** The rule table *)

Lemma patterns_to_fix_table word :
  patterns_to_fix word
  = List.map (fun p => (p, rule_replacement (endswith (lower word) (u "a")) (upper word)))
      (rule_patterns (endswith (lower word) (u "a")) (upper word)).
Proof. unfold patterns_to_fix, rule_patterns, rule_replacement. reflexivity. Qed.

Section LangInversion.

Implicit Types (a b : regex) (m : list N).

Lemma lang_eps_inv m : lang Eps m -> m = [].
Proof. inversion 1; reflexivity. Qed.

Lemma lang_chr_inv c m : lang (Chr c) m -> exists d, m = [d] /\ ieq c d = true.
Proof. inversion 1; subst; eauto. Qed.

Lemma lang_seq_inv a b m :
  lang (Seq a b) m -> exists m1 m2, m = m1 ++ m2 /\ lang a m1 /\ lang b m2.
Proof. inversion 1; subst; eauto. Qed.

Lemma lang_alt_inv a b m : lang (Alt a b) m -> lang a m \/ lang b m.
Proof. inversion 1; subst; auto. Qed.

Lemma lang_opt_inv a m : lang (Opt a) m -> m = [] \/ lang a m.
Proof. inversion 1; subst; auto. Qed.

Lemma lang_plus_space m :
  lang (Plus Space) m ->
  exists d t, m = d :: t /\ isspace d = true /\ Forall (fun c => isspace c = true) t.
Proof.
  intros H. remember (Plus Space) as r eqn:Hr. revert Hr.
  induction H as [| | | | | | | |a m H _|a m1 m2 H1 _ Hne H2 IH];
    intros Hr; try discriminate; injection Hr as ->.
  - inversion H; subst. eauto.
  - inversion H1; subst. destruct (IH eq_refl) as (d' & t & -> & Hd & Ht).
    simpl. eexists _, _. split; [reflexivity|]. split; [assumption|].
    constructor; assumption.
Qed.

Lemma lang_lit W m : lang (lit W) m -> Forall2 (fun c d => ieq c d = true) W m.
Proof.
  revert m. induction W as [|c W IH]; intros m H; simpl in H.
  - apply lang_eps_inv in H as ->. constructor.
  - apply lang_seq_inv in H as (m1 & m2 & -> & H1 & H2).
    apply lang_chr_inv in H1 as (d & -> & Hd). simpl. constructor; auto.
Qed.

Lemma lit_lang W m : Forall2 (fun c d => ieq c d = true) W m -> lang (lit W) m.
Proof.
  induction 1 as [|c d W m Hcd _ IH]; simpl; [constructor|].
  change (d :: m) with ([d] ++ m). constructor; [constructor; exact Hcd | exact IH].
Qed.

End LangInversion.

Section CharFacts.

Lemma fold_case_101 c : fold_case c = 101 -> c = 69 \/ c = 101.
Proof.
  unfold fold_case, lower_char.
  repeat match goal with |- context [if ?b then _ else _] => destruct b eqn:? end;
    intros H; try lia;
    repeat match goal with
           | H : (_ && _) = true |- _ => apply andb_true_iff in H as [? ?]
           | H : (_ =? _) = true |- _ => apply N.eqb_eq in H
           | H : (_ <=? _) = true |- _ => apply N.leb_le in H
           | H : (_ || _) = true |- _ => apply orb_true_iff in H as [?|?]
           end; lia.
Qed.

Lemma elike_iff c : elike c = true <-> c = 69 \/ c = 101.
Proof.
  unfold elike, ieq. change (fold_case 69) with 101. rewrite N.eqb_eq. split.
  - intros H. apply fold_case_101. symmetry. exact H.
  - intros [-> | ->]; reflexivity.
Qed.

Lemma space_not_elike c : isspace c = true -> elike c = false.
Proof.
  intros Hs. destruct (elike c) eqn:He; [|reflexivity].
  apply elike_iff in He as [-> | ->]; discriminate.
Qed.

Lemma ieq_trans_l c d e : ieq c d = true -> ieq e c = ieq e d.
Proof. unfold ieq. rewrite N.eqb_eq. intros ->. reflexivity. Qed.

Lemma ieq_sym c d : ieq c d = ieq d c.
Proof. unfold ieq. apply N.eqb_sym. Qed.

(** A character matched against a pattern character is like [E], [S] or
    white space exactly when the pattern character is. *)
Lemma ieq_elike c d : ieq c d = true -> elike d = elike c.
Proof. intros H. unfold elike. symmetry. apply ieq_trans_l. exact H. Qed.

Lemma ieq_slike c d : ieq c d = true -> slike d = slike c.
Proof. intros H. unfold slike. symmetry. apply ieq_trans_l. exact H. Qed.

Lemma ieq_space d : ieq 32 d = true -> d = 32.
Proof.
  unfold ieq. change (fold_case 32) with 32. rewrite N.eqb_eq.
  unfold fold_case, lower_char.
  repeat match goal with |- context [if ?b then _ else _] => destruct b eqn:? end;
    intros H; try lia;
    repeat match goal with
           | H : (_ && _) = true |- _ => apply andb_true_iff in H as [? ?]
           | H : (_ =? _) = true |- _ => apply N.eqb_eq in H
           | H : (_ <=? _) = true |- _ => apply N.leb_le in H
           | H : (_ || _) = true |- _ => apply orb_true_iff in H as [?|?]
           end; lia.
Qed.

Lemma slike_not_space c : slike c = true -> isspace c = false.
Proof.
  intros Hs. destruct (isspace c) eqn:E; [|reflexivity]. exfalso.
  unfold slike, ieq in Hs. change (fold_case 115) with 115 in Hs. apply N.eqb_eq in Hs.
  unfold isspace in E. unfold fold_case, lower_char in Hs.
  repeat match type of Hs with context [if ?b then _ else _] => destruct b eqn:? end;
    repeat match goal with
           | H : (_ && _) = true |- _ => apply andb_true_iff in H as [? ?]
           | H : (_ =? _) = true |- _ => apply N.eqb_eq in H
           | H : (_ <=? _) = true |- _ => apply N.leb_le in H
           | H : (_ || _) = true |- _ => apply orb_true_iff in H as [?|?]
           end; try lia.
Qed.

End CharFacts.

(** *** Matches of the rules *)

Ltac inv_lang :=
  repeat match goal with
  | H : lang Eps _ |- _ => apply lang_eps_inv in H; subst
  | H : lang (Seq _ _) _ |- _ => apply lang_seq_inv in H as (? & ? & -> & ? & ?)
  | H : lang (Chr _) _ |- _ => apply lang_chr_inv in H as (? & -> & ?)
  | H : lang (Alt _ _) _ |- _ => apply lang_alt_inv in H as [?|?]
  | H : lang (Opt _) _ |- _ => apply lang_opt_inv in H as [->|?]
  | H : lang (Plus Space) _ |- _ => apply lang_plus_space in H as (? & ? & -> & ? & ?)
  end.

Ltac compute_lits H :=
  repeat match type of H with
  | context [lit (u ?s)] =>
    let v := eval vm_compute in (lit (u s)) in change (lit (u s)) with v in H
  end.

Ltac not_elike :=
  match goal with
  | H : ieq ?c ?x = true |- elike ?x = false => rewrite (ieq_elike c x H); reflexivity
  | H : isspace ?x = true |- elike ?x = false => apply space_not_elike; exact H
  end.

Ltac efree :=
  repeat first
    [ apply Forall_nil_2
    | apply Forall_cons_2; [not_elike|]
    | apply Forall_app_2
    | match goal with
      | H : Forall (fun c => isspace c = true) ?t |- Forall _ ?t =>
        eapply Forall_impl; [exact H | intros ? ?; apply space_not_elike; assumption]
      end ].

Lemma rule_shape fem W M :
  rule_match fem W M ->
  exists h W', M = h ++ W' /\ head_shape h /\ Forall2 (fun c d => ieq c d = true) W W'.
Proof.
  intros (p & Hin & Hm). unfold rule_patterns in Hin.
  destruct fem;
    repeat (destruct Hin as [<- | Hin]); try contradiction;
    cbv [seqs fold_right] in Hm; compute_lits Hm; inv_lang;
    match goal with H : lang (lit W) ?w |- _ => apply lang_lit in H; idtac end.
  all: rewrite ?app_nil_r, ?app_assoc.
  all: match goal with H : Forall2 _ _ ?w |- _ =>
         eexists _, w; split; [reflexivity|]; split; [|exact H] end.
  all: rewrite <- ?app_assoc; cbn [app].
  all: eexists _, _, _, _, _, _; split; [reflexivity|].
  all: repeat match goal with H : ieq 32 ?x = true |- _ => apply ieq_space in H; subst x end.
  all: split; [assumption|]; split; [assumption|]; split; [assumption|].
  all: split; [first [assumption | reflexivity]|].
  all: efree.
Qed.

Section SafeWord.

Variables (fem : bool) (W : list N).
Hypothesis W_first : match W with [] => false | c :: _ => negb (ieq c (article fem)) end = true.
Hypothesis W_no_ess : no_ess W = true.

Local Abbreviation R := (rule_replacement fem W).

Lemma no_ess_suffix (l1 l2 : list N) : no_ess (l1 ++ l2) = true -> no_ess l2 = true.
Proof.
  induction l1 as [|c l1 IH]; [auto|]. simpl. intros H.
  apply andb_true_iff in H as [_ H]. exact (IH H).
Qed.

(** No suffix of a word without [ESS], followed by any text, begins like
    [Ess]. *)
Lemma no_ess_start (l z : list N) c0 c1 c2 rest :
  no_ess l = true -> l <> [] -> l ++ z = c0 :: c1 :: c2 :: rest ->
  elike c0 = true -> slike c1 = true -> slike c2 = true -> False.
Proof.
  intros Hn Hl Heq H0 H1 H2.
  destruct l as [|d0 l]; [congruence|]. simpl in Heq. injection Heq as -> Heq.
  simpl in Hn. rewrite H0 in Hn. simpl in Hn.
  destruct l as [|d1 l]; [discriminate|]. simpl in Heq. injection Heq as -> Heq.
  rewrite H1 in Hn. simpl in Hn.
  destruct l as [|d2 l]; [discriminate|]. simpl in Heq. injection Heq as -> Heq.
  rewrite H2 in Hn. discriminate.
Qed.

Lemma cons_inj {A} (a b : A) (l m : list A) : a :: l = b :: m -> a = b /\ l = m.
Proof. intros [= -> ->]. auto. Qed.

Lemma replacement_fixed :
  exists c3, R = 69 :: 115 :: 115 :: c3 :: 32 :: 233 :: 32 :: article fem :: 32 :: W
             /\ (c3 = 97 /\ fem = true \/ c3 = 101 /\ fem = false).
Proof.
  unfold rule_replacement. destruct fem; eexists; (split; [reflexivity|]); auto.
Qed.

Lemma rule_nonnull p : In p (rule_patterns fem W) -> nonnull p = true.
Proof.
  unfold rule_patterns. intros Hin.
  destruct fem; repeat (destruct Hin as [<- | Hin]); try contradiction; reflexivity.
Qed.

Lemma rule_match_nonempty M : rule_match fem W M -> M <> [].
Proof.
  intros H. apply rule_shape in H as (h & W' & -> & (c0 & ? & ? & ? & ? & ? & -> & _) & _).
  discriminate.
Qed.

Lemma rule_at_start M z post : rule_match fem W M -> R ++ z = M ++ post -> False.
Proof using All.
  intros (p & Hin & Hm) Heq.
  pose proof (lang_hit p M post (rule_nonnull p Hin) Hm) as [n Hn].
  rewrite <- Heq in Hn. clear Heq Hm.
  destruct W as [|cW W0]; [discriminate|]. apply negb_true_iff in W_first.
  unfold match_at, rule_replacement, rule_patterns in *.
  destruct fem; repeat (destruct Hin as [<- | Hin]); try contradiction;
    repeat match type of Hn with
           | context [u ?s] =>
             let v := eval vm_compute in (u s) in change (u s) with v in Hn
           end;
    cbn in Hn; unfold article in W_first; rewrite ?W_first in Hn; discriminate.
Qed.

Lemma rule_inside l1 l2 M z post :
  rule_match fem W M -> R = l1 ++ l2 -> l1 <> [] -> l2 <> [] ->
  l2 ++ z = M ++ post -> False.
Proof using All.
  intros HM HR Hl1 Hl2 Heq.
  apply rule_shape in HM as (h & W' & -> & (c0 & c1 & c2 & c3 & c4 & t & -> & H0 & H1 & H2 & _) & _).
  simpl in Heq.
  destruct replacement_fixed as (x3 & HRf & Hx3). rewrite HRf in HR.
  assert (Hstart : forall l rest, l <> [] -> (exists l', W = l' ++ l) ->
            l ++ z = c0 :: c1 :: c2 :: rest -> False).
  { intros l rest Hl [l' Hl'] Hz. eapply (no_ess_start l z); eauto.
    apply (no_ess_suffix l'). rewrite <- Hl'. exact W_no_ess. }
  destruct l1 as [|a1 l1]; [congruence|].
  repeat (destruct l1 as [|? l1];
          [ simpl in HR; apply cons_inj in HR as [<- <-]; simpl in Heq;
            first [ apply cons_inj in Heq as [<- Heq];
                    first [ vm_compute in H0; discriminate H0
                          | apply cons_inj in Heq as [<- Heq];
                            vm_compute in H1; discriminate H1
                          | destruct fem; vm_compute in H0; discriminate H0 ]
                  | eapply (Hstart W); [exact Hl2 | exists []; reflexivity | exact Heq] ]
          | simpl in HR; apply cons_inj in HR as [<- HR] ]).
  (* the split lies in the word *)
  eapply (Hstart l2); [exact Hl2 | exists (n :: l1); exact HR | exact Heq].
Qed.

(** A match that begins before the replacement ends before it. *)
Lemma rule_running_in y M z post :
  rule_match fem W M -> y <> [] -> y ++ R ++ z = M ++ post -> exists y', y = M ++ y'.
Proof using All.
  intros HM Hy Heq.
  apply List.app_eq_app in Heq as [l [[-> _] | [-> Hl]]]; [eauto|].
  destruct l as [|e l]; [exists []; rewrite !app_nil_r; reflexivity|]. exfalso.
  destruct replacement_fixed as (x3 & HRf & _). rewrite HRf in Hl. simpl in Hl.
  apply cons_inj in Hl as [<- Hl].
  apply rule_shape in HM
    as (h & W' & HhW & (c0 & c1 & c2 & c3 & c4 & t & -> & H0 & H1 & H2 & H4 & Ht) & HW).
  assert (Hword : forall la, W' = la ++ 69 :: l -> False).
  { intros la HW'. rewrite HW' in HW.
    apply Forall2_app_inv_r in HW as (Wa & Wb & _ & HWb & HWeq).
    assert (HnWb : no_ess Wb = true)
      by (apply (no_ess_suffix Wa); rewrite <- HWeq; exact W_no_ess).
    destruct Wb as [|b0 Wb]; [inversion HWb|].
    apply Forall2_cons_1 in HWb as [Hb0 HWb].
    simpl in HnWb. rewrite ieq_sym in Hb0. change (ieq 69 b0) with (elike b0) in Hb0.
    rewrite Hb0 in HnWb. simpl in HnWb.
    destruct Wb as [|b1 Wb]; [discriminate|].
    destruct l as [|e1 l]; [inversion HWb|].
    apply Forall2_cons_1 in HWb as [Hb1 HWb].
    simpl in Hl. apply cons_inj in Hl as [<- Hl].
    rewrite ieq_sym in Hb1. change (ieq 115 b1) with (slike b1) in Hb1.
    rewrite Hb1 in HnWb. simpl in HnWb.
    destruct Wb as [|b2 Wb]; [discriminate|].
    destruct l as [|e2 l]; [inversion HWb|].
    apply Forall2_cons_1 in HWb as [Hb2 HWb].
    simpl in Hl. apply cons_inj in Hl as [<- Hl].
    rewrite ieq_sym in Hb2. change (ieq 115 b2) with (slike b2) in Hb2.
    rewrite Hb2 in HnWb. discriminate. }
  apply List.app_eq_app in HhW as [l2 [[-> Hl2] | [Hh Hl2]]].
  - (* the replacement begins in the word part of the match *)
    exact (Hword l2 Hl2).
  - (* ... or in the part before the word *)
    destruct l2 as [|e' l2]; simpl in Hl2.
    + apply (Hword []). simpl. symmetry. exact Hl2.
    + apply cons_inj in Hl2 as [<- ->].
      destruct y as [|y0 y]; [congruence|]. simpl in Hh.
      apply cons_inj in Hh as [<- Hh].
      destruct y as [|y1 y]; simpl in Hh.
      { apply cons_inj in Hh as [-> _]. vm_compute in H1. discriminate H1. }
      apply cons_inj in Hh as [<- Hh].
      destruct y as [|y2 y]; simpl in Hh.
      { apply cons_inj in Hh as [-> _]. vm_compute in H2. discriminate H2. }
      apply cons_inj in Hh as [<- Hh].
      destruct y as [|y3 y]; simpl in Hh.
      { apply cons_inj in Hh as [_ Hh]. subst l2. simpl in Hl.
        apply cons_inj in Hl as [Hl _]. subst c4. vm_compute in H4. discriminate H4. }
      apply cons_inj in Hh as [<- Hh].
      destruct y as [|y4 y]; simpl in Hh.
      { apply cons_inj in Hh as [-> _]. vm_compute in H4. discriminate H4. }
      apply cons_inj in Hh as [<- Hh].
      rewrite Hh in Ht. apply Forall_app in Ht as [_ Ht].
      apply Forall_cons_1 in Ht as [Ht _]. vm_compute in Ht. discriminate Ht.
Qed.

(** Where a match of a rule lies in the result of a substitution by a
    rule: at a place where it already stood in the text, and where the
    substituted rule does not match. *)
Lemma rule_occurrence p x pre M post :
  rule_match fem W M -> sub p R x = pre ++ M ++ post ->
  exists pre' post', x = pre' ++ M ++ post' /\ ~ hit p (M ++ post').
Proof using All.
  apply (sub_occurrence p R (rule_match fem W)).
  - exact rule_match_nonempty.
  - exact rule_at_start.
  - exact rule_inside.
  - exact rule_running_in.
Qed.

(** A substitution by a rule leaves no match of that rule, and creates no
    match of another. *)
Lemma sub_rule_unhit p q x :
  In p (rule_patterns fem W) -> In q (rule_patterns fem W) ->
  p = q \/ unhit q x -> unhit q (sub p R x).
Proof using All.
  intros Hp Hq H x1 x2 Hx Hhit.
  apply hit_lang in Hhit as (m & post & -> & Hm & _).
  destruct (rule_occurrence p x x1 m post) as (pre' & post' & Hx' & Hnh).
  { exists q. auto. }
  { exact Hx. }
  destruct H as [-> | Hu].
  - apply Hnh. apply lang_hit; auto using rule_nonnull.
  - apply (Hu pre' (m ++ post') Hx'). apply lang_hit; auto using rule_nonnull.
Qed.

Lemma fold_unhit ps :
  incl ps (rule_patterns fem W) ->
  forall q x, In q (rule_patterns fem W) -> In q ps \/ unhit q x ->
  unhit q (fold_left (fun t p => sub p R t) ps x).
Proof using All.
  induction ps as [|p ps IH]; intros Hps q x Hq H; simpl.
  - destruct H as [[] | H]. exact H.
  - assert (Hp : In p (rule_patterns fem W)) by (apply Hps; left; reflexivity).
    assert (Hps' : incl ps (rule_patterns fem W))
      by (intros a Ha; apply Hps; right; exact Ha).
    apply IH; auto.
    destruct H as [[-> | Hin] | Hu].
    + right. apply sub_rule_unhit; auto.
    + left. exact Hin.
    + right. apply sub_rule_unhit; auto.
Qed.

(** After the five substitutions no rule matches. *)
Lemma rules_exhausted x q :
  In q (rule_patterns fem W) ->
  no_match q (fold_left (fun t p => sub p R t) (rule_patterns fem W) x) = true.
Proof using All.
  intros Hq. apply unhit_no_match. apply fold_unhit; auto. apply incl_refl.
Qed.

End SafeWord.

Lemma fold_left_table (R : list N) ps x :
  fold_left (fun t (rule : regex * list N) => sub (fst rule) (snd rule) t)
    (List.map (fun p => (p, R)) ps) x
  = fold_left (fun t p => sub p R t) ps x.
Proof. revert x. induction ps as [|p ps IH]; intros x; simpl; [reflexivity|apply IH]. Qed.

(** Once corrected for a safe word, a text holds no match of a rule. *)
Lemma safe_word_rule_free text word :
  safe_word word = true -> rule_free (_fix_portuguese_grammar text word) word = true.
Proof.
  intros Hs. unfold safe_word in Hs. apply andb_prop in Hs as [H1 H2].
  unfold rule_free, _fix_portuguese_grammar. rewrite patterns_to_fix_table.
  rewrite fold_left_table. apply forallb_forall. intros rule Hin.
  apply in_map_iff in Hin as (q & <- & Hq). cbn [fst].
  apply rules_exhausted; auto.
Qed.

(** For any word: correcting twice equals correcting once whenever the
    corrected text holds no further match of a rule. *)
Lemma fix_idempotent_when_rule_free text word :
  rule_free (_fix_portuguese_grammar text word) word = true ->
  _fix_portuguese_grammar (_fix_portuguese_grammar text word) word
  = _fix_portuguese_grammar text word.
Proof. apply fix_rule_free. Qed.

(** The correction stays in the range of the model: what it writes into a
    text is the replacement, which for a [plain_word] has none of the code
    points [folds_exactly] excludes. *)
Section RangeFacts.

Lemma sub_go_chars r repl s skip c :
  In c (sub_go r repl s skip) -> In c s \/ In c repl.
Proof.
  revert skip. induction s as [|d s IH]; intros skip; cbn [sub_go]; [tauto|].
  destruct skip as [|n].
  - destruct (match_at r (d :: s)) as [[|m]|].
    + intros [<-|H]; [left; left; reflexivity|].
      apply IH in H as [H|H]; [left; right; exact H | right; exact H].
    + intros H. apply in_app_or in H as [H|H]; [right; exact H|].
      apply IH in H as [H|H]; [left; right; exact H | right; exact H].
    + intros [<-|H]; [left; left; reflexivity|].
      apply IH in H as [H|H]; [left; right; exact H | right; exact H].
  - intros H. apply IH in H as [H|H]; [left; right; exact H | right; exact H].
Qed.

Lemma folds_exactly_sub r repl s :
  folds_exactly s = true -> folds_exactly repl = true ->
  folds_exactly (sub r repl s) = true.
Proof.
  unfold folds_exactly. rewrite !forallb_forall. intros Hs Hr c Hc.
  apply sub_go_chars in Hc as [Hc|Hc]; auto.
Qed.

Lemma folds_exactly_app s t :
  folds_exactly (s ++ t) = folds_exactly s && folds_exactly t.
Proof. apply forallb_app. Qed.

Lemma folds_exactly_upper word : latin1 word = true -> folds_exactly (upper word) = true.
Proof.
  unfold latin1, upper. induction word as [|c word IH]; [reflexivity|].
  cbn [forallb List.map concat]. intros H. apply andb_true_iff in H as [Hc Hw].
  rewrite folds_exactly_app, (IH Hw), andb_true_r.
  apply N.ltb_lt in Hc. unfold upper_char.
  repeat match goal with |- context [if ?b then _ else _] => destruct b end;
    try reflexivity;
    unfold folds_exactly; cbn [forallb]; rewrite andb_true_r; apply negb_true_iff;
    repeat (apply orb_false_intro); apply N.eqb_neq; lia.
Qed.

Lemma folds_exactly_fix text word :
  folds_exactly text = true -> plain_word word = true ->
  folds_exactly (_fix_portuguese_grammar text word) = true.
Proof.
  intros Ht Hw. apply andb_true_iff in Hw as [Hw _].
  unfold _fix_portuguese_grammar. rewrite patterns_to_fix_table, fold_left_table.
  assert (HR : folds_exactly
                 (rule_replacement (endswith (lower word) (u "a")) (upper word)) = true).
  { unfold rule_replacement. rewrite !folds_exactly_app, (folds_exactly_upper word Hw).
    destruct (endswith (lower word) (u "a")); reflexivity. }
  revert HR Ht. generalize (rule_replacement (endswith (lower word) (u "a")) (upper word)).
  generalize (rule_patterns (endswith (lower word) (u "a")) (upper word)).
  intros ps R HR. revert text.
  induction ps as [|p ps IH]; intros text Ht; cbn [fold_left]; [exact Ht|].
  apply IH. apply folds_exactly_sub; assumption.
Qed.

End RangeFacts.

(** C8 (as amended). Correcting a text twice equals correcting it once
    for a safe word, on every text (a safe word: its upper-cased form is not
    empty, does not begin with the letter of the correct article, and has no
    [E] that is last, followed by a last [S], or followed by [SS]), and for
    any word whenever the text corrected once holds no further match of a
    rule. This is for the words and texts on which the correction is what
    the model takes it to be: a word of Latin-1 without a backslash, a text
    without the six code points that [folds_exactly] excludes, be it with
    emoji; the corrected text is such a text again. (For other words
    correction may not be idempotent: the rules carry no word boundaries,
    and the replacement can itself start a match.) *)
Theorem fix_portuguese_grammar_idempotent_safe_word (text word : list N) :
  folds_exactly text = true -> plain_word word = true ->
  folds_exactly (_fix_portuguese_grammar text word) = true
  /\ (safe_word word = true ->
      _fix_portuguese_grammar (_fix_portuguese_grammar text word) word
      = _fix_portuguese_grammar text word)
  /\ (rule_free (_fix_portuguese_grammar text word) word = true ->
      _fix_portuguese_grammar (_fix_portuguese_grammar text word) word
      = _fix_portuguese_grammar text word).
Proof.
  intros Ht Hw. split; [apply folds_exactly_fix; assumption|]. split.
  - intros Hs. apply fix_idempotent_when_rule_free. apply safe_word_rule_free. exact Hs.
  - apply fix_idempotent_when_rule_free.
Qed.

(** C8, witness: the scenario of the design document, in a reply as the
    prompt asks for it, with an emoji. *)
Lemma fix_portuguese_grammar_idempotent_witness :
  _fix_portuguese_grammar
    (_fix_portuguese_grammar (u "Olá! 📚 Esse é a MESA") (u "mesa")) (u "mesa")
  = _fix_portuguese_grammar (u "Olá! 📚 Esse é a MESA") (u "mesa").
Proof.
  apply (proj1 (proj2 (fix_portuguese_grammar_idempotent_safe_word
                         (u "Olá! 📚 Esse é a MESA") (u "mesa")
                         ltac:(vm_compute; reflexivity) ltac:(vm_compute; reflexivity)))).
  vm_compute. reflexivity.
Defined.

(** C8, counterexample: the word [a]. Its upper-cased form [A] matches the
    article of the corrected phrase, so the last rule
    ([(Essa|Esse)\s+é\s+A]) finds [Essa é a] again in every result and
    inserts another [a A]. *)
Lemma fix_portuguese_grammar_not_idempotent :
  _fix_portuguese_grammar (u "Essa é a") (u "a") = u "Essa é a A"
  /\ _fix_portuguese_grammar (_fix_portuguese_grammar (u "Essa é a") (u "a")) (u "a")
     = u "Essa é a A A"
  /\ _fix_portuguese_grammar (_fix_portuguese_grammar (u "Essa é a") (u "a")) (u "a")
     <> _fix_portuguese_grammar (u "Essa é a") (u "a").
Proof. vm_compute. repeat split; discriminate. Qed.

(** The same with an everyday word ([doce]) and a text where the corrected
    phrase ends inside the next one. *)
Example fix_not_idempotent_doce :
  _fix_portuguese_grammar (u "Essa é o docEssa é o doce") (u "doce")
  = u "Esse é o DOCEssa é o doce"
  /\ _fix_portuguese_grammar (u "Esse é o DOCEssa é o doce") (u "doce")
     = u "Esse é o DOCEsse é o DOCE".
Proof. vm_compute. split; reflexivity. Qed.

(** Safe words, and the two words above, which are not. *)
Example safe_word_examples :
  List.map safe_word [u "mesa"; u "sofá"; u "cadeira"; u "espelho"; u "a"; u "doce"]
  = [true; true; true; true; false; false].
Proof. vm_compute. reflexivity. Qed.

(** ** Cache keys of the Edge service *)

Section KeyFacts.

Lemma utf8_digits c :
  c = 64 * (c / 64) + c mod 64 /\ c mod 64 < 64
  /\ c / 64 = 64 * (c / 4096) + (c / 64) mod 64 /\ (c / 64) mod 64 < 64
  /\ c / 4096 = 64 * (c / 262144) + (c / 4096) mod 64 /\ (c / 4096) mod 64 < 64.
Proof.
  assert (H64 : 64 <> 0) by discriminate.
  pose proof (N.div_mod c 64 H64). pose proof (N.mod_lt c 64 H64).
  pose proof (N.div_mod (c / 64) 64 H64). pose proof (N.mod_lt (c / 64) 64 H64).
  pose proof (N.div_mod (c / 4096) 64 H64). pose proof (N.mod_lt (c / 4096) 64 H64).
  assert (E1 : c / 64 / 64 = c / 4096) by (rewrite N.Div0.div_div; reflexivity).
  assert (E2 : c / 4096 / 64 = c / 262144) by (rewrite N.Div0.div_div; reflexivity).
  rewrite E1 in *. rewrite E2 in *. repeat split; assumption.
Qed.

Lemma encode_char_inj_app c1 c2 (e1 e2 : list N) :
  encode_char c1 ++ e1 = encode_char c2 ++ e2 -> c1 = c2 /\ e1 = e2.
Proof.
  pose proof (utf8_digits c1) as (? & ? & ? & ? & ? & ?).
  pose proof (utf8_digits c2) as (? & ? & ? & ? & ? & ?).
  unfold encode_char.
  destruct (N.ltb_spec c1 128); destruct (N.ltb_spec c2 128);
    destruct (N.ltb_spec c1 2048); destruct (N.ltb_spec c2 2048);
    destruct (N.ltb_spec c1 65536); destruct (N.ltb_spec c2 65536);
    simpl; intros Heq; injection Heq; intros; split; try assumption; lia.
Qed.

(** UTF-8 encoding is injective. *)
Lemma encode_inj (a b : list N) : encode a = encode b -> a = b.
Proof.
  revert b. induction a as [|c a IH]; intros [|d b] H.
  - reflexivity.
  - exfalso. unfold encode in H. simpl in H. unfold encode_char in H.
    repeat match type of H with context [if ?c then _ else _] => destruct c end;
      discriminate.
  - exfalso. unfold encode in H. simpl in H. unfold encode_char in H.
    repeat match type of H with context [if ?c then _ else _] => destruct c end;
      discriminate.
  - unfold encode in H. simpl in H. apply encode_char_inj_app in H as [-> H].
    f_equal. apply IH. exact H.
Qed.

End KeyFacts.

Example edge_default_init : __init__ (u "./audio_cache_pt") true = Return edge_default.
Proof. reflexivity. Qed.

Section EdgeKeyFacts.

Variable self : EdgeTTSService.

Lemma key_text_one_differs (t1 v1 r1 t2 v2 r2 : list N) :
  (t1 <> t2 /\ v1 = v2 /\ r1 = r2) \/ (t1 = t2 /\ v1 <> v2 /\ r1 = r2)
  \/ (t1 = t2 /\ v1 = v2 /\ r1 <> r2) ->
  key_text t1 v1 r1 <> key_text t2 v2 r2.
Proof.
  unfold key_text.
  intros [(Ht & -> & ->) | [(-> & Hv & ->) | (-> & -> & Hr)]] Heq.
  - apply Ht. eapply app_inv_tail. exact Heq.
  - apply Hv. apply app_inv_head in Heq. apply app_inv_head in Heq.
    eapply app_inv_tail. exact Heq.
  - apply Hr. repeat apply app_inv_head in Heq. exact Heq.
Qed.

Lemma cache_path_eq_iff (t1 v1 r1 t2 v2 r2 : list N) :
  _get_cache_path self t1 v1 r1 = _get_cache_path self t2 v2 r2
  <-> MD5.hexdigest (encode (key_text t1 v1 r1)) = MD5.hexdigest (encode (key_text t2 v2 r2)).
Proof.
  unfold _get_cache_path.
  generalize (MD5.hexdigest (encode (key_text t1 v1 r1))) as h1.
  generalize (MD5.hexdigest (encode (key_text t2 v2 r2))) as h2.
  intros h2 h1. split.
  - intros H. apply (f_equal snd) in H. cbn [snd] in H.
    apply app_inv_head in H. eapply app_inv_tail. exact H.
  - intros ->. reflexivity.
Qed.

End EdgeKeyFacts.

(** C5 (as amended). The key of an Edge request is the digest of
    [text_voice_rate], where the voice is the one given or else the default
    of the language, and the rate is the entry of the speed in the rate
    table ([+0%] for a speed the table does not list). When exactly one of
    these three differs between two requests, the byte strings digested
    differ, and the cache paths are equal only if MD5 collides on them. *)
Theorem edge_key_sensitivity (self : EdgeTTSService)
    (t1 l1 : list N) (v1 : option (list N)) (s1 : list N)
    (t2 l2 : list N) (v2 : option (list N)) (s2 : list N) :
  let k1 := key_text t1 (resolve_voice self l1 v1) (resolve_rate s1) in
  let k2 := key_text t2 (resolve_voice self l2 v2) (resolve_rate s2) in
  ((t1 <> t2 /\ resolve_voice self l1 v1 = resolve_voice self l2 v2
             /\ resolve_rate s1 = resolve_rate s2)
   \/ (t1 = t2 /\ resolve_voice self l1 v1 <> resolve_voice self l2 v2
              /\ resolve_rate s1 = resolve_rate s2)
   \/ (t1 = t2 /\ resolve_voice self l1 v1 = resolve_voice self l2 v2
              /\ resolve_rate s1 <> resolve_rate s2) ->
   encode k1 <> encode k2)
  /\ (request_key self t1 l1 v1 s1 = request_key self t2 l2 v2 s2
      <-> MD5.hexdigest (encode k1) = MD5.hexdigest (encode k2)).
Proof.
  intros k1 k2. split.
  - intros H Heq. apply encode_inj in Heq. revert Heq.
    apply key_text_one_differs. exact H.
  - apply cache_path_eq_iff.
Qed.

(** C5, witness: two requests that differ in the text only. *)
Lemma edge_key_sensitivity_witness :
  encode (key_text (u "Hello") (resolve_voice edge_default (u "en-US") None) (resolve_rate (u "slow")))
  <> encode (key_text (u "Hullo") (resolve_voice edge_default (u "en-US") None) (resolve_rate (u "slow"))).
Proof.
  apply (proj1 (edge_key_sensitivity edge_default
                  (u "Hello") (u "en-US") None (u "slow")
                  (u "Hullo") (u "en-US") None (u "slow"))).
  left. split; [intros H; vm_compute in H; discriminate H | split; reflexivity].
Defined.

(** C5, counterexample: requests that differ only in the language, the
    voice being given, or only in the speed, neither speed being [slow] or
    [fast], have the same key. *)
Lemma edge_key_insensitive :
  (u "pt-BR" <> u "en-US"
   /\ request_key edge_default (u "Hello") (u "pt-BR") (Some (u "V1")) (u "normal")
      = request_key edge_default (u "Hello") (u "en-US") (Some (u "V1")) (u "normal"))
  /\ (u "normal" <> u "medium"
      /\ request_key edge_default (u "Hello") (u "pt-BR") (Some (u "V1")) (u "normal")
         = request_key edge_default (u "Hello") (u "pt-BR") (Some (u "V1")) (u "medium")).
Proof.
  split; (split; [intros H; vm_compute in H; discriminate H | reflexivity]).
Qed.

(** ** The Edge service and its cache *)

Section EdgeFacts.

Implicit Types (w : world) (p : path) (run : engine_run).

Lemma is_cached_st_size w p :
  _is_cached w p = true -> exists n, st_size w p = Some n.
Proof.
  unfold _is_cached, st_size. destruct (files w !! p) as [b|]; [|discriminate].
  intros _. exists (length b). reflexivity.
Qed.

Lemma run_engine_files run p w :
  files (run_engine run p w)
  = match written run with
    | Some bytes => <[p := bytes]> (files w)
    | None => files w
    end.
Proof. reflexivity. Qed.

(** What a run leaves at the path it was given. *)
Lemma is_cached_run_engine run p w :
  _is_cached (run_engine run p w) p
  = match written run with
    | Some bytes => (0 <? length bytes)%nat
    | None => _is_cached w p
    end.
Proof.
  unfold _is_cached. rewrite run_engine_files.
  destruct (written run) as [b|]; [|reflexivity].
  rewrite lookup_insert_eq. reflexivity.
Qed.

(** A result, cached or fresh, means a non-empty file at the key's path. *)
Lemma generate_speech_some av self text language voice speed uc run e w s w' :
  generate_speech av self text language voice speed uc run e w = (Some s, w') ->
  av = true
  /\ _is_cached w' (request_key self text language voice speed) = true
  /\ audio_path s = request_key self text language voice speed
  /\ audio_url s = u "/audio_cache_pt/" ++ name (request_key self text language voice speed)
  /\ st_size w' (request_key self text language voice speed) = Some (file_size s)
  /\ (cached s = true -> w' = w)
  /\ (cached s = false ->
      w' = run_engine run (request_key self text language voice speed) w).
Proof.
  unfold generate_speech, request_key.
  set (p := _get_cache_path self text _ _).
  destruct av; simpl; [|discriminate].
  destruct (uc && _is_cached w p) eqn:Hhit.
  - apply andb_true_iff in Hhit as [_ Hc].
    destruct (st_size w p) as [n|] eqn:Hn; simpl; [|discriminate].
    intros H. injection H as <- <-. simpl. repeat split; auto; discriminate.
  - unfold _generate_async.
    destruct (how run);
      try (simpl; intros H; discriminate H).
    destruct (_is_cached (run_engine run p w) p) eqn:Hc; simpl; [|discriminate].
    destruct (st_size (run_engine run p w) p) as [n|] eqn:Hn; simpl; [|discriminate].
    intros H. injection H as <- <-. simpl. repeat split; auto; discriminate.
Qed.

End EdgeFacts.

(** C2. After a call of [generate_speech] that returned a result, a second
    call with the same text, language, voice and speed (and the cache in
    use, as by default) returns a result marked as cached, with the same
    [audio_url] and path and the same file behind it; the world is left as
    it was, whatever the engine would have done: it is not run (the count of
    invocations does not move). *)
Theorem edge_second_call_is_cached
    (av : bool) (self : EdgeTTSService) (text language : list N)
    (voice : option (list N)) (speed : list N) (use_cache : bool)
    (run1 run2 : engine_run) (e1 e2 : Z) (w w1 : world) (s1 : speech) :
  generate_speech av self text language voice speed use_cache run1 e1 w = (Some s1, w1) ->
  exists s2 w2,
    generate_speech av self text language voice speed true run2 e2 w1 = (Some s2, w2)
    /\ cached s2 = true
    /\ audio_url s2 = audio_url s1
    /\ audio_path s2 = audio_path s1
    /\ file_size s2 = file_size s1
    /\ files w2 !! audio_path s2 = files w1 !! audio_path s1
    /\ invocations w2 = invocations w1
    /\ w2 = w1.
Proof.
  intros H.
  apply generate_speech_some in H as (-> & Hc & Hp & Hu & Hs & _ & _).
  unfold generate_speech. simpl.
  fold (request_key self text language voice speed).
  rewrite Hc, Hs. simpl.
  eexists. eexists. split; [reflexivity|]. simpl.
  rewrite Hp, Hu. repeat split; reflexivity.
Qed.

Example hello_first_call :
  generate_speech true edge_default (u "Hello") (u "pt-BR") (Some (u "V1")) (u "normal")
    true three_bytes 120 empty_world
  = (Some hello_speech, run_engine three_bytes hello_key empty_world).
Proof. vm_compute. reflexivity. Qed.

(** C2, witness. *)
Lemma edge_second_call_is_cached_witness :
  exists s2 w2,
    generate_speech true edge_default (u "Hello") (u "pt-BR") (Some (u "V1")) (u "normal")
      true {| written := None; how := Crashed |} 1
      (run_engine three_bytes hello_key empty_world) = (Some s2, w2)
    /\ cached s2 = true
    /\ audio_url s2 = audio_url hello_speech
    /\ audio_path s2 = audio_path hello_speech
    /\ file_size s2 = file_size hello_speech
    /\ files w2 !! audio_path s2
       = files (run_engine three_bytes hello_key empty_world) !! audio_path hello_speech
    /\ invocations w2 = invocations (run_engine three_bytes hello_key empty_world)
    /\ w2 = run_engine three_bytes hello_key empty_world.
Proof.
  apply (edge_second_call_is_cached true edge_default (u "Hello") (u "pt-BR")
           (Some (u "V1")) (u "normal") true three_bytes _ 120 1 empty_world).
  vm_compute. reflexivity.
Defined.

(** ** Failed speech generations *)

Section FailedRuns.

Implicit Types (w : world) (p : path) (run : engine_run).

Lemma is_cached_after_run run p w :
  (_is_cached w p = false -> written run = None \/ written run = Some [] ->
   _is_cached (run_engine run p w) p = false)
  /\ (forall bytes, written run = Some bytes -> bytes <> [] ->
      _is_cached (run_engine run p w) p = true).
Proof.
  rewrite is_cached_run_engine. split.
  - intros Hw [-> | ->]; [exact Hw | reflexivity].
  - intros bytes -> Hb. destruct bytes; [congruence | reflexivity].
Qed.

Lemma edge_generate_speech_none av self text language voice speed uc run e w w' :
  generate_speech av self text language voice speed uc run e w = (None, w') ->
  (av = false /\ w' = w)
  \/ (av = true /\ w' = run_engine run (request_key self text language voice speed) w
      /\ (how run <> Completed
          \/ _is_cached (run_engine run (request_key self text language voice speed) w)
               (request_key self text language voice speed) = false)).
Proof.
  unfold generate_speech, request_key.
  set (p := _get_cache_path self text _ _).
  destruct av; simpl; [|intros H; injection H as <-; left; auto].
  destruct (uc && _is_cached w p) eqn:Hhit.
  - apply andb_true_iff in Hhit as [_ Hc].
    destruct (is_cached_st_size w p Hc) as [n ->]. simpl. discriminate.
  - unfold _generate_async. right. split; [reflexivity|].
    destruct (how run) eqn:Hhow; simpl in H;
      try (injection H as <-; split; [reflexivity | left; discriminate]).
    destruct (_is_cached (run_engine run p w) p) eqn:Hc; simpl in H.
    + destruct (is_cached_st_size _ p Hc) as [n Hn]. rewrite Hn in H. discriminate.
    + injection H as <-. split; [reflexivity | right; reflexivity].
Qed.

Lemma piper_cache_path_download self models text speed_text :
  PiperTTS._get_cache_path (snd (PiperTTS.download_model self models)) text speed_text
  = PiperTTS._get_cache_path self text speed_text.
Proof. destruct models; reflexivity. Qed.

Lemma piper_generate_speech_none self text speed_text uc models run e w self' w' :
  PiperTTS.generate_speech self text speed_text uc models run e w = (None, self', w') ->
  (w' = w /\ (PiperTTS.piper_executable self = None
             \/ (PiperTTS.model_path self = None /\ models = [])))
  \/ (w' = run_engine run (PiperTTS._get_cache_path self text speed_text) w
      /\ (how run <> Completed
          \/ st_size (run_engine run (PiperTTS._get_cache_path self text speed_text) w)
               (PiperTTS._get_cache_path self text speed_text) = None)).
Proof.
  unfold PiperTTS.generate_speech.
  destruct (PiperTTS.piper_executable self) as [exe|];
    [|intros [= <- <-]; left; auto].
  destruct (PiperTTS.model_path self) as [m|] eqn:Hm; [|destruct models as [|m models]];
    cbn; try (intros [= <- <-]; left; auto; fail).
  all: change (PiperTTS._get_cache_path _ text speed_text)
         with (PiperTTS._get_cache_path self text speed_text).
  all: destruct (uc && _is_cached w _); [discriminate|].
  all: destruct (how run) eqn:Hhow;
         try (intros [= <- <-]; right; split; [reflexivity | left; discriminate]).
  all: destruct (st_size _ _) eqn:Hs; [discriminate|].
  all: intros [= <- <-]; right; split; [reflexivity | right; reflexivity].
Qed.

End FailedRuns.

(** C3 (as amended). A generation that fails returns no result, and the
    service writes nothing of its own: the world is the one it found, or the
    one the engine run left. The engines write straight to the cache path
    and nothing removes what a failed run leaves there, so the lookup that
    follows is not-found when the run left no file or an empty one (the key
    not being cached before), and found when it left a non-empty file. This
    holds for the Edge and the Piper service. *)
Theorem failed_generation_cache_state :
  (forall av self text language voice speed uc run e w w',
      generate_speech av self text language voice speed uc run e w = (None, w') ->
      let p := request_key self text language voice speed in
      (w' = w \/ w' = run_engine run p w)
      /\ (_is_cached w p = false -> written run = None \/ written run = Some [] ->
          _is_cached w' p = false)
      /\ (av = true -> forall bytes, written run = Some bytes -> bytes <> [] ->
          _is_cached w' p = true))
  /\ (forall self text speed_text uc models run e w self' w',
      PiperTTS.generate_speech self text speed_text uc models run e w = (None, self', w') ->
      let p := PiperTTS._get_cache_path self text speed_text in
      (w' = w \/ w' = run_engine run p w)
      /\ (_is_cached w p = false -> written run = None \/ written run = Some [] ->
          _is_cached w' p = false)
      /\ (PiperTTS.piper_executable self <> None ->
          PiperTTS.model_path self <> None \/ models <> [] ->
          forall bytes, written run = Some bytes -> bytes <> [] ->
          _is_cached w' p = true)).
Proof.
  split.
  - intros av self text language voice speed uc run e w w' H p.
    apply edge_generate_speech_none in H as [[-> ->] | (-> & -> & _)]; fold p.
    + repeat split; auto. discriminate.
    + split; [auto|]. split.
      * apply is_cached_after_run.
      * intros _. apply is_cached_after_run.
  - intros self text speed_text uc models run e w self' w' H p.
    apply piper_generate_speech_none in H as [[-> Hno] | (-> & _)]; fold p.
    + split; [auto|]. split; [auto|].
      intros Hexe Hmod. destruct Hno as [Hno | [Hno ->]]; [congruence|].
      destruct Hmod; congruence.
    + split; [auto|]. split.
      * apply is_cached_after_run.
      * intros _ _. apply is_cached_after_run.
Qed.

(** C3, witness: an Edge run that crashes before it writes. *)
Lemma failed_generation_cache_state_witness :
  _is_cached (run_engine {| written := None; how := Crashed |} hello_key empty_world)
    hello_key = false.
Proof.
  refine (proj1 (proj2 (proj1 failed_generation_cache_state true edge_default
            (u "Hello") (u "pt-BR") (Some (u "V1")) (u "normal") true
            {| written := None; how := Crashed |} 0%Z empty_world
            (run_engine {| written := None; how := Crashed |} hello_key empty_world)
            _)) _ _).
  - vm_compute. reflexivity.
  - reflexivity.
  - left. reflexivity.
Defined.

(** C3, counterexample: an Edge run that crashes and a Piper run that times
    out, each after three bytes were written. The call returns no result,
    and the lookup of the same key then finds the partial file. *)
Lemma failed_generation_populates_cache :
  (let r := generate_speech true edge_default (u "Hello") (u "pt-BR") (Some (u "V1"))
              (u "normal") true {| written := Some [73; 68; 51]; how := Crashed |} 0
              empty_world in
   fst r = None /\ _is_cached (snd r) hello_key = true)
  /\ (let r := PiperTTS.generate_speech piper_ready (u "Hello") (u "1.0") true []
                 {| written := Some [82; 73; 70]; how := TimedOut |} 0 empty_world in
      fst (fst r) = None
      /\ _is_cached (snd r) (PiperTTS._get_cache_path piper_ready (u "Hello") (u "1.0")) = true).
Proof. vm_compute. repeat split; reflexivity. Qed.

(** ** The singleton accessor *)

(** C10. Once [get_edge_tts] has returned an instance, every later call
    returns that same instance and leaves the globals as they are, whatever
    [cache_dir] it is given; the instance created by the first call keeps
    the [cache_dir] of that call; and a [BrazilianTTSService] initialised
    afterwards gets this instance, whatever its own [cache_dir]. *)
Theorem get_edge_tts_singleton
    (cache_dir0 : list N) (mkdir_ok0 : bool) (g g1 : globals) (ref : nat) :
  get_edge_tts cache_dir0 mkdir_ok0 g = (Return ref, g1) ->
  (forall cache_dir mkdir_ok, get_edge_tts cache_dir mkdir_ok g1 = (Return ref, g1))
  /\ (forall calls,
      get_edge_tts_calls calls g1 = (List.map (fun _ => Return ref) calls, g1))
  /\ (_edge_tts_instance g = None ->
      exists service, objects g1 !! ref = Some service
                      /\ EdgeTTS.cache_dir service = cache_dir0)
  /\ (forall self edge_mkdir_ok,
      BrazilianTTS._initialize_tts self edge_mkdir_ok g1
      = ({| BrazilianTTS.cache_dir := BrazilianTTS.cache_dir self;
            BrazilianTTS.tts := Some ref;
            BrazilianTTS.model_name := BrazilianTTS.model_name self |}, g1)).
Proof.
  intros H.
  assert (Hinst : _edge_tts_instance g1 = Some ref).
  { unfold get_edge_tts in H. destruct (_edge_tts_instance g) eqn:Hg.
    - injection H as <- <-. exact Hg.
    - destruct (__init__ cache_dir0 mkdir_ok0); [|discriminate].
      injection H as <- <-. reflexivity. }
  assert (Hagain : forall cache_dir mkdir_ok,
            get_edge_tts cache_dir mkdir_ok g1 = (Return ref, g1)).
  { intros. unfold get_edge_tts. rewrite Hinst. reflexivity. }
  split; [exact Hagain|]. split; [|split].
  - induction calls as [|[d ok] calls IH]; simpl; [reflexivity|].
    rewrite Hagain, IH. reflexivity.
  - intros Hnone. unfold get_edge_tts in H. rewrite Hnone in H.
    unfold __init__ in H. destruct mkdir_ok0; [|discriminate].
    injection H as <- <-. eexists. split.
    + simpl. rewrite lookup_app_r, Nat.sub_diag; [reflexivity | lia].
    + reflexivity.
  - intros self ok. unfold BrazilianTTS._initialize_tts. rewrite Hagain. reflexivity.
Qed.

(** C10, witness: a first call with one directory, then calls with
    others. *)
Lemma get_edge_tts_singleton_witness :
  get_edge_tts_calls [(u "./other", true); (u "/tmp/x", false)]
    (snd (get_edge_tts (u "./audio_cache_pt") true no_globals))
  = ([Return 0%nat; Return 0%nat], snd (get_edge_tts (u "./audio_cache_pt") true no_globals)).
Proof.
  apply (proj1 (proj2 (get_edge_tts_singleton (u "./audio_cache_pt") true no_globals
                         (snd (get_edge_tts (u "./audio_cache_pt") true no_globals))
                         0%nat eq_refl))
           [(u "./other", true); (u "/tmp/x", false)]).
Defined.

(** ** The text capabilities *)

Section FallbackFacts.

Implicit Types (word translation game_type : list N).

Lemma slice_to_length {A} (n : Z) (l : list A) :
  length (slice_to n l)
  = if (0 <=? n)%Z then Nat.min (Z.to_nat n) (length l)
    else (length l - Z.to_nat (- n))%nat.
Proof.
  unfold slice_to. destruct (0 <=? n)%Z; rewrite length_take; lia.
Qed.

Lemma fallback_phrases_length word translation difficulty :
  length (fallback_phrases word translation difficulty) = 3%nat.
Proof. reflexivity. Qed.



(** The related words of any word start with an entry that has both keys
    and a non-empty English word. *)
Lemma related_word_first word :
  exists c en pt,
    first (get_default related_vocab (lower word)
             [vocab "part" "parte"; vocab "use" "usar"; vocab "object" "objeto"])
    = Return [(u "en", c :: en); (u "pt", pt)].
Proof.
  unfold related_vocab, get_default.
  destruct (str_eqb (lower word) (u "sofa"));
    [eexists _, _, _; vm_compute; reflexivity|].
  destruct (str_eqb (lower word) (u "table"));
    [eexists _, _, _; vm_compute; reflexivity|].
  destruct (str_eqb (lower word) (u "tv"));
    eexists _, _, _; vm_compute; reflexivity.
Qed.




End FallbackFacts.

(** C7 (as amended). When the backend of the contextual phrases returns a
    fenced block whose body is not JSON, the call returns the fallback
    artifact (a dictionary with the phrases and a generation time of zero,
    nothing of it read from or written to a cache), and the phrase list is
    the slice [fallback_phrases[:num_phrases]] of the three-entry fallback
    table: truncated to the number asked for, never padded. Its length is
    the number asked for only when that is 0, 1, 2 or 3. *)
Theorem phrases_fenced_invalid_falls_back
    (word translation : list N) (difficulty num_phrases elapsed : Z) :
  (1 <= difficulty <= 3)%Z ->
  generate_contextual_phrases word translation difficulty num_phrases
    (Reply fenced_invalid) elapsed
  = Return (JObj [ (u "phrases",
                    JArr (slice_to num_phrases (fallback_phrases word translation difficulty)));
                   (u "generation_time_ms", JInt 0) ])
  /\ generate_contextual_phrases word translation difficulty num_phrases
       (Reply fenced_invalid) elapsed
     = Return (_get_fallback_phrases word translation difficulty num_phrases)
  /\ Z.of_nat (length (slice_to num_phrases (fallback_phrases word translation difficulty)))
     = (if (0 <=? num_phrases)%Z then Z.min num_phrases 3 else Z.max 0 (3 + num_phrases))%Z
  /\ (Z.of_nat (length (slice_to num_phrases (fallback_phrases word translation difficulty)))
      = num_phrases
      <-> (0 <= num_phrases <= 3)%Z).
Proof.
  intros Hd.
  assert (Hgen : generate_contextual_phrases word translation difficulty num_phrases
                   (Reply fenced_invalid) elapsed
                 = Return (_get_fallback_phrases word translation difficulty num_phrases)).
  { unfold generate_contextual_phrases, complexity_guide.
    assert (Hcases : difficulty = 1%Z \/ difficulty = 2%Z \/ difficulty = 3%Z) by lia.
    destruct Hcases as [-> | [-> | ->]]; reflexivity. }
  assert (Hlen : Z.of_nat (length (slice_to num_phrases
                                     (fallback_phrases word translation difficulty)))
                 = (if (0 <=? num_phrases)%Z then Z.min num_phrases 3
                    else Z.max 0 (3 + num_phrases))%Z).
  { rewrite slice_to_length, fallback_phrases_length.
    destruct (0 <=? num_phrases)%Z eqn:E; lia. }
  split; [exact Hgen|]. split; [exact Hgen|]. split; [exact Hlen|].
  rewrite Hlen. destruct (0 <=? num_phrases)%Z eqn:E; lia.
Qed.

(** C7, witness: three phrases asked for, at difficulty 1. *)
Lemma phrases_fenced_invalid_witness :
  generate_contextual_phrases (u "sofa") (u "sofá") 1 3 (Reply fenced_invalid) 250
  = Return (_get_fallback_phrases (u "sofa") (u "sofá") 1 3).
Proof.
  apply (proj1 (proj2 (phrases_fenced_invalid_falls_back (u "sofa") (u "sofá") 1 3 250
                         ltac:(lia)))).
Defined.

(** C7, counterexample: five phrases asked for (the request schema allows
    up to ten), three returned. *)
Lemma phrases_fenced_invalid_not_padded :
  exists phrases,
    generate_contextual_phrases (u "sofa") (u "sofá") 1 5 (Reply fenced_invalid) 250
    = Return (JObj [ (u "phrases", JArr phrases); (u "generation_time_ms", JInt 0) ])
    /\ length phrases = 3%nat
    /\ Z.of_nat (length phrases) <> 5%Z.
Proof. eexists. split; [reflexivity|]. split; [reflexivity|]. discriminate. Qed.


Example fallback_game_missing_letters :
  _get_fallback_game (u "missing_letters") (u "Sofa") (u "sofá")
  = Return (JObj [ (u "game_type", JStr (u "missing_letters"));
                   (u "word", JStr (u "cushion"));
                   (u "translation", JStr (u "almofada"));
                   (u "pattern", JStr (u "c_____n"));
                   (u "hint", JStr (u "Relacionado ao sofá"));
                   (u "missing_letters",
                    JArr [JStr (u "u"); JStr (u "s"); JStr (u "h"); JStr (u "i"); JStr (u "o")]);
                   (u "category", JStr (u "Relacionado a sofá"));
                   (u "difficulty", JStr (u "easy"));
                   (u "generation_time_ms", JInt 0) ]).
Proof. vm_compute. reflexivity. Qed.

(** ** Fenced payloads *)

Section FencedFacts.

Implicit Types (payload s : list N).

(** No JSON text begins with a backquote. *)
Lemma loads_backquote s : loads (96 :: s) = None.
Proof. reflexivity. Qed.

Lemma fenced_head payload : exists s, fenced payload = 96 :: s.
Proof. eexists. reflexivity. Qed.

Lemma fenced_rev_head payload : exists s, rev (fenced payload) = 96 :: s.
Proof.
  unfold fenced. rewrite !rev_app_distr. eexists. reflexivity.
Qed.

Lemma strip_fenced payload : strip (fenced payload) = fenced payload.
Proof.
  apply stripped_strip. split.
  - destruct (fenced_head payload) as [s ->]. reflexivity.
  - unfold rstrip. destruct (fenced_rev_head payload) as [s Hs]. rewrite Hs.
    change (lstrip (96 :: s)) with (96 :: s). rewrite <- Hs. apply rev_involutive.
Qed.

(** On the paths that only trim the reply, a fenced payload never decodes. *)
Lemma loads_strip_fenced payload : loads (strip (fenced payload)) = None.
Proof.
  rewrite strip_fenced. destruct (fenced_head payload) as [s ->]. apply loads_backquote.
Qed.

Lemma startswith_self s t : startswith (s ++ t) s = true.
Proof.
  induction s as [|c s IH]; simpl; [reflexivity|].
  rewrite N.eqb_refl. exact IH.
Qed.

Lemma endswith_self s t : endswith (t ++ s) s = true.
Proof. unfold endswith. rewrite rev_app_distr. apply startswith_self. Qed.

Lemma strip_between_newlines payload :
  stripped payload -> strip ([10] ++ payload ++ [10]) = payload.
Proof.
  intros [Hl Hr]. unfold strip. change (lstrip ([10] ++ payload ++ [10]))
    with (lstrip (payload ++ [10])).
  destruct payload as [|c r]; [reflexivity|].
  simpl in Hl. destruct (isspace c) eqn:Hc.
  - exfalso. pose proof (lstrip_length r) as Hlen. rewrite Hl in Hlen. simpl in Hlen. lia.
  - simpl. rewrite Hc. unfold rstrip in *.
    change (c :: r ++ [10]) with ((c :: r) ++ [10]). rewrite rev_app_distr.
    change (lstrip (rev [10] ++ rev (c :: r))) with (lstrip (rev (c :: r))).
    exact Hr.
Qed.

(** Envelope stripping returns the payload of a fenced block. *)
Lemma clean_fenced payload : stripped payload -> _clean_json_response (fenced payload) = payload.
Proof.
  intros Hp.
  assert (H1 : startswith (fenced payload) fence_json = true)
    by apply startswith_self.
  assert (H2 : slice_from 7 (fenced payload) = ([10] ++ payload ++ [10]) ++ fence).
  { unfold slice_from, fenced. change 7%nat with (length fence_json).
    rewrite drop_app_length, <- !app_assoc. reflexivity. }
  assert (H3 : slice_to_minus 3 (([10] ++ payload ++ [10]) ++ fence)
               = [10] ++ payload ++ [10]).
  { unfold slice_to_minus. rewrite length_app. change (length fence) with 3%nat.
    rewrite Nat.add_sub. apply take_app_length. }
  unfold _clean_json_response.
  rewrite strip_fenced, H1, H2, endswith_self, H3.
  apply strip_between_newlines. exact Hp.
Qed.

End FencedFacts.

(** C6 (what the code does). For a well-formed payload in a fenced block,
    the chat and the game path strip the envelope and decode the payload;
    the paths of the contextual phrases, the word breakdown and the quiz
    only trim the reply, fail to decode it and return their fallback. *)
Theorem fenced_payload_decoding
    (payload word translation user_message game_type difficulty_name : list N)
    (difficulty num_phrases elapsed : Z) (members : list (list N * json)) :
  stripped payload -> loads payload = Some (JObj members) ->
  ((1 <= difficulty <= 3)%Z ->
   generate_contextual_phrases word translation difficulty num_phrases
     (Reply (fenced payload)) elapsed
   = Return (_get_fallback_phrases word translation difficulty num_phrases))
  /\ generate_word_breakdown word (Reply (fenced payload)) = word_breakdown_fallback word
  /\ generate_quiz word translation difficulty (Reply (fenced payload))
     = quiz_fallback word translation difficulty
  /\ chat_with_object word translation user_message (Reply (fenced payload)) elapsed
     = Return (JObj (dict_set (u "generation_time_ms") (JInt elapsed) members))
  /\ (known_game_type game_type = true ->
      generate_game game_type word translation difficulty_name (Reply (fenced payload)) elapsed
      = Return (JObj (dict_set (u "generation_time_ms") (JInt elapsed)
                        (dict_set (u "difficulty") (JStr difficulty_name)
                           (dict_set (u "game_type") (JStr game_type) members))))).
Proof.
  intros Hp Hl. repeat split.
  - intros Hd. unfold generate_contextual_phrases, complexity_guide.
    rewrite loads_strip_fenced.
    assert (Hcases : difficulty = 1%Z \/ difficulty = 2%Z \/ difficulty = 3%Z) by lia.
    destruct Hcases as [-> | [-> | ->]]; reflexivity.
  - unfold generate_word_breakdown. rewrite loads_strip_fenced. reflexivity.
  - unfold generate_quiz. rewrite loads_strip_fenced. reflexivity.
  - unfold chat_with_object. rewrite (clean_fenced payload Hp), Hl. reflexivity.
  - intros Hk. unfold generate_game. rewrite Hk, (clean_fenced payload Hp), Hl. reflexivity.
Qed.

(** C6, witness and failing input: a well-formed phrase list in a fenced
    block is decoded by envelope stripping, and the phrases path returns
    the fallback phrases all the same. *)
Lemma fenced_payload_decoding_witness :
  generate_word_breakdown (u "sofa") (Reply (fenced (jq "{'word': 'sofa'}")))
  = word_breakdown_fallback (u "sofa").
Proof.
  apply (fenced_payload_decoding (jq "{'word': 'sofa'}") (u "sofa") (u "sofá") (u "oi")
           (u "anagram") (u "easy") 1 3 250 [(u "word", JStr (u "sofa"))]).
  - split; reflexivity.
  - reflexivity.
Defined.

Example phrases_fenced_list_falls_back :
  loads (_clean_json_response (fenced (jq "[{'situation': 'greeting'}]")))
  = Some (JArr [JObj [(u "situation", JStr (u "greeting"))]])
  /\ generate_contextual_phrases (u "sofa") (u "sofá") 1 3
       (Reply (fenced (jq "[{'situation': 'greeting'}]"))) 250
     = Return (_get_fallback_phrases (u "sofa") (u "sofá") 1 3).
Proof. split; reflexivity. Qed.

(** ** What a caller gets when the backend fails *)




(* ===================================================================== *)
(** * Further properties of the services *)
(* ===================================================================== *)

(** ** The text capabilities: edge cases *)

Section TextFacts.

Lemma str_eqb_eq (a b : list N) : str_eqb a b = true <-> a = b.
Proof.
  revert b. induction a as [|x a IH]; intros [|y b]; simpl; split; try easy.
  - intros H. apply andb_true_iff in H as [Hx Hab].
    apply N.eqb_eq in Hx. apply IH in Hab. congruence.
  - intros [= -> ->]. rewrite N.eqb_refl. apply IH. reflexivity.
Qed.

Lemma str_eqb_neq (a b : list N) : str_eqb a b = false <-> a <> b.
Proof.
  rewrite <- str_eqb_eq. destruct (str_eqb a b); split; congruence.
Qed.

Lemma dict_get_set_eq k v d : dict_get k (dict_set k v d) = Some v.
Proof.
  induction d as [|[k' v'] d IH]; simpl.
  - rewrite (proj2 (str_eqb_eq k k) eq_refl). reflexivity.
  - destruct (str_eqb k k') eqn:E; simpl; rewrite E; auto.
Qed.

Lemma dict_get_set_ne k k0 v d : k0 <> k -> dict_get k0 (dict_set k v d) = dict_get k0 d.
Proof.
  intros Hne. induction d as [|[k' v'] d IH]; simpl.
  - apply str_eqb_neq in Hne. rewrite Hne. reflexivity.
  - destruct (str_eqb k k') eqn:E; simpl.
    + apply str_eqb_eq in E. subst k'.
      apply str_eqb_neq in Hne. rewrite Hne. reflexivity.
    + destruct (str_eqb k0 k'); auto.
Qed.

Lemma dict_set_length k v d :
  (length d <= length (dict_set k v d) <= S (length d))%nat.
Proof.
  induction d as [|[k' v'] d IH]; simpl; [lia|].
  destruct (str_eqb k k'); simpl; lia.
Qed.

Lemma In_lstrip x s : In x (lstrip s) -> In x s.
Proof.
  induction s as [|c s IH]; simpl; [auto|].
  destruct (isspace c); simpl; auto.
Qed.

Lemma In_strip x s : In x (strip s) -> In x s.
Proof.
  unfold strip, rstrip. intros H. apply in_rev in H. apply In_lstrip in H.
  apply in_rev in H. apply In_lstrip in H. exact H.
Qed.

Lemma split_lines_no_lf s : Forall (fun l => ~ In 10 l) (split_lines s).
Proof.
  induction s as [|c s IH]; simpl.
  - constructor; [intros []|constructor].
  - destruct (N.eqb_spec c 10) as [->|Hc].
    + constructor; [intros []|exact IH].
    + destruct (split_lines s) as [|l ls]; [repeat constructor; intros [H|[]]; congruence|].
      apply Forall_cons_1 in IH as [Hl Hls]. constructor; [|exact Hls].
      intros [H|H]; [congruence|auto].
Qed.

Lemma Forall_slice_to {A} (P : A -> Prop) n l : Forall P l -> Forall P (slice_to n l).
Proof. intros H. unfold slice_to. destruct (0 <=? n)%Z; apply Forall_take; exact H. Qed.

Lemma take_length_take {A} (n : nat) (l : list A) : take (length (take n l)) l = take n l.
Proof.
  revert n. induction l as [|x l IH]; intros [|n]; simpl; try reflexivity.
  f_equal. apply IH.
Qed.

Lemma lstrip_blank s : forallb isspace s = true -> lstrip s = [].
Proof.
  induction s as [|c s IH]; simpl; [reflexivity|].
  intros H. apply andb_true_iff in H as [-> H]. auto.
Qed.

Lemma strip_blank s : forallb isspace s = true -> strip s = [].
Proof. intros H. unfold strip. rewrite (lstrip_blank s H). reflexivity. Qed.

End TextFacts.

(** X1. The contextual phrases are refused with a [KeyError] exactly when
    the difficulty is not 1, 2 or 3: the guide of the level is looked up
    while the prompt is built, before the backend is called and outside the
    [try], so no reply and no fallback comes into play. *)
Theorem phrases_difficulty_key_error
    (word translation : list N) (difficulty num_phrases : Z) (r : reply) (elapsed : Z) :
  generate_contextual_phrases word translation difficulty num_phrases r elapsed
  = Raise KeyError
  <-> ~ (1 <= difficulty <= 3)%Z.
Proof.
  unfold generate_contextual_phrases, complexity_guide. split.
  - intros H Hd.
    assert (Hcases : difficulty = 1%Z \/ difficulty = 2%Z \/ difficulty = 3%Z) by lia.
    destruct Hcases as [-> | [-> | ->]]; cbn [Z.eqb Pos.eqb mbind outcome_bind] in H;
      (destruct r as [response| |]; [destruct (loads (strip response))| |]); discriminate H.
  - intros Hd.
    destruct (Z.eqb_spec difficulty 1); [lia|].
    destruct (Z.eqb_spec difficulty 2); [lia|].
    destruct (Z.eqb_spec difficulty 3); [lia|]. reflexivity.
Qed.

(** X2. The fallback phrases are a slice of the three-entry table, with
    Python's reading of the count: the first [num] entries, three at most,
    for a count that is not negative; all but the last [-num] for a
    negative one. Every phrase carries the difficulty asked for. *)
Theorem fallback_phrases_slice (word translation : list N) (difficulty num : Z) :
  exists phrases,
    _get_fallback_phrases word translation difficulty num
    = JObj [ (u "phrases", JArr phrases); (u "generation_time_ms", JInt 0) ]
    /\ phrases = take (length phrases) (fallback_phrases word translation difficulty)
    /\ Z.of_nat (length phrases)
       = (if (0 <=? num)%Z then Z.min num 3 else Z.max 0 (3 + num))%Z
    /\ Forall (fun phrase =>
                 exists members, phrase = JObj members
                   /\ dict_get (u "difficulty") members = Some (JInt difficulty))
         phrases.
Proof.
  exists (slice_to num (fallback_phrases word translation difficulty)).
  split; [reflexivity|]. split; [|split].
  - unfold slice_to. destruct (0 <=? num)%Z; symmetry; apply take_length_take.
  - rewrite slice_to_length. change (length (fallback_phrases _ _ _)) with 3%nat.
    destruct (0 <=? num)%Z eqn:E; lia.
  - apply Forall_slice_to. unfold fallback_phrases.
    repeat constructor; eexists; (split; [reflexivity|]); vm_compute; reflexivity.
Qed.

Section LineFacts.

Lemma split_lines_cons s : exists l ls, split_lines s = l :: ls.
Proof.
  induction s as [|c s (l & ls & IH)]; cbn [split_lines]; [eauto|].
  destruct (c =? 10); [eauto|]. rewrite IH. eauto.
Qed.

(** Splitting at the line feeds and joining with line feeds gives the
    string back. *)
Lemma join_split_lines s : join_lines (split_lines s) = s.
Proof.
  induction s as [|c s IH]; [reflexivity|]. cbn [split_lines].
  destruct (split_lines_cons s) as (l & ls & Hs). rewrite Hs in *.
  destruct (N.eqb_spec c 10) as [->|Hc].
  - cbn [join_lines app]. rewrite <- IH. reflexivity.
  - cbn [join_lines] in *. destruct ls; rewrite <- IH; reflexivity.
Qed.

Lemma slice_to_sublist {A} (n : Z) (l : list A) : slice_to n l `sublist_of` l.
Proof. unfold slice_to. destruct (0 <=? n)%Z; apply sublist_take. Qed.

Lemma map_filter_sublist {A B} (f : A -> B) (keep : A -> bool) (l : list A) :
  List.map f (List.filter keep l) `sublist_of` List.map f l.
Proof.
  induction l as [|x l IH]; cbn [List.filter List.map]; [constructor|].
  destruct (keep x); cbn [List.map]; [apply sublist_skip | apply sublist_cons]; exact IH.
Qed.

Lemma slice_to_all {A} (n : Z) (l : list A) :
  (Z.of_nat (length l) <= n)%Z -> slice_to n l = l.
Proof.
  intros H. unfold slice_to. destruct (0 <=? n)%Z eqn:E; [|lia].
  apply take_ge. lia.
Qed.

Lemma filter_length_le {A} (keep : A -> bool) (l : list A) :
  (length (List.filter keep l) <= length l)%nat.
Proof. induction l as [|x l IH]; cbn [List.filter]; [lia|]. destruct (keep x); cbn [length]; lia. Qed.

End LineFacts.

(** X3. Every fun fact returned is a line of the reply, trimmed, and the
    facts stand in the order of their lines. The lines are those of the
    trimmed reply (joined with line feeds they give it back, and none holds
    a line feed); a fact is not empty, has no white space at either end and
    does not begin with [#]. For a count that is not negative there are no
    more facts than asked for, and when the count is not less than the
    number of lines, every line that is not blank and is no heading gives a
    fact. *)
Theorem fun_facts_are_trimmed_lines
    (word translation : list N) (num_facts : Z) (response : list N) (elapsed : Z) :
  let lines := split_lines (strip response) in
  exists facts,
    generate_fun_facts word translation num_facts (Reply response) elapsed
    = JObj [ (u "fun_facts", JArr (List.map JStr facts));
             (u "generation_time_ms", JInt elapsed) ]
    /\ join_lines lines = strip response
    /\ Forall (fun line => ~ In 10 line) lines
    /\ facts `sublist_of` List.map strip lines
    /\ Forall (fun fact => fact <> [] /\ strip fact = fact
                           /\ startswith fact (u "#") = false /\ ~ In 10 fact) facts
    /\ ((0 <= num_facts)%Z -> (Z.of_nat (length facts) <= num_facts)%Z)
    /\ ((Z.of_nat (length lines) <= num_facts)%Z ->
        forall line, In line lines -> strip line <> [] ->
                     startswith (strip line) (u "#") = false -> In (strip line) facts).
Proof.
  intros lines. subst lines.
  set (keep := fun line : list N =>
                 negb (str_eqb (strip line) []) && negb (startswith (strip line) (u "#"))).
  exists (slice_to num_facts (List.map strip (List.filter keep (split_lines (strip response))))).
  split; [reflexivity|]. split; [apply join_split_lines|].
  split; [apply split_lines_no_lf|]. split; [|split; [|split]].
  - etransitivity; [apply slice_to_sublist | apply map_filter_sublist].
  - apply Forall_slice_to. apply List.Forall_forall. intros fact Hin.
    apply in_map_iff in Hin as (line & <- & Hin).
    apply filter_In in Hin as [Hin Hkeep].
    apply andb_true_iff in Hkeep as [Hne Hhash].
    apply negb_true_iff in Hne, Hhash. apply str_eqb_neq in Hne.
    repeat split; auto using strip_idem.
    intros H10. apply In_strip in H10.
    pose proof (split_lines_no_lf (strip response)) as Hlf.
    rewrite List.Forall_forall in Hlf. exact (Hlf line Hin H10).
  - intros Hn. rewrite slice_to_length.
    destruct (0 <=? num_facts)%Z eqn:E; lia.
  - intros Hall line Hin Hne Hhash.
    rewrite slice_to_all.
    + apply in_map. apply filter_In. split; [exact Hin|].
      unfold keep. rewrite Hhash. apply str_eqb_neq in Hne. rewrite Hne. reflexivity.
    + rewrite length_map.
      pose proof (filter_length_le keep (split_lines (strip response))). lia.
Qed.

(** X4. A reply of white space only (or an empty one) gives an empty list
    of fun facts, with the time measured: the fallback facts are for a
    failed call only. *)
Theorem fun_facts_blank_reply
    (word translation : list N) (num_facts : Z) (response : list N) (elapsed : Z) :
  forallb isspace response = true ->
  generate_fun_facts word translation num_facts (Reply response) elapsed
  = JObj [ (u "fun_facts", JArr []); (u "generation_time_ms", JInt elapsed) ].
Proof.
  intros H. unfold generate_fun_facts. rewrite (strip_blank response H).
  cbn [split_lines List.filter strip rstrip lstrip rev app str_eqb negb andb List.map].
  unfold slice_to. destruct (0 <=? num_facts)%Z; rewrite take_nil; reflexivity.
Qed.

(** X4, witness. *)
Lemma fun_facts_blank_reply_witness :
  generate_fun_facts (u "sofa") (u "sofá") 3 (Reply (u "  ")) 40
  = JObj [ (u "fun_facts", JArr []); (u "generation_time_ms", JInt 40) ].
Proof. apply (fun_facts_blank_reply (u "sofa") (u "sofá") 3 (u "  ") 40). reflexivity. Defined.

(** X5. When the reply of the chat decodes to an object, the result is that
    object with [generation_time_ms] set to the time measured (whatever the
    reply held under that key) and every other key as the reply gave it. *)
Theorem chat_sets_generation_time
    (word translation user_message response : list N) (elapsed : Z)
    (members : list (list N * json)) :
  loads (_clean_json_response response) = Some (JObj members) ->
  exists result,
    chat_with_object word translation user_message (Reply response) elapsed
    = Return (JObj result)
    /\ dict_get (u "generation_time_ms") result = Some (JInt elapsed)
    /\ (forall k, k <> u "generation_time_ms" -> dict_get k result = dict_get k members)
    /\ (length members <= length result <= S (length members))%nat.
Proof.
  intros H. unfold chat_with_object. rewrite H. cbn [setitem].
  eexists. split; [reflexivity|]. split; [apply dict_get_set_eq|]. split.
  - intros k Hk. apply dict_get_set_ne. exact Hk.
  - apply dict_set_length.
Qed.

(** X5, witness. *)
Lemma chat_sets_generation_time_witness :
  exists result,
    chat_with_object (u "sofa") (u "sofá") (u "oi")
      (Reply (jq "{'bot_response': 'Oi!', 'generation_time_ms': 1}")) 250
    = Return (JObj result)
    /\ dict_get (u "generation_time_ms") result = Some (JInt 250)
    /\ (forall k, k <> u "generation_time_ms" ->
        dict_get k result
        = dict_get k [(u "bot_response", JStr (u "Oi!")); (u "generation_time_ms", JInt 1)])
    /\ (2 <= length result <= 3)%nat.
Proof.
  apply (chat_sets_generation_time (u "sofa") (u "sofá") (u "oi")
           (jq "{'bot_response': 'Oi!', 'generation_time_ms': 1}") 250
           [(u "bot_response", JStr (u "Oi!")); (u "generation_time_ms", JInt 1)]).
  vm_compute. reflexivity.
Defined.

(** X6. A reply of the chat that is well-formed JSON but not an object (a
    list, a number, a string, ...) cannot take the time stamp: the
    assignment raises, and the result is the fallback response. *)
Theorem chat_non_object_reply
    (word translation user_message response : list N) (elapsed : Z) (value : json) :
  loads (_clean_json_response response) = Some value ->
  (forall members, value <> JObj members) ->
  chat_with_object word translation user_message (Reply response) elapsed
  = Return (_get_fallback_chat_response user_message word translation).
Proof.
  intros H Hno. unfold chat_with_object. rewrite H.
  destruct value; try reflexivity. exfalso. eapply Hno. reflexivity.
Qed.

(** X6, witness. *)
Lemma chat_non_object_reply_witness :
  chat_with_object (u "sofa") (u "sofá") (u "oi") (Reply (u "[1, 2]")) 250
  = Return (_get_fallback_chat_response (u "oi") (u "sofa") (u "sofá")).
Proof.
  apply (chat_non_object_reply (u "sofa") (u "sofá") (u "oi") (u "[1, 2]") 250
           (JArr [JInt 1; JInt 2])).
  - vm_compute. reflexivity.
  - intros members. discriminate.
Defined.

(** X7. For a game type other than the four known ones the backend is not
    asked: whatever it would reply, the result is the dictionary that names
    the type as not supported. *)
Theorem game_unknown_type
    (game_type word translation difficulty : list N) (r : reply) (elapsed : Z) :
  known_game_type game_type = false ->
  generate_game game_type word translation difficulty r elapsed
  = Return (JObj [ (u "game_type", JStr game_type);
                   (u "error", JStr (u "Game type not supported"));
                   (u "generation_time_ms", JInt 0) ]).
Proof.
  intros H. unfold generate_game. rewrite H. cbn [negb].
  unfold known_game_type in H.
  apply orb_false_iff in H as [H H4]. apply orb_false_iff in H as [H H3].
  apply orb_false_iff in H as [H1 H2].
  unfold _get_fallback_game.
  destruct (related_word_first word) as (c & en & pt & ->).
  cbn [mbind outcome_bind]. rewrite H1, H2, H3, H4. reflexivity.
Qed.

(** X7, witness. *)
Lemma game_unknown_type_witness :
  generate_game (u "crossword") (u "sofa") (u "sofá") (u "easy") (Reply (u "{}")) 10
  = Return (JObj [ (u "game_type", JStr (u "crossword"));
                   (u "error", JStr (u "Game type not supported"));
                   (u "generation_time_ms", JInt 0) ]).
Proof.
  apply (game_unknown_type (u "crossword") (u "sofa") (u "sofá") (u "easy") (Reply (u "{}")) 10).
  vm_compute. reflexivity.
Defined.

(** X8. When the reply of a known game decodes to an object, the result is
    that object with [game_type], [difficulty] and [generation_time_ms] set
    from the call (whatever the reply held under these keys) and every other
    key as the reply gave it. *)
Theorem game_sets_metadata
    (game_type word translation difficulty response : list N) (elapsed : Z)
    (members : list (list N * json)) :
  known_game_type game_type = true ->
  loads (_clean_json_response response) = Some (JObj members) ->
  exists result,
    generate_game game_type word translation difficulty (Reply response) elapsed
    = Return (JObj result)
    /\ dict_get (u "game_type") result = Some (JStr game_type)
    /\ dict_get (u "difficulty") result = Some (JStr difficulty)
    /\ dict_get (u "generation_time_ms") result = Some (JInt elapsed)
    /\ (forall k, k <> u "game_type" -> k <> u "difficulty" ->
                  k <> u "generation_time_ms" -> dict_get k result = dict_get k members).
Proof.
  intros Hk H. unfold generate_game. rewrite Hk, H. cbn [negb setitem].
  eexists. split; [reflexivity|].
  assert (H1 : u "game_type" <> u "difficulty") by (vm_compute; discriminate).
  assert (H2 : u "game_type" <> u "generation_time_ms") by (vm_compute; discriminate).
  assert (H3 : u "difficulty" <> u "generation_time_ms") by (vm_compute; discriminate).
  repeat split.
  - rewrite !dict_get_set_ne by assumption. apply dict_get_set_eq.
  - rewrite dict_get_set_ne by assumption. apply dict_get_set_eq.
  - apply dict_get_set_eq.
  - intros k Ha Hb Hc. rewrite !dict_get_set_ne by assumption. reflexivity.
Qed.

(** X8, witness. *)
Lemma game_sets_metadata_witness :
  exists result,
    generate_game (u "anagram") (u "sofa") (u "sofá") (u "hard")
      (Reply (jq "{'word': 'chair', 'difficulty': 'easy'}")) 75
    = Return (JObj result)
    /\ dict_get (u "game_type") result = Some (JStr (u "anagram"))
    /\ dict_get (u "difficulty") result = Some (JStr (u "hard"))
    /\ dict_get (u "generation_time_ms") result = Some (JInt 75)
    /\ (forall k, k <> u "game_type" -> k <> u "difficulty" ->
                  k <> u "generation_time_ms" ->
        dict_get k result
        = dict_get k [(u "word", JStr (u "chair")); (u "difficulty", JStr (u "easy"))]).
Proof.
  apply (game_sets_metadata (u "anagram") (u "sofa") (u "sofá") (u "hard")
           (jq "{'word': 'chair', 'difficulty': 'easy'}") 75
           [(u "word", JStr (u "chair")); (u "difficulty", JStr (u "easy"))]);
    vm_compute; reflexivity.
Defined.

(** X9. The fallback games agree with the word they are about, for every
    object: the anagram is the word reversed, and in the game of missing
    letters the pattern keeps the first and the last letter of the word and
    has one underscore for each letter between them, which are the letters
    listed as missing, in order. *)
Theorem fallback_games_spell_their_word (word translation : list N) :
  (exists members en,
      _get_fallback_game (u "anagram") word translation = Return (JObj members)
      /\ dict_get (u "word") members = Some (JStr en)
      /\ dict_get (u "scrambled") members = Some (JStr (rev en)))
  /\ (exists members first_letter missing last_letter,
      _get_fallback_game (u "missing_letters") word translation = Return (JObj members)
      /\ dict_get (u "word") members = Some (JStr (first_letter :: missing ++ [last_letter]))
      /\ dict_get (u "pattern") members
         = Some (JStr (first_letter :: repeat 95 (length missing) ++ [last_letter]))
      /\ dict_get (u "missing_letters") members
         = Some (JArr (List.map (fun c => JStr [c]) missing))).
Proof.
  unfold _get_fallback_game, related_vocab, get_default.
  destruct (str_eqb (lower word) (u "sofa")); [|
  destruct (str_eqb (lower word) (u "table")); [|
  destruct (str_eqb (lower word) (u "tv"))]].
  - split.
    + eexists _, (u "cushion"). vm_compute. repeat split.
    + eexists _, 99, (u "ushio"), 110. vm_compute. repeat split.
  - split.
    + eexists _, (u "chair"). vm_compute. repeat split.
    + eexists _, 99, (u "hai"), 114. vm_compute. repeat split.
  - split.
    + eexists _, (u "remote"). vm_compute. repeat split.
    + eexists _, 114, (u "emot"), 101. vm_compute. repeat split.
  - split.
    + eexists _, (u "part"). vm_compute. repeat split.
    + eexists _, 112, (u "ar"), 116. vm_compute. repeat split.
Qed.

Section BareFence.

Lemma strip_fenced_bare payload : strip (fenced_bare payload) = fenced_bare payload.
Proof.
  apply stripped_strip. split.
  - reflexivity.
  - assert (Hs : exists s, rev (fenced_bare payload) = 96 :: s).
    { unfold fenced_bare. rewrite !rev_app_distr. eexists. reflexivity. }
    destruct Hs as [s Hs]. unfold rstrip. rewrite Hs.
    change (lstrip (96 :: s)) with (96 :: s). rewrite <- Hs. apply rev_involutive.
Qed.

Lemma clean_fenced_bare payload :
  stripped payload -> _clean_json_response (fenced_bare payload) = payload.
Proof.
  intros Hp.
  assert (H0 : startswith (fenced_bare payload) fence_json = false) by reflexivity.
  assert (H1 : startswith (fenced_bare payload) fence = true) by apply startswith_self.
  assert (H2 : slice_from 3 (fenced_bare payload) = ([10] ++ payload ++ [10]) ++ fence).
  { unfold slice_from, fenced_bare. change 3%nat with (length fence).
    rewrite drop_app_length, <- !app_assoc. reflexivity. }
  assert (H3 : slice_to_minus 3 (([10] ++ payload ++ [10]) ++ fence)
               = [10] ++ payload ++ [10]).
  { unfold slice_to_minus. rewrite length_app. change (length fence) with 3%nat.
    rewrite Nat.add_sub. apply take_app_length. }
  unfold _clean_json_response.
  rewrite strip_fenced_bare, H0, H1, H2, endswith_self, H3.
  apply strip_between_newlines. exact Hp.
Qed.

End BareFence.

(** X10. Envelope stripping gives back the payload of a fenced block, be
    the block marked [json] or not marked at all: for a payload without
    white space at its ends, cleaning the payload fenced either way returns
    the payload. *)
Theorem clean_removes_either_fence (payload : list N) :
  stripped payload ->
  _clean_json_response (fenced payload) = payload
  /\ _clean_json_response (fenced_bare payload) = payload.
Proof. intros H. split; [apply clean_fenced | apply clean_fenced_bare]; exact H. Qed.

(** X10, witness. *)
Lemma clean_removes_either_fence_witness :
  _clean_json_response (fenced (jq "{'a': 1}")) = jq "{'a': 1}"
  /\ _clean_json_response (fenced_bare (jq "{'a': 1}")) = jq "{'a': 1}".
Proof.
  apply (clean_removes_either_fence (jq "{'a': 1}")). split; vm_compute; reflexivity.
Defined.


(** ** Grammar correction: what is corrected *)

Section EssFacts.

Lemma has_ess_suffix x1 x2 : has_ess (x1 ++ x2) = false -> has_ess x2 = false.
Proof.
  induction x1 as [|c x1 IH]; [auto|]. cbn [app has_ess]. intros H.
  apply orb_false_iff in H as [_ H]. auto.
Qed.

Lemma head_shape_has_ess h rest : head_shape h -> has_ess (h ++ rest) = true.
Proof.
  intros (c0 & c1 & c2 & c3 & c4 & t & -> & H0 & H1 & H2 & _).
  cbn [app has_ess starts_ss]. rewrite H0, H1, H2. reflexivity.
Qed.

(** A rule matches only where [Ess] stands. *)
Lemma hit_has_ess fem W p s :
  In p (rule_patterns fem W) -> hit p s -> has_ess s = true.
Proof.
  intros Hin Hhit. apply hit_lang in Hhit as (m & post & -> & Hm & _).
  destruct (rule_shape fem W m) as (h & W' & -> & Hh & _); [exists p; auto|].
  rewrite <- app_assoc. apply head_shape_has_ess. exact Hh.
Qed.

Lemma no_ess_has_ess l : no_ess l = true -> has_ess l = false.
Proof.
  induction l as [|c l IH]; [reflexivity|]. cbn [no_ess has_ess]. intros H.
  apply andb_true_iff in H as [H Hl]. rewrite (IH Hl), orb_false_r.
  destruct (elike c); [|reflexivity]. cbn [negb orb andb] in *.
  destruct l as [|c2 [|c3 l]]; cbn [starts_ss] in *; try reflexivity.
  destruct (slike c2); [|reflexivity]. cbn [negb orb andb] in *.
  destruct (slike c3); [discriminate|reflexivity].
Qed.

Lemma no_ess_ieq W W' :
  Forall2 (fun c d => ieq c d = true) W W' -> no_ess W' = no_ess W.
Proof.
  induction 1 as [|c d W W' Hcd HW IH]; [reflexivity|].
  cbn [no_ess]. rewrite IH, (ieq_elike c d Hcd). f_equal. f_equal.
  destruct HW as [|c2 d2 W2 W2' H2 HW2]; [reflexivity|].
  rewrite (ieq_slike c2 d2 H2). f_equal.
  destruct HW2 as [|c3 d3 ? ? H3 _]; [reflexivity|].
  rewrite (ieq_slike c3 d3 H3). reflexivity.
Qed.

End EssFacts.

(** A text without [Ess] holds no match of a rule. *)
Lemma fix_no_ess (text word : list N) :
  has_ess text = false -> _fix_portuguese_grammar text word = text.
Proof.
  intros H. apply fix_rule_free. unfold rule_free. rewrite patterns_to_fix_table.
  apply forallb_forall. intros rule Hin.
  apply in_map_iff in Hin as (p & <- & Hp). cbn [fst].
  apply unhit_no_match. intros x1 x2 -> Hhit.
  apply (hit_has_ess _ _ _ _ Hp) in Hhit.
  apply has_ess_suffix in H. congruence.
Qed.

(** X11. A text in which [Ess] does not occur (in whatever case) is
    returned as it is, for every word: each rule begins with [Essa] or
    [Esse], so none can match. (Text and word in the range modelled: code
    points below 256, no backslash in the word.) *)
Theorem fix_without_ess_is_identity (text word : list N) :
  latin1 text = true -> plain_word word = true ->
  has_ess text = false -> _fix_portuguese_grammar text word = text.
Proof. intros _ _. apply fix_no_ess. Qed.

(** X11, witness. *)
Lemma fix_without_ess_is_identity_witness :
  _fix_portuguese_grammar (u "Olá! Isto é uma MESA.") (u "mesa") = u "Olá! Isto é uma MESA.".
Proof.
  apply (fix_without_ess_is_identity (u "Olá! Isto é uma MESA.") (u "mesa"));
    vm_compute; reflexivity.
Defined.

(** X12. For a safe word one pass is complete: in the corrected text none
    of the five patterns of the rule table matches any more, whatever the
    text was (in the range modelled: code points below 256, no backslash in
    the word). *)
Theorem fix_leaves_no_match (text word : list N) :
  latin1 text = true -> plain_word word = true -> safe_word word = true ->
  forallb (fun rule => no_match (fst rule) (_fix_portuguese_grammar text word))
          (patterns_to_fix word) = true.
Proof. intros _ _ H. apply (safe_word_rule_free text word H). Qed.

(** X12, witness. *)
Lemma fix_leaves_no_match_witness :
  forallb (fun rule => no_match (fst rule)
                         (_fix_portuguese_grammar (u "Esse é uma mesa e essa é mesa") (u "mesa")))
          (patterns_to_fix (u "mesa")) = true.
Proof.
  apply (fix_leaves_no_match (u "Esse é uma mesa e essa é mesa") (u "mesa"));
    vm_compute; reflexivity.
Defined.

Section CorrectionFacts.

Lemma lang_min_len r m : lang r m -> (min_len r <= length m)%nat.
Proof.
  induction 1; cbn [min_len]; rewrite ?length_app; cbn [length]; lia.
Qed.

Lemma min_len_lit s : min_len (lit s) = length s.
Proof. induction s as [|c s IH]; cbn [lit min_len length]; lia. Qed.

Lemma hit_min_len p s : hit p s -> (min_len p <= length s)%nat.
Proof.
  intros H. apply hit_lang in H as (m & post & -> & Hm & _).
  apply lang_min_len in Hm. rewrite length_app. lia.
Qed.

Lemma ieq_refl c : ieq c c = true.
Proof. unfold ieq. apply N.eqb_refl. Qed.

Lemma lang_lit_self s : lang (lit s) s.
Proof. apply lit_lang. induction s; constructor; auto using ieq_refl. Qed.

Lemma lang_seq_eps a m : lang a m -> lang (Seq a Eps) m.
Proof. intros H. rewrite <- (app_nil_r m). constructor; [exact H|constructor]. Qed.

Lemma lang_one_space : lang (Plus Space) [32].
Proof. apply lang_plus_one. constructor. reflexivity. Qed.

(** A match at the head of a text is replaced, and the substitution goes
    on after it. *)
Lemma sub_at_head r R x n :
  match_at r x = Some (S n) ->
  sub r R x = R ++ sub r R (drop (S n) x) /\ lang r (take (S n) x).
Proof.
  intros H. destruct x as [|c s].
  - unfold match_at in H. destruct (mtch r [] Some); simpl in H; discriminate.
  - split.
    + unfold sub. cbn [sub_go]. rewrite H. rewrite sub_go_skip. reflexivity.
    + unfold match_at in H. destruct (mtch r (c :: s) Some) as [rest|] eqn:E; [|discriminate].
      apply mtch_sound in E as (m & s' & Hs & Hm & [= ->]).
      injection H as H. pose proof (f_equal length Hs) as Hlen.
      rewrite length_app in Hlen. cbn [length] in H, Hlen.
      rewrite Hs. replace (S n) with (length m) by lia.
      rewrite take_app_length. exact Hm.
Qed.

(** A text that a pattern matches as a whole, and in no shorter way from
    its start, becomes the replacement. *)
Lemma sub_whole r R T :
  nonnull r = true -> lang r T ->
  (forall m y, T = m ++ y -> lang r m -> y = []) ->
  sub r R T = R.
Proof.
  intros Hn Hl Hwhole.
  destruct (lang_hit r T [] Hn Hl) as [n Hhit]. rewrite app_nil_r in Hhit.
  apply (sub_at_head r R) in Hhit as [Hs Hm].
  rewrite Hs, (Hwhole _ _ (eq_sym (take_drop (S n) T)) Hm).
  apply app_nil_r.
Qed.

Lemma sub_unhit r R T : unhit r T -> sub r R T = T.
Proof. intros H. apply sub_no_match, unhit_no_match, H. Qed.

(** Where [Ess] stands at the head of a text only, a rule that does not
    match there matches nowhere. *)
Lemma unhit_after_head fem W p c T :
  In p (rule_patterns fem W) -> has_ess T = false -> ~ hit p (c :: T) -> unhit p (c :: T).
Proof.
  intros Hp Hess Hno [|d x1] x2 Heq Hhit; simpl in Heq.
  - subst x2. exact (Hno Hhit).
  - injection Heq as _ ->. apply has_ess_suffix in Hess.
    apply (hit_has_ess _ _ _ _ Hp) in Hhit. congruence.
Qed.

Lemma last_space x t :
  isspace x = true -> Forall (fun c => isspace c = true) t ->
  exists t' s, x :: t = t' ++ [s] /\ isspace s = true.
Proof.
  intros Hx Ht. destruct (exists_last (l := x :: t)) as (t' & s & Heq); [discriminate|].
  exists t', s. split; [exact Heq|].
  assert (Hall : Forall (fun c => isspace c = true) (x :: t)) by (constructor; assumption).
  rewrite Heq in Hall. apply Forall_app in Hall as [_ Hs].
  apply Forall_cons_1 in Hs as [Hs _]. exact Hs.
Qed.

Lemma tail_space_intro W Q x t w :
  isspace x = true -> Forall (fun c => isspace c = true) t ->
  Forall2 (fun c d => ieq c d = true) W w ->
  exists h s W', (Q ++ x :: t) ++ w = h ++ [s] ++ W'
    /\ isspace s = true /\ Forall2 (fun c d => ieq c d = true) W W'.
Proof.
  intros Hx Ht Hw. destruct (last_space x t Hx Ht) as (t' & s & -> & Hs).
  exists (Q ++ t'), s, w. rewrite <- !app_assoc. auto.
Qed.

(** A match of a rule ends with white space and the word. *)
Lemma rule_tail_space fem W M :
  rule_match fem W M ->
  exists h s W', M = h ++ [s] ++ W'
    /\ isspace s = true /\ Forall2 (fun c d => ieq c d = true) W W'.
Proof.
  intros (p & Hin & Hm). unfold rule_patterns in Hin.
  destruct fem;
    repeat (destruct Hin as [<- | Hin]); try contradiction;
    cbv [seqs fold_right] in Hm; compute_lits Hm; inv_lang;
    match goal with H : lang (lit W) ?w |- _ => apply lang_lit in H; idtac end.
  all: rewrite ?app_nil_r, ?app_assoc.
  all: eapply tail_space_intro; eassumption.
Qed.

End CorrectionFacts.

Lemma ieq_str_Forall2 a b : ieq_str a b = true -> Forall2 (fun c d => ieq c d = true) a b.
Proof.
  revert b. induction a as [|c a IH]; intros [|d b] H; try discriminate; constructor.
  - cbn [ieq_str] in H. apply andb_true_iff in H. tauto.
  - cbn [ieq_str] in H. apply andb_true_iff in H. apply IH. tauto.
Qed.

Ltac compute_u :=
  repeat match goal with
  | |- context [u ?s] => let v := eval vm_compute in (u s) in change (u s) with v
  end.

Section Phrases.

Variables (fem : bool) (W W' : list N).
Hypothesis W_first : match W with [] => false | c :: _ => negb (ieq c (article fem)) end = true.
Hypothesis W_no_ess : no_ess W = true.
Hypothesis W_W' : Forall2 (fun c d => ieq c d = true) W W'.

Local Abbreviation R := (rule_replacement fem W).
Local Abbreviation rules := (rule_patterns fem W).

Lemma W'_length : length W' = length W.
Proof using W_W'. symmetry. eapply Forall2_length. exact W_W'. Qed.

Lemma W'_has_ess : has_ess W' = false.
Proof using W_W' W_no_ess.
  apply no_ess_has_ess. rewrite (no_ess_ieq W W' W_W'). exact W_no_ess.
Qed.

(** No rule matches in the corrected phrase. *)
Lemma replacement_unhit p : In p rules -> unhit p R.
Proof using W_first W_no_ess.
  intros Hp x1 x2 Heq Hhit.
  apply hit_lang in Hhit as (m & post & -> & Hm & Hne).
  assert (HM : rule_match fem W m) by (exists p; auto).
  destruct x1 as [|c x1].
  - apply (rule_at_start fem W W_first W_no_ess m [] post HM).
    rewrite app_nil_r. exact Heq.
  - destruct m as [|d m]; [congruence|].
    apply (rule_inside fem W W_first W_no_ess (c :: x1) ((d :: m) ++ post) (d :: m) [] post HM);
      [exact Heq | discriminate | discriminate | apply app_nil_r].
Qed.

Lemma rule_done p : In p rules -> sub p R R = R.
Proof using W_first W_no_ess. intros Hp. apply sub_unhit, replacement_unhit, Hp. Qed.

Lemma rule_skip p c T :
  In p rules -> has_ess T = false -> ~ hit p (c :: T) -> sub p R (c :: T) = c :: T.
Proof. intros Hp Hess Hno. apply sub_unhit. eapply unhit_after_head; eauto. Qed.

Lemma rule_fix p T :
  In p rules -> lang p T -> (forall m y, T = m ++ y -> lang p m -> y = []) -> sub p R T = R.
Proof using W_first.
  intros Hp Hl Hwhole. apply sub_whole; auto. apply (rule_nonnull fem W W_first p Hp).
Qed.

Lemma whole_by_length p T :
  (length T <= min_len p)%nat -> forall m y, T = m ++ y -> lang p m -> y = [].
Proof.
  intros Hlen m y -> Hm. apply lang_min_len in Hm. rewrite length_app in Hlen.
  destruct y; [reflexivity|]. cbn [length] in Hlen. lia.
Qed.

Lemma nohit_by_length p T : (length T < min_len p)%nat -> ~ hit p T.
Proof. intros Hlen Hhit. apply hit_min_len in Hhit. lia. Qed.

(** A match that ends one character before the end of [P0 a b W'] would have
    [a] as the white space before its word. *)
Lemma whole_by_tail p P0 a b :
  In p rules -> isspace a = false ->
  (length (P0 ++ [a; b] ++ W') <= S (min_len p))%nat ->
  forall m y, P0 ++ [a; b] ++ W' = m ++ y -> lang p m -> y = [].
Proof using W_W'.
  intros Hp Ha Hlen m y Heq Hm.
  destruct y as [|d y]; [reflexivity|]. exfalso.
  pose proof (lang_min_len p m Hm) as Hmin.
  pose proof (f_equal length Heq) as Hl. rewrite Hl in Hlen.
  rewrite !length_app in Hlen, Hl. cbn [length] in Hlen, Hl.
  destruct y; [|cbn [length] in Hlen; lia].
  destruct (rule_tail_space fem W m) as (h & s & W'' & -> & Hs & HW''); [exists p; auto|].
  pose proof (Forall2_length _ _ _ HW'') as HlW''. pose proof W'_length as HlW'.
  rewrite !length_app in Hl. cbn [length] in Hl.
  rewrite <- !app_assoc in Heq.
  apply app_inj_1 in Heq as [-> Heq]; [|lia].
  cbn [app] in Heq. injection Heq as -> _. congruence.
Qed.

(** The listed errors are texts of the rules. *)
Lemma lang_rule1 :
  lang (nth 0 rules Eps) (demonstrative (negb fem) ++ [32] ++ [article fem] ++ [32] ++ W').
Proof using All.
  destruct fem; cbv [rule_patterns nth seqs fold_right demonstrative negb article].
  all: apply lang_seq; [apply lang_lit_self|].
  all: apply lang_seq; [apply lang_one_space|].
  all: apply lang_seq; [apply lang_lit_self|].
  all: apply lang_seq; [apply lang_one_space|].
  all: apply lang_seq_eps, lit_lang, W_W'.
Qed.

Lemma lang_uma (a : bool) :
  lang (Seq (lit (u "um")) (Opt (Chr 97))) (u "um" ++ if a then [97] else []).
Proof.
  apply lang_seq; [apply lang_lit_self|].
  destruct a; [apply lang_opt_some, lang_chr, ieq_refl | apply lang_opt_none].
Qed.

Lemma lang_rule2 (a : bool) :
  lang (nth 1 rules Eps)
       (demonstrative (negb fem) ++ [32] ++ (u "um" ++ if a then [97] else []) ++ [32] ++ W').
Proof using All.
  destruct fem; cbv [rule_patterns nth seqs fold_right demonstrative negb].
  all: apply lang_seq; [apply lang_lit_self|].
  all: apply lang_seq; [apply lang_one_space|].
  all: apply lang_seq; [apply lang_uma|].
  all: apply lang_seq; [apply lang_one_space|].
  all: apply lang_seq_eps, lit_lang, W_W'.
Qed.

Lemma lang_essa_esse (d : bool) :
  lang (Alt (lit (u "Essa")) (lit (u "Esse"))) (if d then u "Essa" else u "Esse").
Proof. destruct d; [apply lang_alt_l | apply lang_alt_r]; apply lang_lit_self. Qed.

Lemma lang_rule3 (d a : bool) :
  lang (nth 2 rules Eps)
       ((if d then u "Essa" else u "Esse") ++ [32] ++ [233] ++ [32]
        ++ (u "um" ++ if a then [97] else []) ++ [32] ++ W').
Proof using W_W'.
  cbv [rule_patterns nth seqs fold_right].
  apply lang_seq; [apply lang_essa_esse|].
  apply lang_seq; [apply lang_one_space|].
  apply lang_seq; [apply lang_lit_self|].
  apply lang_seq; [apply lang_one_space|].
  apply lang_seq; [apply lang_uma|].
  apply lang_seq; [apply lang_one_space|].
  apply lang_seq_eps, lit_lang, W_W'.
Qed.

Lemma lang_rule4 : lang (nth 3 rules Eps) (demonstrative (negb fem) ++ [32] ++ W').
Proof using All.
  destruct fem; cbv [rule_patterns nth seqs fold_right demonstrative negb].
  all: apply lang_seq; [apply lang_lit_self|].
  all: apply lang_seq; [apply lang_one_space|].
  all: apply lang_seq_eps, lit_lang, W_W'.
Qed.

Lemma lang_rule5 (d : bool) :
  lang (nth 4 rules Eps) ((if d then u "Essa" else u "Esse") ++ [32] ++ [233] ++ [32] ++ W').
Proof using W_W'.
  cbv [rule_patterns nth seqs fold_right].
  apply lang_seq; [apply lang_essa_esse|].
  apply lang_seq; [apply lang_one_space|].
  apply lang_seq; [apply lang_lit_self|].
  apply lang_seq; [apply lang_one_space|].
  apply lang_seq_eps, lit_lang, W_W'.
Qed.

(** The rules are applied in order: the first that matches a listed error
    turns it into the corrected phrase, which the later rules leave. *)
Lemma apply_rules i T :
  (i < 5)%nat ->
  (forall j, (j < i)%nat -> sub (nth j rules Eps) R T = T) ->
  sub (nth i rules Eps) R T = R ->
  fold_left (fun t p => sub p R t) rules T = R.
Proof using W_first W_no_ess.
  intros Hi Hskip Hfix.
  assert (Hdone : forall j, (j < 5)%nat -> sub (nth j rules Eps) R R = R).
  { intros j Hj. apply rule_done. apply nth_In. exact Hj. }
  change rules with [nth 0 rules Eps; nth 1 rules Eps; nth 2 rules Eps;
                     nth 3 rules Eps; nth 4 rules Eps] at 1.
  cbn [fold_left].
  destruct i as [|[|[|[|[|i]]]]]; [| | | | |lia];
    rewrite ?(Hskip 0%nat), ?(Hskip 1%nat), ?(Hskip 2%nat), ?(Hskip 3%nat) by lia;
    rewrite Hfix;
    rewrite ?(Hdone 1%nat), ?(Hdone 2%nat), ?(Hdone 3%nat), ?(Hdone 4%nat) by lia;
    reflexivity.
Qed.

End Phrases.

Ltac in_rules := apply nth_In; cbv [rule_patterns length]; lia.

Ltac closed_bools :=
  repeat match goal with
  | |- context [elike ?c] => let v := eval vm_compute in (elike c) in change (elike c) with v
  end.

(* the lengths of a text [c1 :: ... :: W'] and of the texts of a rule *)
Ltac lengths HW' :=
  cbv [rule_patterns nth seqs fold_right]; cbn [min_len length];
  rewrite ?min_len_lit;
  repeat match goal with
  | |- context [length (u ?s)] =>
    let v := eval vm_compute in (length (u s)) in change (length (u s)) with v
  end;
  pose proof (Forall2_length _ _ _ HW'); lia.

Ltac cons_form :=
  cbv [demonstrative indefinite article negb]; compute_u; cbn [app].

Ltac ess_tail Hn HW' :=
  cbn [has_ess starts_ss]; closed_bools; cbn [andb orb];
  apply (W'_has_ess _ _ Hn HW').

Ltac skip_by_length Hn HW' :=
  apply rule_skip; [in_rules | ess_tail Hn HW' | apply nohit_by_length; lengths HW'].

Ltac skip_by_matching Hn HW' :=
  apply rule_skip;
  [ in_rules | ess_tail Hn HW'
  | let n := fresh "n" in let H := fresh "H" in
    intros [n H]; unfold match_at in H;
    cbv [rule_patterns nth seqs fold_right] in H; compute_lits H; cbn in H;
    discriminate H ].

(** X13. The errors the rule table lists are corrected, for a safe word
    written in the text in whatever case: the wrong demonstrative before the
    right article, either demonstrative before [um] or [uma], and either
    demonstrative with no article, each followed by the word, become the
    right demonstrative, the right article and the word in upper case. (The
    word in the range modelled: code points below 256, no backslash.) *)
Theorem fix_corrects_listed_errors (word W' : list N) :
  plain_word word = true -> latin1 W' = true ->
  safe_word word = true -> ieq_str (upper word) W' = true ->
  let fem := endswith (lower word) (u "a") in
  let corrected := demonstrative fem ++ u " " ++ [article fem] ++ u " " ++ upper word in
  _fix_portuguese_grammar
    (demonstrative (negb fem) ++ u " " ++ [article fem] ++ u " " ++ W') word = corrected
  /\ (forall d a,
      _fix_portuguese_grammar (demonstrative d ++ u " " ++ indefinite a ++ u " " ++ W') word
      = corrected)
  /\ (forall d, _fix_portuguese_grammar (demonstrative d ++ u " " ++ W') word = corrected).
Proof.
  intros _ _ Hsafe HW' fem corrected. subst corrected.
  unfold safe_word in Hsafe. fold fem in Hsafe. apply andb_prop in Hsafe as [Hf Hn].
  apply ieq_str_Forall2 in HW'.
  assert (Hgen : forall T,
             fold_left (fun t p => sub p (rule_replacement fem (upper word)) t)
               (rule_patterns fem (upper word)) T
             = rule_replacement fem (upper word) ->
             _fix_portuguese_grammar T word
             = demonstrative fem ++ u " " ++ [article fem] ++ u " " ++ upper word).
  { intros T HT. unfold _fix_portuguese_grammar.
    rewrite patterns_to_fix_table, fold_left_table. fold fem. rewrite HT.
    unfold rule_replacement. destruct fem; reflexivity. }
  revert Hf Hn HW' Hgen. generalize (upper word) as W. clearbody fem.
  intros W Hf Hn HW' Hgen.
  split; [|split].
  - apply Hgen. apply (apply_rules fem W Hf Hn 0%nat); [lia | intros j Hj; lia |].
    apply (rule_fix fem W Hf); [in_rules | exact (lang_rule1 fem W W' Hf Hn HW') |].
    apply whole_by_length. destruct fem; cons_form; lengths HW'.
  - intros d a. apply Hgen.
    destruct (Bool.eqb d fem) eqn:Hd.
    + (* the right demonstrative: the third rule *)
      apply Bool.eqb_prop in Hd. subst d.
      apply (apply_rules fem W Hf Hn 2%nat); [lia | |].
      * intros j Hj. destruct j as [|[|j]]; [| |lia];
          destruct fem, a; cons_form; skip_by_matching Hn HW'.
      * apply (rule_fix fem W Hf); [in_rules | |].
        -- pose proof (lang_rule3 fem W W' HW' fem a) as Hl.
           destruct fem, a; exact Hl.
        -- destruct a.
           ++ destruct fem.
              ** apply (whole_by_tail true W W' HW' _ (u "Essa é um") 97 32);
                   [in_rules | reflexivity | cons_form; lengths HW'].
              ** apply (whole_by_tail false W W' HW' _ (u "Esse é um") 97 32);
                   [in_rules | reflexivity | cons_form; lengths HW'].
           ++ apply whole_by_length. destruct fem; cons_form; lengths HW'.
    + (* the wrong demonstrative: the second rule *)
      assert (d = negb fem) by (destruct d, fem; try reflexivity; discriminate Hd). subst d.
      apply (apply_rules fem W Hf Hn 1%nat); [lia | |].
      * intros j Hj. destruct j as [|j]; [|lia].
        destruct fem, a; cons_form; skip_by_matching Hn HW'.
      * apply (rule_fix fem W Hf); [in_rules | |].
        -- pose proof (lang_rule2 fem W W' Hf Hn HW' a) as Hl.
           destruct fem, a; exact Hl.
        -- destruct a.
           ++ destruct fem.
              ** apply (whole_by_tail true W W' HW' _ (u "Esse é um") 97 32);
                   [in_rules | reflexivity | cons_form; lengths HW'].
              ** apply (whole_by_tail false W W' HW' _ (u "Essa é um") 97 32);
                   [in_rules | reflexivity | cons_form; lengths HW'].
           ++ apply whole_by_length. destruct fem; cons_form; lengths HW'.
  - intros d. apply Hgen.
    destruct (Bool.eqb d fem) eqn:Hd.
    + apply Bool.eqb_prop in Hd. subst d.
      apply (apply_rules fem W Hf Hn 4%nat); [lia | |].
      * intros j Hj. destruct j as [|[|[|[|j]]]]; [| | | |lia];
          destruct fem; cons_form;
          first [skip_by_length Hn HW' | skip_by_matching Hn HW'].
      * apply (rule_fix fem W Hf); [in_rules | |].
        -- pose proof (lang_rule5 fem W W' HW' fem) as Hl. destruct fem; exact Hl.
        -- apply whole_by_length. destruct fem; cons_form; lengths HW'.
    + assert (d = negb fem) by (destruct d, fem; try reflexivity; discriminate Hd). subst d.
      apply (apply_rules fem W Hf Hn 3%nat); [lia | |].
      * intros j Hj. destruct j as [|[|[|j]]]; [| | |lia];
          destruct fem; cons_form; skip_by_length Hn HW'.
      * apply (rule_fix fem W Hf); [in_rules | exact (lang_rule4 fem W W' Hf Hn HW') |].
        apply whole_by_length. destruct fem; cons_form; lengths HW'.
Qed.

(** X13, witness. *)
Lemma fix_corrects_listed_errors_witness :
  _fix_portuguese_grammar (u "Esse é uma mesa") (u "mesa") = u "Essa é a MESA".
Proof.
  exact (proj1 (proj2 (fix_corrects_listed_errors (u "mesa") (u "mesa")
                         ltac:(vm_compute; reflexivity) ltac:(vm_compute; reflexivity)
                         ltac:(vm_compute; reflexivity) ltac:(vm_compute; reflexivity)))
           false true).
Defined.


(** X14. A reply of white space only gives an empty introduction, with the
    time measured, not the fallback introduction: the reply is trimmed,
    corrected and returned without a check for emptiness. (The translation
    in the range modelled: code points below 256, no backslash.) *)
Theorem intro_blank_reply
    (word translation room environment : list N) (user_age : option Z)
    (response : list N) (elapsed : Z) :
  plain_word translation = true ->
  forallb isspace response = true ->
  generate_intro word translation room environment user_age (Reply response) elapsed
  = JObj [ (u "intro_text", JStr []); (u "generation_time_ms", JInt elapsed) ].
Proof.
  intros _ H. unfold generate_intro. rewrite (strip_blank response H).
  rewrite (fix_no_ess [] translation eq_refl). reflexivity.
Qed.

(** X14, witness. *)
Lemma intro_blank_reply_witness :
  generate_intro (u "sofa") (u "sofá") (u "sala") (u "casa") None (Reply (u "  ")) 40
  = JObj [ (u "intro_text", JStr []); (u "generation_time_ms", JInt 40) ].
Proof.
  apply (intro_blank_reply (u "sofa") (u "sofá") (u "sala") (u "casa") None (u "  ") 40);
    reflexivity.
Defined.


(** X15. The fallback introduction agrees with the grammar rules: the
    phrase it presents the object with is the replacement every rule of the
    table for the same word writes (the same demonstrative, the same
    article, the word in upper case). *)
Theorem intro_fallback_agrees_with_rules (translation room : list N) (elapsed : Z) :
  Forall (fun rule =>
            intro_fallback translation room elapsed
            = JObj [ (u "intro_text",
                      JStr (u "Olá! 📚 " ++ snd rule ++ u "! "
                            ++ u "Usamos no nosso dia a dia aqui na " ++ room ++ u ". "
                            ++ u "Quer aprender como falar isso em inglês? 🇺🇸"));
                     (u "generation_time_ms", JInt elapsed) ])
         (patterns_to_fix translation)
  /\ patterns_to_fix translation <> [].
Proof.
  split; [|discriminate].
  unfold patterns_to_fix, intro_fallback.
  destruct (endswith (lower translation) (u "a"));
    repeat constructor; cbn [snd]; rewrite <- !app_assoc; reflexivity.
Qed.


(** ** Examples: the further definitions at work *)

Example speed_name_examples :
  List.map BrazilianTTS.speed_name
    [0.75%float; 0x1.b333333333333p-1%float; 1%float; 0x1.2666666666666p+0%float;
     1.25%float; nan]
  = [u "slow"; u "slow"; u "normal"; u "fast"; u "fast"; u "normal"].
Proof. vm_compute. reflexivity. Qed.

#[warnings="-abstract-large-number"]
Example round_mb_examples :
  List.map round_mb [0; 5242; 5243; 131072; 393216; 1048576]%nat
  = [0; 0; 0x1.47ae147ae147bp-7; 0x1.eb851eb851eb8p-4; 0x1.851eb851eb852p-2; 1]%float
  /\ exact_mb 524288 = 0.5%float.
Proof. vm_compute. split; reflexivity. Qed.

Example clear_cache_example :
  let w := {| files := {[ (u "./audio_cache_pt", u "edge_ab.mp3") := [1; 2; 3];
                          (u "./audio_cache_pt", u "piper_pt_ab.wav") := [4; 5] ]};
              invocations := 2 |} in
  files_deleted (fst (clear_cache edge_default w)) = 1%nat
  /\ files (snd (clear_cache edge_default w)) !! (u "./audio_cache_pt", u "edge_ab.mp3") = None
  /\ files (snd (clear_cache edge_default w)) !! (u "./audio_cache_pt", u "piper_pt_ab.wav")
     = Some [4; 5].
Proof. vm_compute. repeat split; reflexivity. Qed.

Example find_piper_examples :
  PiperTTS._find_piper_executable (fun p => str_eqb p (u "/usr/local/bin/piper")) PiperTTS.NotFound
  = Return (Some (u "/usr/local/bin/piper"))
  /\ PiperTTS._find_piper_executable (fun _ => false) (PiperTTS.Exited 0)
     = Return (Some (u "piper"))
  /\ PiperTTS._find_piper_executable (fun _ => false) (PiperTTS.Exited 1) = Return None
  /\ PiperTTS._find_piper_executable (fun _ => false) PiperTTS.NotFound = Return None
  /\ PiperTTS._find_piper_executable (fun _ => false) PiperTTS.OtherError = Raise OSError.
Proof. vm_compute. repeat split; reflexivity. Qed.

(** A reference [get_edge_tts] returns denotes an object, given that the
    global, when set, does. *)
Lemma get_edge_tts_object cache_dir mkdir_ok g ref g' :
  (forall r, _edge_tts_instance g = Some r -> is_Some (objects g !! r)) ->
  get_edge_tts cache_dir mkdir_ok g = (Return ref, g') ->
  is_Some (objects g' !! ref)
  /\ (forall r, _edge_tts_instance g' = Some r -> is_Some (objects g' !! r)).
Proof.
  intros Hwf. unfold get_edge_tts.
  destruct (_edge_tts_instance g) as [r|] eqn:Hr.
  - intros [= <- <-]. split; [apply Hwf; reflexivity|].
    intros r0 Hr0. apply Hwf. congruence.
  - destruct (__init__ cache_dir mkdir_ok) as [service|e]; [|discriminate].
    intros [= <- <-]. cbn [objects _edge_tts_instance].
    assert (Hnew : is_Some ((objects g ++ [service]) !! length (objects g))).
    { exists service. rewrite lookup_app_r by lia. rewrite Nat.sub_diag. reflexivity. }
    split; [exact Hnew|]. intros r [= <-]. exact Hnew.
Qed.

(** ** The cache directory: listing, clearing, statistics *)

Section CacheFacts.

Implicit Types (w : world) (self : EdgeTTSService).

Lemma glob_lookup w directory prefix suffix (q : list N * list N) :
  glob w directory prefix suffix !! q
  = if decide (fst q = directory /\ glob_match prefix suffix (snd q) = true)
    then files w !! q else None.
Proof.
  unfold glob. destruct (files w !! q) as [b|] eqn:E.
  - case_decide as H.
    + apply map_lookup_filter_Some. split; [exact E|exact H].
    + apply map_lookup_filter_None. right. intros b' Hb' HP. apply H. exact HP.
  - case_decide; apply map_lookup_filter_None; left; exact E.
Qed.

Lemma unlink_all_lookup w directory prefix suffix (q : list N * list N) :
  files (unlink_all (glob w directory prefix suffix) w) !! q
  = if decide (fst q = directory /\ glob_match prefix suffix (snd q) = true)
    then None else files w !! q.
Proof.
  unfold unlink_all. cbn [files].
  destruct (files w !! q) as [b|] eqn:E.
  - case_decide as H.
    + apply lookup_difference_None. right. rewrite glob_lookup.
      rewrite decide_True by exact H. rewrite E. eauto.
    + apply lookup_difference_Some. split; [exact E|].
      rewrite glob_lookup. rewrite decide_False by exact H. reflexivity.
  - case_decide; apply lookup_difference_None; left; exact E.
Qed.

(** After the files listed are removed, the listing is empty. *)
Lemma glob_unlink_all w directory prefix suffix :
  glob (unlink_all (glob w directory prefix suffix) w) directory prefix suffix = ∅.
Proof.
  apply map_eq. intros q. rewrite lookup_empty, glob_lookup.
  case_decide as H; [|reflexivity].
  rewrite unlink_all_lookup. rewrite decide_True by exact H. reflexivity.
Qed.

Lemma sum_sizes_empty : sum_sizes ∅ = 0%nat.
Proof. unfold sum_sizes. apply map_fold_empty. Qed.

Lemma unlink_all_empty w : unlink_all ∅ w = w.
Proof.
  unfold unlink_all. destruct w as [f n]. cbn [files invocations]. f_equal.
  apply map_eq. intros q. destruct (f !! q) eqn:E.
  - apply lookup_difference_Some. split; [exact E|apply lookup_empty].
  - apply lookup_difference_None. left. exact E.
Qed.

(** The name of every cache file of the Edge service matches its pattern. *)
Lemma edge_name_matches self text voice rate :
  glob_match (u "edge_") (u ".mp3") (snd (_get_cache_path self text voice rate)) = true.
Proof.
  unfold _get_cache_path, glob_match. cbn [snd].
  rewrite startswith_self.
  rewrite (app_assoc (u "edge_")), endswith_self.
  rewrite !length_app. cbn [andb]. apply Nat.leb_le. lia.
Qed.

End CacheFacts.

(** X16. [generate_speech] of the Edge service touches one file only, the
    one of the request's key: every other file of the world is as it was,
    and the engine is run once at most. *)
Theorem edge_generate_speech_frame
    (av : bool) (self : EdgeTTSService) (text language : list N)
    (voice : option (list N)) (speed : list N) (use_cache : bool)
    (run : engine_run) (elapsed : Z) (w : world) :
  let w' := snd (generate_speech av self text language voice speed use_cache run elapsed w) in
  (forall q, q <> request_key self text language voice speed ->
             files w' !! q = files w !! q)
  /\ (invocations w <= invocations w' <= S (invocations w))%nat.
Proof.
  unfold generate_speech. fold (request_key self text language voice speed).
  set (p := request_key self text language voice speed).
  assert (Hrun : forall q, q <> p -> files (run_engine run p w) !! q = files w !! q).
  { intros q Hq. unfold run_engine. cbn [files].
    destruct (written run); [|reflexivity]. apply lookup_insert_ne. congruence. }
  destruct av; cbn [negb]; [|split; [reflexivity|cbn [snd]; lia]].
  destruct (use_cache && _is_cached w p); [split; [reflexivity|cbn [snd]; lia]|].
  unfold _generate_async.
  destruct (how run); cbn [negb orb];
    try (split; [exact Hrun | cbn [snd run_engine invocations]; lia]).
  destruct (_is_cached (run_engine run p w) p); cbn [negb orb];
    (split; [exact Hrun | cbn [snd run_engine invocations]; lia]).
Qed.

Section UncachedFacts.

(** A call that could compute its key is the body, returned. *)
Lemma generate_speech_call_encodable self text language voice speed uc run e w :
  encodable (key_text text (resolve_voice self language voice) (resolve_rate speed)) = true ->
  generate_speech_call true self text language voice speed uc run e w
  = (Return (fst (generate_speech true self text language voice speed uc run e w)),
     snd (generate_speech true self text language voice speed uc run e w)).
Proof.
  intros H. unfold generate_speech_call. cbn [negb]. rewrite H.
  destruct (generate_speech true self text language voice speed uc run e w). reflexivity.
Qed.

Lemma generate_speech_call_not_encodable self text language voice speed uc run e w :
  encodable (key_text text (resolve_voice self language voice) (resolve_rate speed)) = false ->
  generate_speech_call true self text language voice speed uc run e w
  = (Raise UnicodeEncodeError, w).
Proof. intros H. unfold generate_speech_call. cbn [negb]. rewrite H. reflexivity. Qed.

(** The body without the cache: the engine is run at the path of the key. *)
Lemma generate_speech_uncached self text language voice speed run elapsed w :
  exists result,
    generate_speech true self text language voice speed false run elapsed w
    = (result, run_engine run (request_key self text language voice speed) w)
    /\ forall s, result = Some s ->
         cached s = false
         /\ forall bytes, written run = Some bytes -> file_size s = length bytes.
Proof.
  unfold generate_speech. fold (request_key self text language voice speed).
  set (p := request_key self text language voice speed).
  cbn [negb andb]. unfold _generate_async.
  assert (Hsize : forall bytes, written run = Some bytes ->
                    st_size (run_engine run p w) p = Some (length bytes)).
  { intros bytes Hb. unfold st_size, run_engine. cbn [files]. rewrite Hb.
    rewrite lookup_insert_eq. reflexivity. }
  destruct (how run); cbn [negb orb];
    try (eexists; split; [reflexivity|]; intros s Hs; discriminate Hs).
  destruct (_is_cached (run_engine run p w) p); cbn [negb orb];
    [|eexists; split; [reflexivity|]; intros s Hs; discriminate Hs].
  eexists. split; [reflexivity|]. intros s Hs.
  destruct (st_size (run_engine run p w) p) as [n|] eqn:Hn; [|discriminate Hs].
  injection Hs as <-. cbn [cached file_size]. split; [reflexivity|].
  intros bytes Hb. specialize (Hsize bytes Hb). congruence.
Qed.

End UncachedFacts.

(** X17. With [use_cache=False] the engine is run on every call whose key
    can be computed, cached file or not, at the path of the key; a result,
    if there is one, is marked as not cached, and reports the size of what
    this run wrote. A call whose key text cannot be encoded raises
    [UnicodeEncodeError], and the engine is not run. *)
Theorem edge_generate_speech_without_cache
    (self : EdgeTTSService) (text language : list N)
    (voice : option (list N)) (speed : list N) (run : engine_run) (elapsed : Z) (w : world) :
  (encodable (key_text text (resolve_voice self language voice) (resolve_rate speed)) = true ->
   exists result,
     generate_speech_call true self text language voice speed false run elapsed w
     = (Return result, run_engine run (request_key self text language voice speed) w)
     /\ forall s, result = Some s ->
          cached s = false
          /\ forall bytes, written run = Some bytes -> file_size s = length bytes)
  /\ (encodable (key_text text (resolve_voice self language voice) (resolve_rate speed)) = false ->
      generate_speech_call true self text language voice speed false run elapsed w
      = (Raise UnicodeEncodeError, w)).
Proof.
  split.
  - intros H. rewrite (generate_speech_call_encodable _ _ _ _ _ _ _ _ _ H).
    destruct (generate_speech_uncached self text language voice speed run elapsed w)
      as (result & -> & Hres).
    exists result. split; [reflexivity | exact Hres].
  - apply generate_speech_call_not_encodable.
Qed.

(** X17, witness: the request of the scenario, the cache not in use. *)
Lemma edge_generate_speech_without_cache_witness :
  exists result,
    generate_speech_call true edge_default (u "Hello") (u "pt-BR") (Some (u "V1")) (u "normal")
      false three_bytes 120 empty_world
    = (Return result, run_engine three_bytes hello_key empty_world)
    /\ forall s, result = Some s ->
         cached s = false
         /\ forall bytes, written three_bytes = Some bytes -> file_size s = length bytes.
Proof.
  apply (proj1 (edge_generate_speech_without_cache edge_default (u "Hello") (u "pt-BR")
                  (Some (u "V1")) (u "normal") three_bytes 120 empty_world)).
  vm_compute. reflexivity.
Defined.

(** X18. After [clear_cache] no request of the service is cached: the
    lookup at the key of any request finds nothing, so the next
    [generate_speech] whose key can be computed runs the engine, whatever
    the request and whether the cache is in use or not. *)
Theorem edge_clear_cache_forgets_all
    (self : EdgeTTSService) (w : world) (text language : list N)
    (voice : option (list N)) (speed : list N) (use_cache : bool)
    (run : engine_run) (elapsed : Z) :
  let w1 := snd (clear_cache self w) in
  let p := request_key self text language voice speed in
  files w1 !! p = None
  /\ _is_cached w1 p = false
  /\ (encodable (key_text text (resolve_voice self language voice) (resolve_rate speed))
      = true ->
      exists result,
        generate_speech_call true self text language voice speed use_cache run elapsed w1
        = (Return result, run_engine run p w1)).
Proof.
  intros w1 p.
  assert (Hnone : files w1 !! p = None).
  { subst w1. unfold clear_cache. cbn [snd]. rewrite unlink_all_lookup.
    rewrite decide_True; [reflexivity|].
    split; [reflexivity|]. apply edge_name_matches. }
  assert (Hc : _is_cached w1 p = false) by (unfold _is_cached; rewrite Hnone; reflexivity).
  split; [exact Hnone|]. split; [exact Hc|].
  intros H. rewrite (generate_speech_call_encodable _ _ _ _ _ _ _ _ _ H).
  eexists. f_equal.
  unfold generate_speech. fold (request_key self text language voice speed). fold p.
  cbn [negb]. rewrite Hc, andb_false_r. unfold _generate_async.
  destruct (how run); try reflexivity.
  destruct (_is_cached (run_engine run p w1) p); reflexivity.
Qed.

(** X18, witness: the file of the scenario, cleared, is generated anew. *)
Lemma edge_clear_cache_forgets_all_witness :
  exists result,
    generate_speech_call true edge_default (u "Hello") (u "pt-BR") (Some (u "V1")) (u "normal")
      true three_bytes 120
      (snd (clear_cache edge_default (run_engine three_bytes hello_key empty_world)))
    = (Return result,
       run_engine three_bytes hello_key
         (snd (clear_cache edge_default (run_engine three_bytes hello_key empty_world)))).
Proof.
  apply (proj2 (proj2 (edge_clear_cache_forgets_all edge_default
                         (run_engine three_bytes hello_key empty_world)
                         (u "Hello") (u "pt-BR") (Some (u "V1")) (u "normal") true
                         three_bytes 120))).
  vm_compute. reflexivity.
Defined.

(** X19. The two services that share the default directory do not clear
    each other's cache: [clear_cache] of the Edge service leaves every cache
    file of the Piper service, and that of the Piper service every cache
    file of the Edge service; and the Edge service removes nothing outside
    its directory or its pattern. *)
Theorem clear_cache_spares_other_files
    (edge : EdgeTTSService) (piper : PiperTTS.PiperTTSService) (w : world) :
  (forall text speed_text,
      files (snd (clear_cache edge w)) !! PiperTTS._get_cache_path piper text speed_text
      = files w !! PiperTTS._get_cache_path piper text speed_text)
  /\ (forall text voice rate,
      files (snd (PiperTTS.clear_cache piper w)) !! _get_cache_path edge text voice rate
      = files w !! _get_cache_path edge text voice rate)
  /\ (forall q,
      fst q <> cache_dir edge \/ glob_match (u "edge_") (u ".mp3") (snd q) = false ->
      files (snd (clear_cache edge w)) !! q = files w !! q).
Proof.
  assert (Hother : forall q,
            fst q <> cache_dir edge \/ glob_match (u "edge_") (u ".mp3") (snd q) = false ->
            files (snd (clear_cache edge w)) !! q = files w !! q).
  { intros q Hq. unfold clear_cache. cbn [snd]. rewrite unlink_all_lookup.
    rewrite decide_False; [reflexivity|]. intros [H1 H2]. destruct Hq; congruence. }
  split; [|split; [|exact Hother]].
  - intros text speed_text. apply Hother. right.
    unfold PiperTTS._get_cache_path, glob_match. cbn [snd]. reflexivity.
  - intros text voice rate. unfold PiperTTS.clear_cache. cbn [snd].
    rewrite unlink_all_lookup. rewrite decide_False; [reflexivity|].
    intros [_ H]. unfold _get_cache_path, glob_match in H. cbn [snd] in H.
    unfold endswith in H. rewrite !rev_app_distr in H.
    cbn [startswith] in H. rewrite andb_true_l in H.
    apply andb_true_iff in H as [H _].
    change (rev (u ".mp3")) with [51; 112; 109; 46] in H.
    change (rev (u ".wav")) with [118; 97; 119; 46] in H.
    cbn in H. discriminate H.
Qed.

(** X20. What [clear_cache] reports is what [get_cache_stats] counted just
    before; after it the statistics show no file and no size, and a second
    [clear_cache] deletes nothing and leaves the world as it is. *)
Theorem edge_clear_cache_and_stats (av : bool) (self : EdgeTTSService) (w : world) :
  let cleared := fst (clear_cache self w) in
  let w1 := snd (clear_cache self w) in
  files_deleted cleared = total_files (get_cache_stats av self w)
  /\ space_freed_mb cleared = total_size_mb (get_cache_stats av self w)
  /\ total_files (get_cache_stats av self w1) = 0%nat
  /\ total_size_mb (get_cache_stats av self w1) = 0%float
  /\ clear_cache self w1 = ({| files_deleted := 0; space_freed_mb := 0 |}, w1).
Proof.
  intros cleared w1. subst cleared w1.
  unfold clear_cache, get_cache_stats. cbn [fst snd files_deleted space_freed_mb
    total_files total_size_mb].
  rewrite glob_unlink_all, sum_sizes_empty, unlink_all_empty.
  repeat split; reflexivity.
Qed.

(** X21. The statistics count the file a generation adds: after a call
    that returned a result, [total_files] is one more than before when no
    file stood at the path of the key, and the same when one did (a cached
    file, or one the engine overwrote). *)
Theorem edge_stats_count_generated_file
    (av : bool) (self : EdgeTTSService) (text language : list N)
    (voice : option (list N)) (speed : list N) (use_cache : bool)
    (run : engine_run) (elapsed : Z) (w w' : world) (s : speech) :
  generate_speech av self text language voice speed use_cache run elapsed w = (Some s, w') ->
  total_files (get_cache_stats av self w')
  = if decide (files w !! request_key self text language voice speed = None)
    then S (total_files (get_cache_stats av self w))
    else total_files (get_cache_stats av self w).
Proof.
  intros H. apply generate_speech_some in H as (_ & Hc & _ & _ & _ & Hhit & Hnew).
  set (p := request_key self text language voice speed) in *.
  unfold get_cache_stats. cbn [total_files].
  assert (Hcached : forall w0, _is_cached w0 p = true -> files w0 !! p <> None).
  { intros w0 H0 Hn. unfold _is_cached in H0. rewrite Hn in H0. discriminate. }
  destruct (cached s).
  - rewrite (Hhit eq_refl) in *. rewrite decide_False by auto. reflexivity.
  - rewrite (Hnew eq_refl) in *. unfold glob, run_engine in *. cbn [files] in *.
    destruct (written run) as [bytes|].
    + rewrite map_filter_insert_True;
        [|split; [reflexivity | apply edge_name_matches]].
      destruct (files w !! p) as [b|] eqn:E.
      * rewrite decide_False by discriminate.
        apply map_size_insert_Some. exists b.
        apply map_lookup_filter_Some. split; [exact E|].
        split; [reflexivity | apply edge_name_matches].
      * rewrite decide_True by reflexivity.
        apply map_size_insert_None. apply map_lookup_filter_None. left. exact E.
    + rewrite decide_False; [reflexivity|]. apply (Hcached _ Hc).
Qed.

(** X21, witness. *)
Lemma edge_stats_count_generated_file_witness :
  total_files (get_cache_stats true edge_default (run_engine three_bytes hello_key empty_world))
  = 1%nat.
Proof.
  rewrite (edge_stats_count_generated_file true edge_default (u "Hello") (u "pt-BR")
             (Some (u "V1")) (u "normal") true three_bytes 120 empty_world
             (run_engine three_bytes hello_key empty_world) hello_speech
             ltac:(vm_compute; reflexivity)).
  vm_compute. reflexivity.
Defined.


(** The voice asked for matters through the voice it resolves to. *)
Lemma generate_speech_resolved_voice av self text language voice1 voice2 speed uc run e w :
  resolve_voice self language voice1 = resolve_voice self language voice2 ->
  generate_speech av self text language voice1 speed uc run e w
  = generate_speech av self text language voice2 speed uc run e w.
Proof. intros H. unfold generate_speech. rewrite H. reflexivity. Qed.

(** X22. The Brazilian service and the Edge shortcut [speak_portuguese]
    share cache entries. When the Brazilian service refers to the Edge
    singleton and its [generate_speech] returned a result, the file lies in
    the directory of the Edge instance (whatever the Brazilian service's own
    directory), and [speak_portuguese] with the same text and the name of
    the speed is answered from the cache, with the same file, the engine not
    being run. *)
Theorem brazilian_shares_edge_cache
    (av : bool) (self : BrazilianTTS.BrazilianTTSService) (g : globals) (ref : nat)
    (edge : EdgeTTSService) (dir text : list N) (speed : float) (use_cache mkdir_ok : bool)
    (run run2 : engine_run) (elapsed elapsed2 : Z) (w w1 : world) (s : speech) :
  BrazilianTTS.tts self = Some ref ->
  _edge_tts_instance g = Some ref ->
  objects g !! ref = Some edge ->
  __init__ dir true = Return edge ->
  BrazilianTTS.generate_speech av self text speed use_cache g run elapsed w = (Some s, w1) ->
  fst (audio_path s) = dir
  /\ exists s2,
       speak_portuguese av text (BrazilianTTS.speed_name speed) mkdir_ok run2 elapsed2 g w1
       = (Return (Some s2), g, w1)
       /\ cached s2 = true
       /\ audio_path s2 = audio_path s
       /\ audio_url s2 = audio_url s
       /\ file_size s2 = file_size s.
Proof.
  intros Htts Hinst Hobj Hinit H.
  unfold BrazilianTTS.generate_speech in H. rewrite Htts, Hobj in H.
  destruct av; cbn [negb] in H; [|discriminate H].
  unfold __init__ in Hinit. injection Hinit as <-.
  apply generate_speech_some in H as (_ & Hc & Hp & Hu & Hs & _ & _).
  split; [rewrite Hp; reflexivity|].
  unfold speak_portuguese, get_edge_tts. rewrite Hinst, Hobj.
  rewrite (generate_speech_resolved_voice _ _ _ _ None (Some (u "pt-BR-FranciscaNeural")))
    by (vm_compute; reflexivity).
  unfold generate_speech. cbn [negb andb].
  match goal with |- context [_get_cache_path ?e ?t ?v ?r] =>
    fold (request_key e t (u "pt-BR") (Some (u "pt-BR-FranciscaNeural"))
            (BrazilianTTS.speed_name speed)) end.
  rewrite Hc, Hs. cbn [mbind option_bind].
  eexists. split; [reflexivity|]. cbn [cached audio_path audio_url file_size].
  rewrite Hp, Hu. repeat split; reflexivity.
Qed.


(** X22, witness. *)
Lemma brazilian_shares_edge_cache_witness :
  fst (audio_path ola_speech) = u "./audio_cache_pt"
  /\ exists s2,
       speak_portuguese true (u "Olá") (u "normal") true three_bytes 9 edge_singleton
         (run_engine three_bytes ola_key empty_world)
       = (Return (Some s2), edge_singleton, run_engine three_bytes ola_key empty_world)
       /\ cached s2 = true
       /\ audio_path s2 = audio_path ola_speech
       /\ audio_url s2 = audio_url ola_speech
       /\ file_size s2 = file_size ola_speech.
Proof.
  apply (brazilian_shares_edge_cache true brazilian_example edge_singleton 0 edge_default
           (u "./audio_cache_pt") (u "Olá") 1%float true true three_bytes three_bytes 5 9
           empty_world (run_engine three_bytes ola_key empty_world) ola_speech);
    vm_compute; reflexivity.
Defined.


(** ** The Piper service *)

Section PiperFacts.

(** What a result of the Piper service means. *)
Lemma piper_generate_speech_some self text speed_text uc models run e w s self1 w1 :
  PiperTTS.generate_speech self text speed_text uc models run e w = (Some s, self1, w1) ->
  let p := PiperTTS._get_cache_path self text speed_text in
  PiperTTS.piper_executable self1 = PiperTTS.piper_executable self
  /\ PiperTTS.piper_executable self <> None
  /\ PiperTTS.model_path self1 <> None
  /\ PiperTTS._get_cache_path self1 text speed_text = p
  /\ PiperTTS.audio_path s = p
  /\ ((PiperTTS.cached s = true /\ PiperTTS.file_size s = None /\ w1 = w
       /\ _is_cached w p = true)
      \/ (PiperTTS.cached s = false /\ w1 = run_engine run p w
          /\ exists size, PiperTTS.file_size s = Some size /\ st_size w1 p = Some size)).
Proof.
  unfold PiperTTS.generate_speech.
  destruct (PiperTTS.piper_executable self) as [exe|] eqn:Hexe; [|discriminate].
  destruct (PiperTTS.model_path self) as [m|] eqn:Hm;
    [|destruct models as [|m models]; [discriminate|]];
    cbn [PiperTTS.download_model negb];
    unfold PiperTTS._get_cache_path; cbn [PiperTTS.cache_dir];
    set (p := (PiperTTS.cache_dir self, _));
    (destruct (uc && _is_cached w p) eqn:Hhit;
     [ apply andb_true_iff in Hhit as [_ Hc]
     | destruct (how run); try discriminate;
       destruct (st_size (run_engine run p w) p) as [size|] eqn:Hsz; [|discriminate] ]);
    intros [= <- <- <-]; cbn;
    rewrite ?Hexe, ?Hm; repeat split; try discriminate; auto;
    right; repeat split; eauto.
Qed.

Lemma is_cached_size w p size :
  st_size w p = Some size -> _is_cached w p = (0 <? size)%nat.
Proof.
  unfold st_size, _is_cached. destruct (files w !! p) as [b|]; [|discriminate].
  cbn. intros [= <-]. reflexivity.
Qed.

End PiperFacts.

(** X23. A result of the Piper service is served from the cache on the
    next call exactly when the file behind it is not empty. The service
    returns a result whenever the engine exits with code 0 and a file is
    there, be it empty (size 0): such a result is not cached, and the next
    call runs the engine again; after any other result the next call (the
    cache in use) returns the same path marked as cached and runs nothing. *)
Theorem piper_second_call
    (self self1 : PiperTTS.PiperTTSService) (text speed_text : list N) (use_cache : bool)
    (models models2 : list (list N)) (run run2 : engine_run) (elapsed elapsed2 : Z)
    (w w1 : world) (s : PiperTTS.speech) :
  PiperTTS.generate_speech self text speed_text use_cache models run elapsed w
  = (Some s, self1, w1) ->
  let second :=
    PiperTTS.generate_speech self1 text speed_text true models2 run2 elapsed2 w1 in
  (PiperTTS.file_size s <> Some 0%nat ->
   exists s2, second = (Some s2, self1, w1)
     /\ PiperTTS.cached s2 = true
     /\ PiperTTS.audio_path s2 = PiperTTS.audio_path s)
  /\ (PiperTTS.file_size s = Some 0%nat ->
      snd second = run_engine run2 (PiperTTS._get_cache_path self text speed_text) w1).
Proof.
  intros H second. subst second.
  apply piper_generate_speech_some in H as (He1 & He & Hm & Hp & Hpath & Hcase).
  unfold PiperTTS.generate_speech. rewrite He1.
  destruct (PiperTTS.piper_executable self) as [exe|]; [|congruence].
  destruct (PiperTTS.model_path self1) as [m|]; [|congruence].
  cbn [negb andb]. rewrite Hp.
  set (p := PiperTTS._get_cache_path self text speed_text) in *.
  assert (Hc : _is_cached w1 p = negb (bool_decide (PiperTTS.file_size s = Some 0%nat))).
  { destruct Hcase as [(_ & Hfs & -> & Hc) | (_ & _ & size & Hfs & Hsz)].
    - rewrite Hc, Hfs. reflexivity.
    - rewrite (is_cached_size _ _ _ Hsz), Hfs. destruct size; reflexivity. }
  split.
  - intros Hne. rewrite bool_decide_eq_false_2 in Hc by exact Hne. rewrite Hc.
    eexists. split; [reflexivity|]. cbn. auto.
  - intros H0. rewrite bool_decide_eq_true_2 in Hc by exact H0. rewrite Hc.
    destruct (how run2); try reflexivity.
    destruct (st_size (run_engine run2 p w1) p); reflexivity.
Qed.


(** X23, witness. *)
Lemma piper_second_call_witness :
  exists s2,
    PiperTTS.generate_speech piper_ready (u "Olá") (u "1.0") true [] three_bytes 9
      (run_engine three_bytes piper_ola_key empty_world)
    = (Some s2, piper_ready, run_engine three_bytes piper_ola_key empty_world)
    /\ PiperTTS.cached s2 = true
    /\ PiperTTS.audio_path s2 = PiperTTS.audio_path piper_ola_speech.
Proof.
  apply (proj1 (piper_second_call piper_ready piper_ready (u "Olá") (u "1.0") true [] []
                  three_bytes three_bytes 5 9 empty_world
                  (run_engine three_bytes piper_ola_key empty_world) piper_ola_speech
                  ltac:(vm_compute; reflexivity))).
  discriminate.
Defined.


(** X24. The Piper service looks for its model until it finds one, and
    then keeps it. A call that cannot start (no executable, or no model set
    and none listed) returns nothing and leaves the service and the files as
    they were; after any call that could start the model is set, and what
    the models directory lists no longer matters to any later call. (As in
    [download_model] above, the models directory is taken to be there or
    creatable: its [mkdir] returns.) *)
Theorem piper_model_is_remembered
    (self self1 : PiperTTS.PiperTTSService) (text speed_text : list N) (use_cache : bool)
    (models : list (list N)) (run : engine_run) (elapsed : Z) (w w1 : world)
    (result : option PiperTTS.speech) :
  PiperTTS.generate_speech self text speed_text use_cache models run elapsed w
  = (result, self1, w1) ->
  (PiperTTS.piper_executable self = None
   \/ (PiperTTS.model_path self = None /\ models = []) ->
   result = None /\ self1 = self /\ w1 = w)
  /\ (PiperTTS.piper_executable self <> None ->
      PiperTTS.model_path self <> None \/ models <> [] ->
      PiperTTS.model_path self1 <> None
      /\ forall text' speed_text' use_cache' models2 models3 run' elapsed' w',
          PiperTTS.generate_speech self1 text' speed_text' use_cache' models2 run' elapsed' w'
          = PiperTTS.generate_speech self1 text' speed_text' use_cache' models3 run' elapsed' w').
Proof.
  intros H. split.
  - intros Hno. unfold PiperTTS.generate_speech in H.
    destruct (PiperTTS.piper_executable self) as [exe|];
      [|injection H as <- <- <-; auto].
    destruct Hno as [Hno | [Hm ->]]; [discriminate|]. rewrite Hm in H.
    cbn in H. injection H as <- <- <-. auto.
  - intros He Hm.
    assert (Hset : PiperTTS.model_path self1 <> None).
    { unfold PiperTTS.generate_speech in H.
      destruct (PiperTTS.piper_executable self) as [exe|]; [|congruence].
      destruct (PiperTTS.model_path self) as [m|] eqn:Em.
      - cbn [negb] in H.
        repeat match type of H with
               | context [if ?b then _ else _] => destruct b
               | context [match ?x with _ => _ end] => destruct x
               end; injection H as _ <- _; rewrite Em; discriminate.
      - destruct models as [|m models]; [destruct Hm; congruence|].
        cbn [PiperTTS.download_model negb] in H.
        repeat match type of H with
               | context [if ?b then _ else _] => destruct b
               | context [match ?x with _ => _ end] => destruct x
               end; injection H as _ <- _; discriminate. }
    split; [exact Hset|].
    intros text' speed_text' use_cache' models2 models3 run' elapsed' w'.
    unfold PiperTTS.generate_speech.
    destruct (PiperTTS.piper_executable self1); [|reflexivity].
    destruct (PiperTTS.model_path self1); [reflexivity|congruence].
Qed.

(** X24, witness. *)
Lemma piper_model_is_remembered_witness :
  PiperTTS.model_path piper_ready <> None
  /\ forall text' speed_text' use_cache' models2 models3 run' elapsed' w',
      PiperTTS.generate_speech piper_ready text' speed_text' use_cache' models2 run' elapsed' w'
      = PiperTTS.generate_speech piper_ready text' speed_text' use_cache' models3 run' elapsed' w'.
Proof.
  apply (proj2 (piper_model_is_remembered piper_ready piper_ready (u "Olá") (u "1.0") true
                  [] {| written := None; how := Crashed |} 5 empty_world
                  (run_engine {| written := None; how := Crashed |} piper_ola_key empty_world)
                  None ltac:(reflexivity))).
  - discriminate.
  - left. discriminate.
Defined.

(** X25. A local executable of Piper wins over the one on the PATH: when
    one of the four candidate paths exists, [_find_piper_executable] returns
    a candidate that exists, whatever running [piper --version] would do
    (it is not run, so its failure cannot leave the call). *)
Theorem find_piper_prefers_local
    (exists_ : list N -> bool) (version : PiperTTS.version_call) (candidate : list N) :
  In candidate PiperTTS.possible_paths -> exists_ candidate = true ->
  exists p,
    PiperTTS._find_piper_executable exists_ version = Return (Some p)
    /\ In p PiperTTS.possible_paths /\ exists_ p = true
    /\ forall version', PiperTTS._find_piper_executable exists_ version' = Return (Some p).
Proof.
  intros Hin Hex. unfold PiperTTS._find_piper_executable.
  destruct (List.find exists_ PiperTTS.possible_paths) as [p|] eqn:Hf.
  - apply find_some in Hf as [Hp He]. exists p. repeat split; auto.
  - exfalso. pose proof (find_none _ _ Hf candidate Hin) as Hn. congruence.
Qed.

(** X25, witness. *)
Lemma find_piper_prefers_local_witness :
  exists p,
    PiperTTS._find_piper_executable (fun p => str_eqb p (u "./piper/piper")) PiperTTS.OtherError
    = Return (Some p)
    /\ In p PiperTTS.possible_paths /\ str_eqb p (u "./piper/piper") = true
    /\ forall version',
        PiperTTS._find_piper_executable (fun p => str_eqb p (u "./piper/piper")) version'
        = Return (Some p).
Proof.
  apply (find_piper_prefers_local (fun p => str_eqb p (u "./piper/piper")) PiperTTS.OtherError
           (u "./piper/piper")).
  - right. left. reflexivity.
  - vm_compute. reflexivity.
Defined.


(** X26. A Piper service built where no candidate path exists and
    [piper --version] does not exit with code 0 never produces audio: every
    [generate_speech] returns nothing, writes no file, runs no engine and
    leaves the service as it is. *)
Theorem piper_without_executable
    (cache_dir : list N) (exists_ : list N -> bool) (version : PiperTTS.version_call)
    (self : PiperTTS.PiperTTSService) :
  PiperTTS.__init__ cache_dir true exists_ version = Return self ->
  (forall p, In p PiperTTS.possible_paths -> exists_ p = false) ->
  version <> PiperTTS.Exited 0 ->
  forall text speed_text use_cache models run elapsed w,
    PiperTTS.generate_speech self text speed_text use_cache models run elapsed w
    = (None, self, w).
Proof.
  intros Hinit Hnone Hv text speed_text use_cache models run elapsed w.
  assert (He : PiperTTS.piper_executable self = None).
  { unfold PiperTTS.__init__, PiperTTS._find_piper_executable in Hinit.
    destruct (List.find exists_ PiperTTS.possible_paths) as [p|] eqn:Hf.
    - apply find_some in Hf as [Hp He]. rewrite (Hnone p Hp) in He. discriminate.
    - destruct version as [|code|]; cbn [mbind outcome_bind mret outcome_ret] in Hinit;
        try discriminate Hinit; injection Hinit as <-; cbn [PiperTTS.piper_executable];
        [reflexivity|].
      destruct (Z.eqb_spec code 0); [subst; congruence | reflexivity]. }
  unfold PiperTTS.generate_speech. rewrite He. reflexivity.
Qed.

(** X26, witness. *)
Lemma piper_without_executable_witness :
  PiperTTS.generate_speech piper_absent (u "Olá") (u "1.0") true
    [u "piper_models/pt_BR-faber-medium.onnx"] three_bytes 5 empty_world
  = (None, piper_absent, empty_world).
Proof.
  apply (piper_without_executable (u "./audio_cache_pt") (fun _ => false) PiperTTS.NotFound
           piper_absent).
  - reflexivity.
  - reflexivity.
  - discriminate.
Defined.

(** ** The voices of the Edge service *)

Section VoiceFacts.

Lemma select_voices_spec language voices selected :
  select_voices language voices = Return selected ->
  Forall (fun v => exists locale,
            getitem v (u "Locale") = Return locale /\ startswith locale language = true)
         selected
  /\ (length selected <= length voices)%nat.
Proof.
  revert selected. induction voices as [|v voices IH]; intros selected H.
  - injection H as <-. split; [constructor|reflexivity].
  - cbn [select_voices] in H.
    destruct (getitem v (u "Locale")) as [locale|] eqn:Hl; [|discriminate H].
    cbn [mbind outcome_bind] in H.
    destruct (select_voices language voices) as [rest|] eqn:Hr; [|discriminate H].
    cbn [mbind outcome_bind mret outcome_ret] in H. injection H as <-.
    destruct (IH rest eq_refl) as [Hall Hlen].
    destruct (startswith locale language) eqn:Hs; cbn [length]; split; try lia; auto.
    constructor; [eauto|exact Hall].
Qed.

Lemma select_voices_key_error language voices v :
  In v voices -> getitem v (u "Locale") = Raise KeyError ->
  select_voices language voices = Raise KeyError.
Proof.
  induction voices as [|v0 voices IH]; intros Hin Hv; [destruct Hin|].
  cbn [select_voices]. destruct Hin as [-> | Hin].
  - rewrite Hv. reflexivity.
  - destruct (getitem v0 (u "Locale")) as [locale|e] eqn:Hl.
    + cbn [mbind outcome_bind]. rewrite (IH Hin Hv). reflexivity.
    + clear -Hl. cbn [mbind outcome_bind].
      revert Hl. generalize (u "Locale"). intros k.
      induction v0 as [|[k' x] v0 IHv]; cbn [getitem]; [congruence|].
      destruct (str_eqb k k'); [discriminate|]. exact IHv.
Qed.

Lemma describe_voices_spec voices described :
  describe_voices voices = Return described ->
  Forall2 (fun v d => exists name gender locale,
             getitem v (u "Locale") = Return locale
             /\ d = [ (u "name", name); (u "gender", gender); (u "locale", locale);
                      (u "description", get_default v (u "FriendlyName") name) ])
          voices described.
Proof.
  revert described. induction voices as [|v voices IH]; intros described H.
  - injection H as <-. constructor.
  - cbn [describe_voices] in H. unfold describe_voice in H.
    destruct (getitem v (u "ShortName")) as [name|] eqn:Hn; [|discriminate H].
    cbn [mbind outcome_bind] in H.
    destruct (getitem v (u "Gender")) as [gender|] eqn:Hg; [|discriminate H].
    cbn [mbind outcome_bind] in H.
    destruct (getitem v (u "Locale")) as [locale|] eqn:Hl; [|discriminate H].
    cbn [mbind outcome_bind mret outcome_ret] in H.
    destruct (describe_voices voices) as [rest|] eqn:Hr; [|discriminate H].
    cbn [mbind outcome_bind mret outcome_ret] in H. injection H as <-.
    constructor; [|apply IH; reflexivity].
    exists name, gender, locale. auto.
Qed.

End VoiceFacts.

(** X27. Every voice [list_voices] returns for a language has a locale
    that begins with the language asked for, and the listing is never longer
    than the catalogue. *)
Theorem list_voices_match_language
    (available : bool) (voices : list (list (list N * list N))) (c : N) (l : list N) :
  Forall (fun d => exists locale,
            getitem d (u "locale") = Return locale /\ startswith locale (c :: l) = true)
         (list_voices available (Some voices) (Some (c :: l)))
  /\ (length (list_voices available (Some voices) (Some (c :: l))) <= length voices)%nat.
Proof.
  unfold list_voices. destruct available; cbn [negb]; [|split; [constructor|cbn; lia]].
  destruct (select_voices (c :: l) voices) as [selected|] eqn:Hs;
    cbn [mbind outcome_bind]; [|split; [constructor|cbn; lia]].
  destruct (describe_voices selected) as [described|] eqn:Hd;
    [|split; [constructor|cbn; lia]].
  apply select_voices_spec in Hs as [Hsel Hlen].
  apply describe_voices_spec in Hd.
  split.
  - clear Hlen. induction Hd as [|v d vs ds Hvd _ IH]; [constructor|].
    apply Forall_cons_1 in Hsel as [(locale & Hl & Hp) Hsel].
    constructor; [|apply IH; exact Hsel].
    destruct Hvd as (name & gender & locale' & Hl' & ->).
    exists locale. split; [|exact Hp].
    assert (locale' = locale) by congruence. subst locale'.
    vm_compute. reflexivity.
  - apply Forall2_length in Hd. lia.
Qed.

(** X28. The listing for a language is all or nothing: one entry of the
    catalogue without the key [Locale] (be it a voice of another language)
    makes [list_voices] return the empty list. *)
Theorem list_voices_missing_locale
    (available : bool) (voices : list (list (list N * list N)))
    (c : N) (l : list N) (v : list (list N * list N)) :
  In v voices -> getitem v (u "Locale") = Raise KeyError ->
  list_voices available (Some voices) (Some (c :: l)) = [].
Proof.
  intros Hin Hv. unfold list_voices. destruct available; [|reflexivity].
  cbn [negb]. rewrite (select_voices_key_error (c :: l) voices v Hin Hv). reflexivity.
Qed.

(** X28, witness. *)
Lemma list_voices_missing_locale_witness :
  list_voices true
    (Some [ [(u "ShortName", u "pt-BR-FranciscaNeural"); (u "Gender", u "Female");
             (u "Locale", u "pt-BR")];
            [(u "ShortName", u "en-US-AvaNeural"); (u "Gender", u "Female")] ])
    (Some (u "pt-BR")) = [].
Proof.
  apply (list_voices_missing_locale true _ 112 (u "t-BR")
           [(u "ShortName", u "en-US-AvaNeural"); (u "Gender", u "Female")]).
  - right. left. reflexivity.
  - vm_compute. reflexivity.
Defined.
